(** * Granular voice manager: a shallow embedding and its properties

    The development models [OptimizedGrainVoiceManager]
    (js/audio/OptimizedGrainVoiceManager.js) and the grain trigger of
    [OptimizedMultigrainPlayer] ([_triggerGrainForSlot], [_getLFOValue]).

    Modelling conventions.
    - JavaScript numbers are idealised as real numbers: rounding, NaN and
      the infinities are outside the model.  The one place where the source
      uses [Infinity] as a value (the running minimum of
      [forceCleanupOldest]) has its own type [JSTime].
    - Objects live in stores (lists indexed by reference); a reference is the
      index of the object.  The audio nodes of the Web Audio API are platform
      objects: their model keeps what the manager reads and writes (parameter
      value, automation timeline, connections, playback state).
    - A platform call can throw.  Besides the range checks the Web Audio API
      prescribes, an oracle [faults] decides for every platform call whether
      it throws, so that every statement holds for every pattern of platform
      failures.
    - [Math.random] reads the next value of the stream [randomSource].
    - [Logger] only writes to the console (js/utils/logger.js), so a logging
      call is a no-op here. *)

From Stdlib Require Import Reals Lra ZArith Lia.
From stdpp Require Import base option list.

(** ** Numbers *)

Module JSNumber.
Local Open Scope R_scope.

(** [x || d] on numbers: [0] is falsy. *)
Definition orDefault (x d : R) : R := if Req_dec_T x 0 then d else x.

(** Truncation toward zero, and the remainder [x % y] built on it. *)
Definition trunc (x : R) : R :=
  if Rle_dec 0 x then IZR (Int_part x) else - IZR (Int_part (- x)).

Definition rem (x y : R) : R := x - y * trunc (x / y).

(** [Math.max(lo, Math.min(hi, x))]. *)
Definition clamp (lo hi x : R) : R := Rmax lo (Rmin hi x).

(** A value that a comparison can meet as [Infinity]. *)
Inductive JSTime := Finite (t : R) | Infinity.

Definition ltTime (x : R) (y : JSTime) : bool :=
  match y with
  | Infinity => true
  | Finite t => if Rlt_dec x t then true else false
  end.

Definition Rltb (x y : R) : bool := if Rlt_dec x y then true else false.
Definition Rleb (x y : R) : bool := if Rle_dec x y then true else false.
End JSNumber.
Import JSNumber.

(** ** The platform: Web Audio nodes *)

Inductive JSError := RangeError | TypeError | InvalidStateError | NativeError.

Inductive Outcome (A : Type) :=
| Ret (a : A)
| Throw (e : JSError).
Arguments Ret {A} a.
Arguments Throw {A} e.

Inductive AutomationEvent :=
| SetValueAtTime (v t : R)
| LinearRampToValueAtTime (v t : R)
| ExponentialRampToValueAtTime (v t : R).

Definition eventValue (e : AutomationEvent) : R :=
  match e with
  | SetValueAtTime v _ | LinearRampToValueAtTime v _
  | ExponentialRampToValueAtTime v _ => v
  end.

Definition eventTime (e : AutomationEvent) : R :=
  match e with
  | SetValueAtTime _ t | LinearRampToValueAtTime _ t
  | ExponentialRampToValueAtTime _ t => t
  end.

(** A control point is the pair (time, gain) of an automation event. *)
Definition controlPoint (e : AutomationEvent) : R * R := (eventTime e, eventValue e).

Record AudioParam := mkParam { value : R; timeline : list AutomationEvent }.

Inductive AudioNodeRef :=
| ToGain (n : nat) | ToFilter (n : nat) | ToPanner (n : nat)
| ToSplitter | ToAnalyser | ToDestination.

Inductive BiquadFilterType := lowpass | highpass.

Record GainNode := mkGain { gain : AudioParam; gainOutputs : list AudioNodeRef }.

Record BiquadFilterNode := mkFilter {
  filterType : BiquadFilterType;
  frequency : AudioParam;
  filterOutputs : list AudioNodeRef }.

Record StereoPannerNode := mkPanner { pan : AudioParam; pannerOutputs : list AudioNodeRef }.

Record AudioBuffer := mkBuffer { duration : R }.

Record AudioBufferSourceNode := mkSource {
  buffer : option AudioBuffer;
  rate : R;                            (* playbackRate.value *)
  sourceOutputs : list AudioNodeRef;
  playback : option (R * R * R);       (* start(when, offset, duration) *)
  stopped : bool;
  onended : option nat }.              (* the grain captured by the callback *)

Definition DEFAULT_MAX_VOICES : Z := 128.
Definition CLEANUP_INTERVAL : Z := 60.
Definition CLEANUP_DELAY : R := 0.1.
Definition BASE_GAIN : R := 0.2.
Definition DEFAULT_FILTER_FREQUENCY : R := 350.
Module ENVELOPE_STEPS.
Definition LOGARITHMIC : nat := 10.
Definition SIGMOID : nat := 15.
Definition COSINE : nat := 12.
Definition GAUSSIAN : nat := 20.
Definition HANNING : nat := 16.
End ENVELOPE_STEPS.

(** Nodes as the platform creates them. *)
Definition freshGain : GainNode := mkGain (mkParam 1 []) [].
Definition freshFilter : BiquadFilterNode := mkFilter lowpass (mkParam 350 []) [].
Definition freshPanner : StereoPannerNode := mkPanner (mkParam 0 []) [].
Definition freshSource : AudioBufferSourceNode := mkSource None 1 [] None false None.

Record AudioContext := mkContext {
  currentTime : R;
  faults : nat -> bool;
  calls : nat;
  gainHeap : list GainNode;
  filterHeap : list BiquadFilterNode;
  pannerHeap : list StereoPannerNode;
  sourceHeap : list AudioBufferSourceNode }.

(** ** The manager and its grains *)

Record NodeTriple := mkNodes { gainNode : nat; filterNode : nat; pannerNode : nat }.

Record Grain := mkGrain {
  source : nat;
  nodes : NodeTriple;
  endTime : R;
  isActive : bool }.

Record CleanupItem := mkItem { grain : nat; time : R }.

Record NodePool := mkPool {
  gainNodes : list nat;
  filterNodes : list nat;
  pannerNodes : list nat }.

Record Manager := mkManager {
  maxVoices : Z;
  activeVoices : list nat;             (* a Set: insertion order, no duplicates *)
  cleanupQueue : list CleanupItem;
  lastCleanup : Z;
  masterGain : nat;
  nodePool : NodePool }.

Record World := mkWorld {
  audioContext : AudioContext;
  randomSource : nat -> R;
  randomDraws : nat;
  grainHeap : list Grain;
  manager : Manager }.

(** Per-slot parameters, as [_triggerGrainForSlot] reads them from the knobs
    and as [createGrain] receives them. *)
Record Params := mkParams {
  startOffset : R;
  playbackRate : R;
  cutoffFreq : R;
  attackTime : R;
  decayTime : R;
  envelopeShape : Z;
  grainSize : R;
  grainsPerStep : Z;
  grainVoices : R;
  lfoWaveform : Z;
  lfoRate : R;
  spread : R;
  panControl : R;
  panRandom : R;
  volume : R }.

(** Field updates. *)
Definition setCalls (c : nat) (a : AudioContext) : AudioContext :=
  mkContext (currentTime a) (faults a) c (gainHeap a) (filterHeap a) (pannerHeap a) (sourceHeap a).
Definition setCurrentTime (t : R) (a : AudioContext) : AudioContext :=
  mkContext t (faults a) (calls a) (gainHeap a) (filterHeap a) (pannerHeap a) (sourceHeap a).
Definition setGainHeap (h : list GainNode) (a : AudioContext) : AudioContext :=
  mkContext (currentTime a) (faults a) (calls a) h (filterHeap a) (pannerHeap a) (sourceHeap a).
Definition setFilterHeap (h : list BiquadFilterNode) (a : AudioContext) : AudioContext :=
  mkContext (currentTime a) (faults a) (calls a) (gainHeap a) h (pannerHeap a) (sourceHeap a).
Definition setPannerHeap (h : list StereoPannerNode) (a : AudioContext) : AudioContext :=
  mkContext (currentTime a) (faults a) (calls a) (gainHeap a) (filterHeap a) h (sourceHeap a).
Definition setSourceHeap (h : list AudioBufferSourceNode) (a : AudioContext) : AudioContext :=
  mkContext (currentTime a) (faults a) (calls a) (gainHeap a) (filterHeap a) (pannerHeap a) h.

Definition setActiveVoices (l : list nat) (m : Manager) : Manager :=
  mkManager (maxVoices m) l (cleanupQueue m) (lastCleanup m) (masterGain m) (nodePool m).
Definition setCleanupQueue (q : list CleanupItem) (m : Manager) : Manager :=
  mkManager (maxVoices m) (activeVoices m) q (lastCleanup m) (masterGain m) (nodePool m).
Definition setLastCleanup (n : Z) (m : Manager) : Manager :=
  mkManager (maxVoices m) (activeVoices m) (cleanupQueue m) n (masterGain m) (nodePool m).
Definition setMasterGain (r : nat) (m : Manager) : Manager :=
  mkManager (maxVoices m) (activeVoices m) (cleanupQueue m) (lastCleanup m) r (nodePool m).
Definition setNodePool (p : NodePool) (m : Manager) : Manager :=
  mkManager (maxVoices m) (activeVoices m) (cleanupQueue m) (lastCleanup m) (masterGain m) p.

Definition setAudio (a : AudioContext) (w : World) : World :=
  mkWorld a (randomSource w) (randomDraws w) (grainHeap w) (manager w).
Definition setRandomDraws (n : nat) (w : World) : World :=
  mkWorld (audioContext w) (randomSource w) n (grainHeap w) (manager w).
Definition setGrainHeap (h : list Grain) (w : World) : World :=
  mkWorld (audioContext w) (randomSource w) (randomDraws w) h (manager w).
Definition setManager (m : Manager) (w : World) : World :=
  mkWorld (audioContext w) (randomSource w) (randomDraws w) (grainHeap w) m.

Definition setPlaybackRate (r : R) (p : Params) : Params :=
  mkParams (startOffset p) r (cutoffFreq p) (attackTime p) (decayTime p)
    (envelopeShape p) (grainSize p) (grainsPerStep p) (grainVoices p)
    (lfoWaveform p) (lfoRate p) (spread p) (panControl p) (panRandom p) (volume p).
Definition setPanControl (r : R) (p : Params) : Params :=
  mkParams (startOffset p) (playbackRate p) (cutoffFreq p) (attackTime p) (decayTime p)
    (envelopeShape p) (grainSize p) (grainsPerStep p) (grainVoices p)
    (lfoWaveform p) (lfoRate p) (spread p) r (panRandom p) (volume p).

(** ** Computations: state, and an outcome that is a value or an exception.
    The state survives an exception, as the effects of a JavaScript block
    survive its [throw]. *)

Definition JS (A : Type) : Type := World -> Outcome A * World.

Definition ret {A} (a : A) : JS A := fun w => (Ret a, w).
Definition throw {A} (e : JSError) : JS A := fun w => (Throw e, w).
Definition bind {A B} (m : JS A) (k : A -> JS B) : JS B :=
  fun w => match m w with
           | (Ret a, w') => k a w'
           | (Throw e, w') => (Throw e, w')
           end.
Definition tryCatch {A} (m : JS A) (handler : JSError -> JS A) : JS A :=
  fun w => match m w with
           | (Ret a, w') => (Ret a, w')
           | (Throw e, w') => handler e w'
           end.

Notation "x <- m ;; k" := (bind m (fun x => k))
  (at level 100, m at next level, right associativity).
Notation "m ;;; k" := (bind m (fun _ => k))
  (at level 100, right associativity).

Definition get : JS World := fun w => (Ret w, w).
Definition modify (f : World -> World) : JS unit := fun w => (Ret tt, f w).
Definition modifyAudio (f : AudioContext -> AudioContext) : JS unit :=
  modify (fun w => setAudio (f (audioContext w)) w).
Definition modifyManager (f : Manager -> Manager) : JS unit :=
  modify (fun w => setManager (f (manager w)) w).
Definition when (b : bool) (m : JS unit) : JS unit := if b then m else ret tt.
Definition raiseIf (b : bool) (e : JSError) : JS unit := if b then throw e else ret tt.

Fixpoint forEach {A} (l : list A) (body : A -> JS unit) : JS unit :=
  match l with
  | [] => ret tt
  | x :: l' => body x ;;; forEach l' body
  end.

(** [for (let i = 0; i <= steps; i++) body(i)], counting up from [i]. *)
Fixpoint forUpTo (n i : nat) (body : nat -> JS unit) : JS unit :=
  match n with
  | O => ret tt
  | S n' => body i ;;; forUpTo n' (S i) body
  end.

(** A platform call: the oracle decides whether it throws. *)
Definition native : JS unit := fun w =>
  let a := audioContext w in
  let w' := setAudio (setCalls (S (calls a)) a) w in
  if faults a (calls a) then (Throw NativeError, w') else (Ret tt, w').

Definition Math_random : JS R := fun w =>
  (Ret (randomSource w (randomDraws w)), setRandomDraws (S (randomDraws w)) w).

(** Store access.  A reference always denotes an object; read outside the
    store it gives the object as the platform creates it. *)
#[global] Instance GainNode_inhabited : Inhabited GainNode := populate freshGain.
#[global] Instance BiquadFilterNode_inhabited : Inhabited BiquadFilterNode :=
  populate freshFilter.
#[global] Instance StereoPannerNode_inhabited : Inhabited StereoPannerNode :=
  populate freshPanner.
#[global] Instance AudioBufferSourceNode_inhabited : Inhabited AudioBufferSourceNode :=
  populate freshSource.
#[global] Instance Grain_inhabited : Inhabited Grain :=
  populate (mkGrain 0 (mkNodes 0 0 0) 0 false).

Definition deref {A} `{Inhabited A} (heap : World -> list A) (r : nat) : JS A :=
  fun w => (Ret (heap w !!! r), w).

Definition getGainNode := deref (fun w => gainHeap (audioContext w)).
Definition getFilterNode := deref (fun w => filterHeap (audioContext w)).
Definition getPannerNode := deref (fun w => pannerHeap (audioContext w)).
Definition getSourceNode := deref (fun w => sourceHeap (audioContext w)).
Definition getGrain := deref grainHeap.

Definition putGainNode (r : nat) (n : GainNode) : JS unit :=
  modifyAudio (fun a => setGainHeap (<[r:=n]> (gainHeap a)) a).
Definition putFilterNode (r : nat) (n : BiquadFilterNode) : JS unit :=
  modifyAudio (fun a => setFilterHeap (<[r:=n]> (filterHeap a)) a).
Definition putPannerNode (r : nat) (n : StereoPannerNode) : JS unit :=
  modifyAudio (fun a => setPannerHeap (<[r:=n]> (pannerHeap a)) a).
Definition putSourceNode (r : nat) (n : AudioBufferSourceNode) : JS unit :=
  modifyAudio (fun a => setSourceHeap (<[r:=n]> (sourceHeap a)) a).
Definition putGrain (r : nat) (g : Grain) : JS unit :=
  modify (fun w => setGrainHeap (<[r:=g]> (grainHeap w)) w).

(** ** Web Audio methods *)

Inductive ParamRef := GainOf (n : nat) | FrequencyOf (n : nat) | PanOf (n : nat).

Definition getParam (p : ParamRef) : JS AudioParam :=
  match p with
  | GainOf r => n <- getGainNode r ;; ret (gain n)
  | FrequencyOf r => n <- getFilterNode r ;; ret (frequency n)
  | PanOf r => n <- getPannerNode r ;; ret (pan n)
  end.

Definition putParam (p : ParamRef) (a : AudioParam) : JS unit :=
  match p with
  | GainOf r => n <- getGainNode r ;; putGainNode r (mkGain a (gainOutputs n))
  | FrequencyOf r =>
      n <- getFilterNode r ;; putFilterNode r (mkFilter (filterType n) a (filterOutputs n))
  | PanOf r => n <- getPannerNode r ;; putPannerNode r (mkPanner a (pannerOutputs n))
  end.

Definition schedule (e : AutomationEvent) (a : AudioParam) : AudioParam :=
  mkParam (value a) (timeline a ++ [e]).

(** The scheduling methods throw a RangeError on a negative time, and the
    exponential ramp on a target of 0. *)
Definition setValueAtTime (p : ParamRef) (v t : R) : JS unit :=
  a <- getParam p ;;
  native ;;; raiseIf (Rltb t 0) RangeError ;;;
  putParam p (schedule (SetValueAtTime v t) a).

Definition linearRampToValueAtTime (p : ParamRef) (v t : R) : JS unit :=
  a <- getParam p ;;
  native ;;; raiseIf (Rltb t 0) RangeError ;;;
  putParam p (schedule (LinearRampToValueAtTime v t) a).

Definition exponentialRampToValueAtTime (p : ParamRef) (v t : R) : JS unit :=
  a <- getParam p ;;
  native ;;;
  raiseIf (if Req_dec_T v 0 then true else false) RangeError ;;;
  raiseIf (Rltb t 0) RangeError ;;;
  putParam p (schedule (ExponentialRampToValueAtTime v t) a).

(** [cancelScheduledValues(t)] removes the events at or after [t]. *)
Definition cancelScheduledValues (p : ParamRef) (t : R) : JS unit :=
  a <- getParam p ;;
  native ;;; raiseIf (Rltb t 0) RangeError ;;;
  putParam p (mkParam (value a) (List.filter (fun e => Rltb (eventTime e) t) (timeline a))).

(** The [value] setter. *)
Definition setValue (p : ParamRef) (v : R) : JS unit :=
  a <- getParam p ;; putParam p (mkParam v (timeline a)).

Definition alloc {A} (heap : World -> list A) (store : list A -> JS unit) (x : A) : JS nat :=
  native ;;; w <- get ;; store (heap w ++ [x]) ;;; ret (length (heap w)).

Definition createGain : JS nat :=
  alloc (fun w => gainHeap (audioContext w))
        (fun h => modifyAudio (setGainHeap h)) freshGain.
Definition createBiquadFilter : JS nat :=
  alloc (fun w => filterHeap (audioContext w))
        (fun h => modifyAudio (setFilterHeap h)) freshFilter.
Definition createStereoPanner : JS nat :=
  alloc (fun w => pannerHeap (audioContext w))
        (fun h => modifyAudio (setPannerHeap h)) freshPanner.
Definition createBufferSource : JS nat :=
  alloc (fun w => sourceHeap (audioContext w))
        (fun h => modifyAudio (setSourceHeap h)) freshSource.

Definition connectGain (r : nat) (dest : AudioNodeRef) : JS unit :=
  n <- getGainNode r ;; native ;;; putGainNode r (mkGain (gain n) (gainOutputs n ++ [dest])).
Definition connectFilter (r : nat) (dest : AudioNodeRef) : JS unit :=
  n <- getFilterNode r ;; native ;;;
  putFilterNode r (mkFilter (filterType n) (frequency n) (filterOutputs n ++ [dest])).
Definition connectPanner (r : nat) (dest : AudioNodeRef) : JS unit :=
  n <- getPannerNode r ;; native ;;; putPannerNode r (mkPanner (pan n) (pannerOutputs n ++ [dest])).
Definition connectSource (r : nat) (dest : AudioNodeRef) : JS unit :=
  n <- getSourceNode r ;; native ;;;
  putSourceNode r (mkSource (buffer n) (rate n) (sourceOutputs n ++ [dest])
                            (playback n) (stopped n) (onended n)).

Definition disconnectGain (r : nat) : JS unit :=
  n <- getGainNode r ;; native ;;; putGainNode r (mkGain (gain n) []).
Definition disconnectFilter (r : nat) : JS unit :=
  n <- getFilterNode r ;; native ;;;
  putFilterNode r (mkFilter (filterType n) (frequency n) []).
Definition disconnectPanner (r : nat) : JS unit :=
  n <- getPannerNode r ;; native ;;; putPannerNode r (mkPanner (pan n) []).
Definition disconnectSource (r : nat) : JS unit :=
  n <- getSourceNode r ;; native ;;;
  putSourceNode r (mkSource (buffer n) (rate n) [] (playback n) (stopped n) (onended n)).

Definition setFilterType (r : nat) (t : BiquadFilterType) : JS unit :=
  n <- getFilterNode r ;; putFilterNode r (mkFilter t (frequency n) (filterOutputs n)).
Definition setBuffer (r : nat) (b : AudioBuffer) : JS unit :=
  n <- getSourceNode r ;;
  putSourceNode r (mkSource (Some b) (rate n) (sourceOutputs n) (playback n) (stopped n) (onended n)).
Definition setRate (r : nat) (v : R) : JS unit :=
  n <- getSourceNode r ;;
  putSourceNode r (mkSource (buffer n) v (sourceOutputs n) (playback n) (stopped n) (onended n)).
Definition setOnended (r : nat) (g : nat) : JS unit :=
  n <- getSourceNode r ;;
  putSourceNode r (mkSource (buffer n) (rate n) (sourceOutputs n) (playback n) (stopped n) (Some g)).

(** [start(when, offset, duration)]: a RangeError on a negative argument, an
    InvalidStateError on a second start. *)
Definition start (r : nat) (when_ offset dur : R) : JS unit :=
  n <- getSourceNode r ;; native ;;;
  raiseIf (Rltb when_ 0 || Rltb offset 0 || Rltb dur 0) RangeError ;;;
  raiseIf (bool_decide (is_Some (playback n))) InvalidStateError ;;;
  putSourceNode r (mkSource (buffer n) (rate n) (sourceOutputs n)
                            (Some (when_, offset, dur)) (stopped n) (onended n)).

(** [stop()]: an InvalidStateError when the source was never started. *)
Definition stop (r : nat) : JS unit :=
  n <- getSourceNode r ;; native ;;;
  raiseIf (bool_decide (playback n = None)) InvalidStateError ;;;
  putSourceNode r (mkSource (buffer n) (rate n) (sourceOutputs n) (playback n) true (onended n)).

(** ** JavaScript containers *)

(** [Array.prototype.pop]: the last element, or undefined. *)
Definition Array_pop {A} (l : list A) : option A * list A := (last l, removelast l).

(** [Set.prototype.add] and [Set.prototype.delete] on references. *)
Definition Set_add (x : nat) (s : list nat) : list nat :=
  if bool_decide (x ∈ s) then s else s ++ [x].
Definition Set_delete (x : nat) (s : list nat) : list nat :=
  List.filter (fun y => negb (Nat.eqb y x)) s.

(** ** EnvelopeGenerator: the automation written on a grain's gain node *)

Section Envelope.
Local Open Scope R_scope.

(** The loop variable [t = i / steps]. *)
Definition stepFraction (i steps : nat) : R := IZR (Z.of_nat i) / IZR (Z.of_nat steps).

Definition applyLogarithmicEnvelope (gainNode : nat)
    (startTime attackTime sustainTime duration peakGain : R) : JS unit :=
  let steps := ENVELOPE_STEPS.LOGARITHMIC in
  forUpTo (S steps) 0 (fun i =>
    let t := stepFraction i steps in
    let attackValue := peakGain * ln (1 + t * (exp 1 - 1)) / ln (exp 1) in
    linearRampToValueAtTime (GainOf gainNode) attackValue (startTime + (attackTime * t))) ;;;
  when (Rltb 0 sustainTime)
    (setValueAtTime (GainOf gainNode) peakGain (startTime + attackTime + sustainTime)) ;;;
  let releaseStart := startTime + attackTime + sustainTime in
  let releaseTime := duration - attackTime - sustainTime in
  forUpTo (S steps) 0 (fun i =>
    let t := stepFraction i steps in
    let releaseValue := peakGain * (1 - ln (1 + t * (exp 1 - 1)) / ln (exp 1)) in
    linearRampToValueAtTime (GainOf gainNode) releaseValue (releaseStart + (releaseTime * t))).

Definition applySigmoidEnvelope (gainNode : nat)
    (startTime attackTime sustainTime duration peakGain : R) : JS unit :=
  let steps := ENVELOPE_STEPS.SIGMOID in
  forUpTo (S steps) 0 (fun i =>
    let t := stepFraction i steps in
    let x := (t - 0.5) * 12 in
    let sigmoid := 1 / (1 + exp (- x)) in
    let attackValue := peakGain * sigmoid in
    linearRampToValueAtTime (GainOf gainNode) attackValue (startTime + (attackTime * t))) ;;;
  when (Rltb 0 sustainTime)
    (setValueAtTime (GainOf gainNode) peakGain (startTime + attackTime + sustainTime)) ;;;
  let releaseStart := startTime + attackTime + sustainTime in
  let releaseTime := duration - attackTime - sustainTime in
  forUpTo (S steps) 0 (fun i =>
    let t := stepFraction i steps in
    let x := (0.5 - t) * 12 in
    let sigmoid := 1 / (1 + exp (- x)) in
    let releaseValue := peakGain * sigmoid in
    linearRampToValueAtTime (GainOf gainNode) releaseValue (releaseStart + (releaseTime * t))).

Definition applyCosineEnvelope (gainNode : nat)
    (startTime attackTime sustainTime duration peakGain : R) : JS unit :=
  let steps := ENVELOPE_STEPS.COSINE in
  forUpTo (S steps) 0 (fun i =>
    let t := stepFraction i steps in
    let angle := t * PI / 2 in
    let attackValue := peakGain * sin angle in
    linearRampToValueAtTime (GainOf gainNode) attackValue (startTime + (attackTime * t))) ;;;
  when (Rltb 0 sustainTime)
    (setValueAtTime (GainOf gainNode) peakGain (startTime + attackTime + sustainTime)) ;;;
  let releaseStart := startTime + attackTime + sustainTime in
  let releaseTime := duration - attackTime - sustainTime in
  forUpTo (S steps) 0 (fun i =>
    let t := stepFraction i steps in
    let angle := PI / 2 + t * PI / 2 in
    let releaseValue := peakGain * Rabs (sin angle) in
    linearRampToValueAtTime (GainOf gainNode) releaseValue (releaseStart + (releaseTime * t))).

Definition applyGaussianEnvelope (gainNode : nat) (startTime duration peakGain : R) : JS unit :=
  let steps := ENVELOPE_STEPS.GAUSSIAN in
  let sigma := duration / 6 in
  let center := duration / 2 in
  forUpTo (S steps) 0 (fun i =>
    let t := stepFraction i steps * duration in
    let x := t - center in
    let gaussian := exp (- (x * x) / (2 * sigma * sigma)) in
    let value := peakGain * gaussian in
    linearRampToValueAtTime (GainOf gainNode) value (startTime + t)).

Definition applyHanningEnvelope (gainNode : nat) (startTime duration peakGain : R) : JS unit :=
  let steps := ENVELOPE_STEPS.HANNING in
  forUpTo (S steps) 0 (fun i =>
    let t := stepFraction i steps in
    let hanning := 0.5 * (1 - cos (2 * PI * t)) in
    let value := peakGain * hanning in
    linearRampToValueAtTime (GainOf gainNode) value (startTime + (duration * t))).

Definition applyTriangularEnvelope (gainNode : nat)
    (startTime attackTime sustainTime duration peakGain : R) : JS unit :=
  linearRampToValueAtTime (GainOf gainNode) peakGain (startTime + attackTime) ;;;
  when (Rltb 0 sustainTime)
    (setValueAtTime (GainOf gainNode) peakGain (startTime + attackTime + sustainTime)) ;;;
  linearRampToValueAtTime (GainOf gainNode) 0 (startTime + duration).

(** [params.envelopeShape] is the value of a knob with integer steps;
    [parseInt] leaves it as it is. *)
Definition applyOptimizedEnvelope (gainNode : nat) (startTime duration : R)
    (params : Params) : JS unit :=
  tryCatch
    (let attackTime := Rmin (duration * 0.3) (attackTime params / 1000) in
     let releaseTime := Rmin (duration * 0.7) (decayTime params / 1000) in
     let sustainTime := Rmax 0 (duration - attackTime - releaseTime) in
     let peakGain := BASE_GAIN * orDefault (volume params) 0.7 in
     setValueAtTime (GainOf gainNode) 0 startTime ;;;
     let envelopeType := envelopeShape params in
     match envelopeType with
     | 0%Z =>
         linearRampToValueAtTime (GainOf gainNode) peakGain (startTime + attackTime) ;;;
         when (Rltb 0 sustainTime)
           (setValueAtTime (GainOf gainNode) peakGain (startTime + attackTime + sustainTime)) ;;;
         linearRampToValueAtTime (GainOf gainNode) 0 (startTime + duration)
     | 1%Z =>
         exponentialRampToValueAtTime (GainOf gainNode) peakGain (startTime + attackTime) ;;;
         when (Rltb 0 sustainTime)
           (setValueAtTime (GainOf gainNode) peakGain (startTime + attackTime + sustainTime)) ;;;
         exponentialRampToValueAtTime (GainOf gainNode) 0.001 (startTime + duration)
     | 2%Z => applyLogarithmicEnvelope gainNode startTime attackTime sustainTime duration peakGain
     | 3%Z => applySigmoidEnvelope gainNode startTime attackTime sustainTime duration peakGain
     | 4%Z => applyCosineEnvelope gainNode startTime attackTime sustainTime duration peakGain
     | 5%Z => applyGaussianEnvelope gainNode startTime duration peakGain
     | 6%Z => applyHanningEnvelope gainNode startTime duration peakGain
     | 7%Z => applyTriangularEnvelope gainNode startTime attackTime sustainTime duration peakGain
     | _ =>
         linearRampToValueAtTime (GainOf gainNode) peakGain (startTime + attackTime) ;;;
         when (Rltb 0 sustainTime)
           (setValueAtTime (GainOf gainNode) peakGain (startTime + attackTime + sustainTime)) ;;;
         linearRampToValueAtTime (GainOf gainNode) 0 (startTime + duration)
     end)
    (fun _ => ret tt).
End Envelope.

(** ** NodePool *)

Definition pushGainNode (r : nat) : JS unit :=
  modifyManager (fun m =>
    let p := nodePool m in
    setNodePool (mkPool (gainNodes p ++ [r]) (filterNodes p) (pannerNodes p)) m).
Definition pushFilterNode (r : nat) : JS unit :=
  modifyManager (fun m =>
    let p := nodePool m in
    setNodePool (mkPool (gainNodes p) (filterNodes p ++ [r]) (pannerNodes p)) m).
Definition pushPannerNode (r : nat) : JS unit :=
  modifyManager (fun m =>
    let p := nodePool m in
    setNodePool (mkPool (gainNodes p) (filterNodes p) (pannerNodes p ++ [r])) m).

Definition popGainNode : JS (option nat) :=
  w <- get ;;
  let p := nodePool (manager w) in
  modifyManager (setNodePool
    (mkPool (snd (Array_pop (gainNodes p))) (filterNodes p) (pannerNodes p))) ;;;
  ret (fst (Array_pop (gainNodes p))).
Definition popFilterNode : JS (option nat) :=
  w <- get ;;
  let p := nodePool (manager w) in
  modifyManager (setNodePool
    (mkPool (gainNodes p) (snd (Array_pop (filterNodes p))) (pannerNodes p))) ;;;
  ret (fst (Array_pop (filterNodes p))).
Definition popPannerNode : JS (option nat) :=
  w <- get ;;
  let p := nodePool (manager w) in
  modifyManager (setNodePool
    (mkPool (gainNodes p) (filterNodes p) (snd (Array_pop (pannerNodes p))))) ;;;
  ret (fst (Array_pop (pannerNodes p))).

(** [popped || create()]: a node reference is truthy. *)
Definition orCreate (popped : option nat) (create : JS nat) : JS nat :=
  match popped with
  | Some r => ret r
  | None => create
  end.

Definition preAllocateNodes : JS unit :=
  tryCatch
    (w <- get ;;
     forUpTo (Z.to_nat (maxVoices (manager w))) 0 (fun _ =>
       g <- createGain ;; pushGainNode g ;;;
       f <- createBiquadFilter ;; pushFilterNode f ;;;
       p <- createStereoPanner ;; pushPannerNode p))
    (fun error => throw error).

Definition getPooledNodes : JS NodeTriple :=
  tryCatch
    (pg <- popGainNode ;; g <- orCreate pg createGain ;;
     pf <- popFilterNode ;; f <- orCreate pf createBiquadFilter ;;
     pp <- popPannerNode ;; p <- orCreate pp createStereoPanner ;;
     ret (mkNodes g f p))
    (fun _ =>
     g <- createGain ;; f <- createBiquadFilter ;; p <- createStereoPanner ;;
     ret (mkNodes g f p)).

Definition returnNodesToPool (nodes : NodeTriple) : JS unit :=
  tryCatch
    (cancelScheduledValues (GainOf (gainNode nodes)) 0 ;;;
     setValue (GainOf (gainNode nodes)) 1 ;;;
     disconnectGain (gainNode nodes) ;;;
     cancelScheduledValues (FrequencyOf (filterNode nodes)) 0 ;;;
     setValue (FrequencyOf (filterNode nodes)) DEFAULT_FILTER_FREQUENCY ;;;
     disconnectFilter (filterNode nodes) ;;;
     cancelScheduledValues (PanOf (pannerNode nodes)) 0 ;;;
     setValue (PanOf (pannerNode nodes)) 0 ;;;
     disconnectPanner (pannerNode nodes) ;;;
     pushGainNode (gainNode nodes) ;;;
     pushFilterNode (filterNode nodes) ;;;
     pushPannerNode (pannerNode nodes))
    (fun _ => ret tt).

(** ** VoiceRegistry and CleanupScheduler *)

Definition scheduleCleanup (grain : nat) (cleanupTime : R) : JS unit :=
  modifyManager (fun m => setCleanupQueue (cleanupQueue m ++ [mkItem grain cleanupTime]) m).

(** [grain.source] and [grain.nodes] are set on every grain
    ([createOptimizedGrain] is the only place that builds one), so the two
    truthiness tests of the source always pass. *)
Definition cleanupGrain (g : nat) : JS unit :=
  gr <- getGrain g ;;
  if negb (isActive gr) then ret tt else
  tryCatch
    (putGrain g (mkGrain (source gr) (nodes gr) (endTime gr) false) ;;;
     modifyManager (fun m => setActiveVoices (Set_delete g (activeVoices m)) m) ;;;
     tryCatch (stop (source gr) ;;; disconnectSource (source gr)) (fun _ => ret tt) ;;;
     returnNodesToPool (nodes gr))
    (fun _ => ret tt).

(** The loop [for (i = length - 1; i >= 0; i--)] of [performCleanup]; [n] is
    [i + 1]. *)
Fixpoint performCleanupLoop (n : nat) (now : R) (toCleanup : list nat) : JS (list nat) :=
  match n with
  | O => ret toCleanup
  | S i =>
      w <- get ;;
      match cleanupQueue (manager w) !! i with
      | None => throw TypeError
      | Some item =>
          if Rleb (time item) now
          then
            modifyManager (fun m => setCleanupQueue (delete i (cleanupQueue m)) m) ;;;
            performCleanupLoop i now (toCleanup ++ [grain item])
          else performCleanupLoop i now toCleanup
      end
  end.

Definition performCleanup : JS unit :=
  tryCatch
    (w <- get ;;
     let now := currentTime (audioContext w) in
     toCleanup <- performCleanupLoop (length (cleanupQueue (manager w))) now [] ;;
     forEach toCleanup cleanupGrain)
    (fun _ => ret tt).

(** The scan of [forceCleanupOldest] over the active set, in insertion order. *)
Fixpoint findOldest (voices : list nat) (oldestGrain : option nat) (oldestTime : JSTime)
    : JS (option nat) :=
  match voices with
  | [] => ret oldestGrain
  | g :: rest =>
      gr <- getGrain g ;;
      if ltTime (endTime gr) oldestTime
      then findOldest rest (Some g) (Finite (endTime gr))
      else findOldest rest oldestGrain oldestTime
  end.

Definition forceCleanupOldest : JS unit :=
  tryCatch
    (w <- get ;;
     oldestGrain <- findOldest (activeVoices (manager w)) None Infinity ;;
     match oldestGrain with
     | Some g => cleanupGrain g
     | None => ret tt
     end)
    (fun _ => ret tt).

(** ** GrainVoiceManager *)

Definition newGrain (gr : Grain) : JS nat :=
  w <- get ;;
  modify (setGrainHeap (grainHeap w ++ [gr])) ;;;
  ret (length (grainHeap w)).

Definition createOptimizedGrain (buffer : AudioBuffer) (params : Params)
    (startTime duration position : R) : JS (option nat) :=
  tryCatch
    (source <- createBufferSource ;;
     setBuffer source buffer ;;;
     setRate source (playbackRate params) ;;;
     nodes <- getPooledNodes ;;
     setFilterType (filterNode nodes) highpass ;;;
     setValue (FrequencyOf (filterNode nodes)) (cutoffFreq params) ;;;
     let randomAmount := orDefault (panRandom params) 0 in
     r <- Math_random ;;
     let panValue := Rmax (-1) (Rmin 1 (panControl params + (r - 0.5) * randomAmount)) in
     setValue (PanOf (pannerNode nodes)) panValue ;;;
     applyOptimizedEnvelope (gainNode nodes) startTime duration params ;;;
     connectSource source (ToFilter (filterNode nodes)) ;;;
     connectFilter (filterNode nodes) (ToPanner (pannerNode nodes)) ;;;
     connectPanner (pannerNode nodes) (ToGain (gainNode nodes)) ;;;
     w <- get ;;
     connectGain (gainNode nodes) (ToGain (masterGain (manager w))) ;;;
     start source startTime position duration ;;;
     grain <- newGrain (mkGrain source nodes (startTime + duration) true) ;;
     setOnended source grain ;;;
     ret (Some grain))
    (fun _ => ret None).

Definition createGrain (buffer : AudioBuffer) (params : Params)
    (startTime duration position : R) : JS (option nat) :=
  tryCatch
    (modifyManager (fun m => setLastCleanup (lastCleanup m + 1) m) ;;;
     w <- get ;;
     when (Z.rem (lastCleanup (manager w)) CLEANUP_INTERVAL =? 0)%Z performCleanup ;;;
     w <- get ;;
     when (Z.of_nat (length (activeVoices (manager w))) >=? maxVoices (manager w))%Z
       forceCleanupOldest ;;;
     grain <- createOptimizedGrain buffer params startTime duration position ;;
     match grain with
     | Some g =>
         modifyManager (fun m => setActiveVoices (Set_add g (activeVoices m)) m) ;;;
         scheduleCleanup g (startTime + duration + CLEANUP_DELAY)%R
     | None => ret tt
     end ;;;
     ret grain)
    (fun _ => ret None).

(** The live iteration of a Set visits every member once even though
    [cleanupGrain] deletes the member it is called on. *)
Definition stopAll : JS unit :=
  tryCatch
    (w <- get ;;
     forEach (activeVoices (manager w)) cleanupGrain ;;;
     modifyManager (setCleanupQueue []))
    (fun _ => ret tt).

Definition getActiveVoiceCount : JS nat :=
  w <- get ;; ret (length (activeVoices (manager w))).

Definition setMasterVolume (volume : R) : JS unit :=
  tryCatch
    (w <- get ;;
     setValue (GainOf (masterGain (manager w))) (Rmax 0 (Rmin 1 volume)))
    (fun _ => ret tt).

(** [destroy()].  The splitter and the analysers have no model of their own:
    their [disconnect()] is a platform call.  The fields tested before each
    disconnect are set by the constructor, so the tests pass.
    [ResourceManager.destroy()] is a call into a module that may throw. *)
Definition destroy : JS unit :=
  tryCatch
    (stopAll ;;;
     w <- get ;;
     disconnectGain (masterGain (manager w)) ;;;
     native ;;; native ;;; native ;;; native ;;;
     modifyManager (fun m =>
       setNodePool (mkPool [] (filterNodes (nodePool m)) (pannerNodes (nodePool m))) m) ;;;
     modifyManager (fun m =>
       setNodePool (mkPool (gainNodes (nodePool m)) [] (pannerNodes (nodePool m))) m) ;;;
     modifyManager (fun m =>
       setNodePool (mkPool (gainNodes (nodePool m)) (filterNodes (nodePool m)) []) m) ;;;
     modifyManager (setActiveVoices []) ;;;
     modifyManager (setCleanupQueue []) ;;;
     native)
    (fun _ => ret tt).

(** The constructor.  The channel splitter and the analysers only feed the
    display; their creation and wiring are platform calls without a model of
    the nodes themselves. *)
Definition newManager (maxVoices : Z) : JS unit :=
  tryCatch
    (modifyManager (fun _ => mkManager maxVoices [] [] 0 0 (mkPool [] [] [])) ;;;
     mg <- createGain ;;
     modifyManager (setMasterGain mg) ;;;
     setValue (GainOf mg) 1 ;;;
     native ;;; native ;;; native ;;;
     connectGain mg ToSplitter ;;;
     native ;;; native ;;;
     connectGain mg ToDestination ;;;
     native ;;;
     connectGain mg ToAnalyser ;;;
     preAllocateNodes)
    (fun error => throw error).

Definition construct (ctx : AudioContext) (random : nat -> R) (maxVoices : Z)
    : Outcome unit * World :=
  newManager maxVoices (mkWorld ctx random 0 [] (mkManager 0 [] [] 0 0 (mkPool [] [] []))).

(** ** The environment: the audio clock and the end-of-playback event *)

Definition advanceClock (dt : R) : JS unit :=
  modifyAudio (fun a => setCurrentTime (currentTime a + dt)%R a).

(** The event loop runs the [onended] callback of a source. *)
Definition fireOnended (src : nat) : JS unit :=
  n <- getSourceNode src ;;
  match onended n with
  | Some g => cleanupGrain g
  | None => ret tt
  end.

(** ** GrainTrigger: [OptimizedMultigrainPlayer._triggerGrainForSlot] *)

Section Trigger.
Local Open Scope R_scope.

Definition _getLFOValue (waveformType : Z) (rate time : R) : JS R :=
  let waveformIndex := waveformType in
  match waveformIndex with
  | 0%Z => ret ((sin (2 * PI * rate * time) + 1) / 2)
  | 1%Z => ret (1 - Rabs (rem (time * rate) 2 - 1))
  | 2%Z => ret (if Rltb (rem (time * rate) 1) 0.5 then 0 else 1)
  | 3%Z => Math_random
  | _ => ret 0.5
  end.

(** The arguments of one [createGrain] call. *)
Record GrainRequest := mkRequest {
  requestParams : Params;
  requestStartTime : R;
  requestDuration : R;
  requestPosition : R }.

(** One turn of the loop of [_triggerGrainForSlot], from the reading of the
    clock to the arguments handed to [createGrain].  [params] holds the knob
    values of the slot and [lfoStartTime] is [state.lfoStartTime]; the
    flash of the slot on the screen has no model. *)
Definition grainRequest (buffer : AudioBuffer) (params : Params) (lfoStartTime : R)
    : JS GrainRequest :=
  let spreadAmount := spread params / 100 in
  w <- get ;;
  let now := currentTime (audioContext w) in
  let lfoTime := now - lfoStartTime in
  lfoVal <- _getLFOValue (lfoWaveform params) (lfoRate params) lfoTime ;;
  let grainDurSec := grainSize params / 1000 in
  let baseStartPosition := (startOffset params / 100) * duration buffer in
  let baseStartPosition :=
    baseStartPosition + lfoVal * (duration buffer - baseStartPosition - grainDurSec) in
  positionSec <-
    (if Rltb 0 spreadAmount
     then
       let positionSpread := spreadAmount * duration buffer * 0.5 in
       r <- Math_random ;;
       let randomOffset := (r - 0.5) * 2 * positionSpread in
       ret (baseStartPosition + randomOffset)
     else ret baseStartPosition) ;;
  r <- Math_random ;;
  let positionSec :=
    Rmax 0 (Rmin (duration buffer - grainDurSec) (positionSec + (r - 0.5) * 0.05)) in
  let spreadParams := params in
  spreadParams <-
    (if Rltb 0 spreadAmount
     then
       let pitchSpreadRange := spreadAmount * 0.5 in
       r1 <- Math_random ;;
       let pitchVariation := 1 + (r1 - 0.5) * 2 * pitchSpreadRange in
       let spreadParams :=
         setPlaybackRate (Rmax 0.1 (Rmin 2.0 (playbackRate params * pitchVariation)))
                         spreadParams in
       let panSpreadRange := spreadAmount * 2 in
       r2 <- Math_random ;;
       let panVariation := (r2 - 0.5) * 2 * panSpreadRange in
       ret (setPanControl (Rmax (-1) (Rmin 1 (panControl params + panVariation)))
                          spreadParams)
     else ret spreadParams) ;;
  let grainStartTime := now in
  grainStartTime <-
    (if Rltb 0 spreadAmount
     then
       let timingSpread := spreadAmount * 0.02 in
       r3 <- Math_random ;;
       ret (grainStartTime + (r3 - 0.5) * 2 * timingSpread)
     else ret grainStartTime) ;;
  ret (mkRequest spreadParams grainStartTime grainDurSec positionSec).

Definition _triggerGrainForSlot (buffer : option AudioBuffer) (params : Params)
    (lfoStartTime : R) : JS unit :=
  match buffer with
  | None => ret tt
  | Some buffer =>
      let maxGrains := Z.min (grainsPerStep params) 20 in
      forUpTo (Z.to_nat maxGrains) 0 (fun _ =>
        request <- grainRequest buffer params lfoStartTime ;;
        _ <- createGrain buffer (requestParams request) (requestStartTime request)
               (requestDuration request) (requestPosition request) ;;
        ret tt)
  end.
End Trigger.

(** ** The sequencer: which slots a tick triggers *)

Module Sequencer.

Definition SLOTS : nat := 4.
Definition SEQUENCER_STEPS : Z := 16.

(** The part of [this.state] that a tick reads and writes.  An entry of
    [audioBuffers] is a buffer or null. *)
Record PlaybackState := mkPlayback {
  audioBuffers : list (option AudioBuffer);
  slotSoloStatus : list bool;
  slotMuteStatus : list bool;
  lfoStartTime : R;
  currentSequencerStep : Z }.

Definition setCurrentSequencerStep (step : Z) (st : PlaybackState) : PlaybackState :=
  mkPlayback (audioBuffers st) (slotSoloStatus st) (slotMuteStatus st) (lfoStartTime st) step.

(** An array index: a number, or undefined.  Reading an array at undefined,
    at a negative number or beyond its length gives undefined. *)
Definition Array_at {A} (l : list A) (i : option Z) : option A :=
  match i with
  | Some z => if (z <? 0)%Z then None else l !! Z.to_nat z
  | None => None
  end.

(** Truthiness of a boolean-or-undefined, and of a buffer-or-null-or-undefined. *)
Definition truthy (v : option bool) : bool := default false v.
Definition loaded (v : option (option AudioBuffer)) : bool :=
  match v with
  | Some (Some _) => true
  | _ => false
  end.

(** The result is a boolean, or undefined when a slot outside the array is
    asked for while a solo is active. *)
Definition _isSlotActiveForPlayback (st : PlaybackState) (slot : option Z) : option bool :=
  let hasSoloActive := existsb (fun solo => solo) (slotSoloStatus st) in
  if hasSoloActive
  then Array_at (slotSoloStatus st) slot
  else Some (negb (truthy (Array_at (slotMuteStatus st) slot))).

(** What [_pickRandomLoadedSlot] returns: null, a slot, or undefined when
    the random index falls outside the array. *)
Inductive Picked := PickedNull | PickedUndefined | PickedSlot (slot : nat).

Definition availableSlots (st : PlaybackState) : list nat :=
  omap (fun i => i)
    (imap (fun i b =>
             if loaded (Some b) && truthy (_isSlotActiveForPlayback st (Some (Z.of_nat i)))
             then Some i else None)
          (audioBuffers st)).

Definition _pickRandomLoadedSlot (st : PlaybackState) : JS Picked :=
  let available := availableSlots st in
  if Nat.eqb (length available) 0 then ret PickedNull
  else
    r <- Math_random ;;
    ret (match Array_at available (Some (Int_part (r * INR (length available)))) with
         | Some slot => PickedSlot slot
         | None => PickedUndefined
         end).

Section Tick.
(** [slotMode] is the number read from the slot-mode selector (a value that
    is not a number behaves as an index outside every array);
    [getStep] is the pattern of the sequencer controller and [knobs] the
    knob values of a slot. *)
Variables (slotMode : Z) (getStep : option Z -> Z -> bool) (knobs : option Z -> Params).

Definition eligible (st : PlaybackState) (s : option Z) : bool :=
  loaded (Array_at (audioBuffers st) s) &&
  getStep s (currentSequencerStep st) &&
  truthy (_isSlotActiveForPlayback st s).

Definition bufferOf (st : PlaybackState) (s : option Z) : option AudioBuffer :=
  match Array_at (audioBuffers st) s with
  | Some b => b
  | None => None
  end.

(** [_updateStepUI()] is a call into the page that may throw. *)
Definition _sequencerTick (st : PlaybackState) : JS PlaybackState :=
  tryCatch
    (targetSlots <-
       (if (slotMode =? 4)%Z then ret (map (fun i => Some (Z.of_nat i)) (seq 0 SLOTS))
        else if (slotMode =? 5)%Z then
          randomSlot <- _pickRandomLoadedSlot st ;;
          ret (match randomSlot with
               | PickedNull => []
               | PickedUndefined => [None]
               | PickedSlot slot => [Some (Z.of_nat slot)]
               end)
        else ret [Some slotMode]) ;;
     forEach targetSlots (fun s =>
       if eligible st s
       then _triggerGrainForSlot (bufferOf st s) (knobs s) (lfoStartTime st)
       else ret tt) ;;;
     native ;;;
     ret (setCurrentSequencerStep
            (Z.rem (currentSequencerStep st + 1) SEQUENCER_STEPS) st))
    (fun _ => ret st).
End Tick.
End Sequencer.

(** ** The life of a manager: construction, calls and events *)

Definition newAudioContext (t0 : R) (oracle : nat -> bool) : AudioContext :=
  mkContext t0 oracle 0 [] [] [] [].

Inductive Call :=
| CreateGrain (buffer : AudioBuffer) (params : Params) (startTime duration position : R)
| TriggerGrainForSlot (buffer : option AudioBuffer) (params : Params) (lfoStartTime : R)
| StopAll
| SetMasterVolume (volume : R)
| Onended (src : nat)
| Clock (dt : R).

Definition run (c : Call) : JS unit :=
  match c with
  | CreateGrain buffer params startTime duration position =>
      _ <- createGrain buffer params startTime duration position ;; ret tt
  | TriggerGrainForSlot buffer params lfoStartTime =>
      _triggerGrainForSlot buffer params lfoStartTime
  | StopAll => stopAll
  | SetMasterVolume volume => setMasterVolume volume
  | Onended src => fireOnended src
  | Clock dt => advanceClock dt
  end.

Inductive reachable (maxVoices : Z) : World -> Prop :=
| reachable_new t0 oracle random w :
    construct (newAudioContext t0 oracle) random maxVoices = (Ret tt, w) ->
    reachable maxVoices w
| reachable_run w c :
    reachable maxVoices w -> reachable maxVoices (snd (run c w)).

(** The state after a list of calls. *)
Definition runAll (cs : list Call) (w : World) : World :=
  fold_left (fun w c => snd (run c w)) cs w.

(** * Reasoning rules *)

(** [wp m Q E w]: run from [w], [m] ends in a state that satisfies [Q] with
    its result, or throws in a state that satisfies [E]. *)
Definition wp {A} (m : JS A) (Q : A -> World -> Prop) (E : World -> Prop) (w : World) : Prop :=
  match m w with
  | (Ret a, w') => Q a w'
  | (Throw _, w') => E w'
  end.

Lemma wp_ret {A} (a : A) Q E w : Q a w -> wp (ret a) Q E w.
Proof. trivial. Qed.

Lemma wp_throw {A} e (Q : A -> World -> Prop) E w : E w -> wp (throw e) Q E w.
Proof. trivial. Qed.

Lemma wp_bind {A B} (m : JS A) (k : A -> JS B) Q E w :
  wp m (fun a w' => wp (k a) Q E w') E w -> wp (x <- m ;; k x) Q E w.
Proof. unfold wp, bind. destruct (m w) as [[a|e] w']; trivial. Qed.

Lemma wp_tryCatch {A} (m : JS A) h Q E w :
  wp m Q (fun w' => forall e, wp (h e) Q E w') w -> wp (tryCatch m h) Q E w.
Proof. unfold wp, tryCatch. destruct (m w) as [[a|e] w']; [trivial | intros H; apply H]. Qed.

Lemma wp_mono {A} (m : JS A) (Q Q' : A -> World -> Prop) (E E' : World -> Prop) w :
  wp m Q E w -> (forall a w', Q a w' -> Q' a w') -> (forall w', E w' -> E' w') ->
  wp m Q' E' w.
Proof. unfold wp. destruct (m w) as [[a|e] w']; auto. Qed.

Lemma wp_get Q E w : Q w w -> wp get Q E w.
Proof. trivial. Qed.

Lemma wp_modify f Q E w : Q tt (f w) -> wp (modify f) Q E w.
Proof. trivial. Qed.

Lemma wp_elim {A} (m : JS A) Q E w o w' :
  wp m Q E w -> m w = (o, w') ->
  match o with Ret a => Q a w' | Throw _ => E w' end.
Proof. unfold wp. intros H Heq. rewrite Heq in H. exact H. Qed.

(** [preserves P m]: [P] survives [m], whether [m] returns or throws. *)
Definition preserves {A} (P : World -> Prop) (m : JS A) : Prop :=
  forall w, P w -> wp m (fun _ => P) P w.

Lemma preserves_snd {A} P (m : JS A) w : preserves P m -> P w -> P (snd (m w)).
Proof. intros H Hw. specialize (H w Hw). unfold wp in H. destruct (m w) as [[a|e] w']; exact H. Qed.

Section Preserves.
Context (P : World -> Prop).

Lemma preserves_ret {A} (a : A) : preserves P (ret a).
Proof. intros w H. exact H. Qed.

Lemma preserves_throw {A} e : preserves P (@throw A e).
Proof. intros w H. exact H. Qed.

Lemma preserves_get : preserves P get.
Proof. intros w H. exact H. Qed.

Lemma preserves_deref {A} `{Inhabited A} (heap : World -> list A) r :
  preserves P (deref heap r).
Proof. intros w Hw. exact Hw. Qed.

Lemma preserves_bind {A B} (m : JS A) (k : A -> JS B) :
  preserves P m -> (forall a, preserves P (k a)) -> preserves P (x <- m ;; k x).
Proof.
  intros Hm Hk w H. apply wp_bind. eapply wp_mono; [apply Hm, H | | trivial].
  intros a w' H'. apply Hk, H'.
Qed.

Lemma preserves_tryCatch {A} (m : JS A) h :
  preserves P m -> (forall e, preserves P (h e)) -> preserves P (tryCatch m h).
Proof.
  intros Hm Hh w H. apply wp_tryCatch. eapply wp_mono; [apply Hm, H | trivial |].
  intros w' H' e. apply Hh, H'.
Qed.

Lemma preserves_when b m : preserves P m -> preserves P (when b m).
Proof. destruct b; [trivial | intros _; apply preserves_ret]. Qed.

Lemma preserves_raiseIf b e : preserves P (raiseIf b e).
Proof. destruct b; [apply preserves_throw | apply preserves_ret]. Qed.

Lemma preserves_forEach {A} (l : list A) body :
  (forall x, preserves P (body x)) -> preserves P (forEach l body).
Proof.
  intros Hb. induction l as [|x l IH]; simpl.
  - apply preserves_ret.
  - apply preserves_bind; [apply Hb | intros _; exact IH].
Qed.

Lemma preserves_forUpTo n i body :
  (forall j, preserves P (body j)) -> preserves P (forUpTo n i body).
Proof.
  intros Hb. revert i. induction n as [|n IH]; intros i; simpl.
  - apply preserves_ret.
  - apply preserves_bind; [apply Hb | intros _; apply IH].
Qed.

Lemma preserves_modify f : (forall w, P w -> P (f w)) -> preserves P (modify f).
Proof. intros Hf w H. apply Hf, H. Qed.
End Preserves.

(** The structural steps of a preservation proof; what is left are the state
    updates and the calls with a lemma of their own. *)
Ltac head_of t :=
  lazymatch t with
  | ?f _ => head_of f
  | _ => t
  end.

Ltac preserves_step :=
  lazymatch goal with
  | |- preserves _ (ret _) => apply preserves_ret
  | |- preserves _ (throw _) => apply preserves_throw
  | |- preserves _ get => apply preserves_get
  | |- preserves _ (deref _ _) => apply preserves_deref
  | |- preserves _ (raiseIf _ _) => apply preserves_raiseIf
  | |- preserves _ (when _ _) => apply preserves_when
  | |- preserves _ (forUpTo _ _ _) => apply preserves_forUpTo; intros ?
  | |- preserves _ (forEach _ _) => apply preserves_forEach; intros ?
  | |- preserves _ (tryCatch _ _) => apply preserves_tryCatch; [| intros ?]
  | |- preserves _ (bind _ _) => apply preserves_bind; [| intros ?]
  | |- preserves _ (match ?x with _ => _ end) => destruct x
  | |- preserves _ (let _ := _ in _) => cbv zeta
  end.

(** ** Frames: what a computation leaves alone *)

(** The part of the state that the audio nodes and the node pool are not in. *)
Definition registry (w : World) :=
  (grainHeap w, maxVoices (manager w), activeVoices (manager w),
   cleanupQueue (manager w), lastCleanup (manager w)).

Definition keepsOn {A T} (proj : World -> T) (m : JS A) : Prop :=
  forall x, preserves (fun w => proj w = x) m.

Lemma keepsOn_snd {A T} (proj : World -> T) (m : JS A) w :
  keepsOn proj m -> proj (snd (m w)) = proj w.
Proof. intros H. apply (preserves_snd _ m w (H (proj w))). reflexivity. Qed.

Lemma keepsOn_eq {A T} (proj : World -> T) (m : JS A) w o w' :
  keepsOn proj m -> m w = (o, w') -> proj w' = proj w.
Proof. intros H Hm. rewrite <- (keepsOn_snd proj m w H), Hm. reflexivity. Qed.

Lemma keepsOn_preserves {A T} (proj : World -> T) (m : JS A) (Q : T -> Prop) :
  keepsOn proj m -> preserves (fun w => Q (proj w)) m.
Proof.
  intros H w Hw. eapply wp_mono; [apply (H (proj w)); reflexivity | |];
    cbn; intros; congruence.
Qed.

(** The two recursive scans. *)
Lemma findOldest_preserves P voices oldestGrain oldestTime :
  preserves P (findOldest voices oldestGrain oldestTime).
Proof.
  revert oldestGrain oldestTime.
  induction voices as [|g rest IH]; intros og ot; simpl.
  - apply preserves_ret.
  - apply preserves_bind; [apply preserves_deref | intros gr].
    destruct (ltTime (endTime gr) ot); apply IH.
Qed.

Lemma performCleanupLoop_preserves (P : World -> Prop) n now toCleanup :
  (forall q w, P w -> P (setManager (setCleanupQueue q (manager w)) w)) ->
  preserves P (performCleanupLoop n now toCleanup).
Proof.
  intros HP. revert toCleanup.
  induction n as [|i IH]; intros acc; simpl.
  - apply preserves_ret.
  - apply preserves_bind; [apply preserves_get | intros w0].
    destruct (cleanupQueue (manager w0) !! i) as [item|]; [| apply preserves_throw].
    destruct (Rleb (time item) now); [| apply IH].
    apply preserves_bind; [| intros _; apply IH].
    apply preserves_modify. intros w Hw. apply HP, Hw.
Qed.

(** A state update that does not move the projection. *)
Ltac frame_leaf :=
  let w := fresh "w" in
  let H := fresh "H" in
  intros w H; unfold wp, native, Math_random, modifyAudio, modifyManager, modify;
  cbn; try destruct (faults _ _); rewrite ?length_insert; exact H.

Ltac unfold_head :=
  lazymatch goal with
  | |- preserves _ ?m =>
      let h := head_of m in
      lazymatch h with
      | native => fail
      | Math_random => fail
      | @modify => fail
      | @modifyAudio => fail
      | @modifyManager => fail
      | @findOldest => apply findOldest_preserves
      | @performCleanupLoop =>
          apply performCleanupLoop_preserves;
          let H := fresh "H" in intros ? ? H; exact H
      | _ => progress unfold h
      end
  end.

Ltac frame := intros ?; repeat first [preserves_step | unfold_head]; try frame_leaf.

(** The platform never fails on its own. *)
Definition NoFaults (w : World) : Prop := forall k, faults (audioContext w) k = false.

Definition oracle (w : World) : nat -> bool := faults (audioContext w).

Lemma NoFaults_keeps {A} (m : JS A) w :
  keepsOn oracle m -> NoFaults w -> NoFaults (snd (m w)).
Proof.
  intros Hk Hw k. unfold NoFaults in Hw.
  change (oracle (snd (m w)) k = false). rewrite (keepsOn_snd oracle m w Hk). apply Hw.
Qed.

Lemma run_keeps_oracle c : keepsOn oracle (run c).
Proof. destruct c; frame. Qed.

Lemma run_keeps_capacity c : keepsOn (fun w => maxVoices (manager w)) (run c).
Proof. destruct c; frame. Qed.

(** ** Running a computation step by step *)

Lemma bind_returns {A B} (m : JS A) (k : A -> JS B) w a w1 :
  m w = (Ret a, w1) -> (x <- m ;; k x) w = k a w1.
Proof. unfold bind. intros ->. reflexivity. Qed.

Lemma bind_throws {A B} (m : JS A) (k : A -> JS B) w e w1 :
  m w = (Throw e, w1) -> (x <- m ;; k x) w = (Throw e, w1).
Proof. unfold bind. intros ->. reflexivity. Qed.

Lemma tryCatch_returns {A} (m : JS A) h w a w1 :
  m w = (Ret a, w1) -> tryCatch m h w = (Ret a, w1).
Proof. unfold tryCatch. intros ->. reflexivity. Qed.

Lemma tryCatch_unit (m : JS unit) w :
  tryCatch m (fun _ => ret tt) w = (Ret tt, snd (m w)).
Proof. unfold tryCatch. destruct (m w) as [[[]|e] w1]; reflexivity. Qed.

Lemma deref_returns {A} `{Inhabited A} (heap : World -> list A) r w x :
  heap w !! r = Some x -> deref heap r w = (Ret x, w).
Proof. intros E. unfold deref. rewrite (list_lookup_total_correct _ _ _ E). reflexivity. Qed.

Definition tick (w : World) : World :=
  setAudio (setCalls (S (calls (audioContext w))) (audioContext w)) w.

Lemma native_returns w : NoFaults w -> native w = (Ret tt, tick w).
Proof. intros H. unfold native. rewrite H. reflexivity. Qed.

Lemma NoFaults_tick w : NoFaults w -> NoFaults (tick w).
Proof. intros H k. apply H. Qed.

Lemma Rltb_false x y : (y <= x)%R -> Rltb x y = false.
Proof. intros H. unfold Rltb. destruct (Rlt_dec x y); [lra | reflexivity]. Qed.

Lemma Rltb_true x y : (x < y)%R -> Rltb x y = true.
Proof. intros H. unfold Rltb. destruct (Rlt_dec x y); [reflexivity | lra]. Qed.

Lemma Rleb_true x y : (x <= y)%R -> Rleb x y = true.
Proof. intros H. unfold Rleb. destruct (Rle_dec x y); [reflexivity | lra]. Qed.

Lemma Rleb_false x y : (y < x)%R -> Rleb x y = false.
Proof. intros H. unfold Rleb. destruct (Rle_dec x y); [lra | reflexivity]. Qed.

(** ** Audio parameters *)

Definition paramAt (p : ParamRef) (w : World) : option AudioParam :=
  match p with
  | GainOf r => gain <$> gainHeap (audioContext w) !! r
  | FrequencyOf r => frequency <$> filterHeap (audioContext w) !! r
  | PanOf r => pan <$> pannerHeap (audioContext w) !! r
  end.

Lemma getParam_returns p w a : paramAt p w = Some a -> getParam p w = (Ret a, w).
Proof.
  destruct p as [r|r|r]; cbn [paramAt]; intros H;
    [ destruct (gainHeap (audioContext w) !! r) as [n|] eqn:E
    | destruct (filterHeap (audioContext w) !! r) as [n|] eqn:E
    | destruct (pannerHeap (audioContext w) !! r) as [n|] eqn:E ];
    try discriminate; injection H as <-;
    unfold getParam, getGainNode, getFilterNode, getPannerNode, bind, deref;
    rewrite (list_lookup_total_correct _ _ _ E); reflexivity.
Qed.

Lemma putParam_returns p w a a' :
  paramAt p w = Some a ->
  exists w', putParam p a' w = (Ret tt, w') /\ paramAt p w' = Some a'
             /\ oracle w' = oracle w /\ registry w' = registry w.
Proof.
  destruct p as [r|r|r]; cbn [paramAt]; intros H;
    [ destruct (gainHeap (audioContext w) !! r) as [n|] eqn:E
    | destruct (filterHeap (audioContext w) !! r) as [n|] eqn:E
    | destruct (pannerHeap (audioContext w) !! r) as [n|] eqn:E ];
    try discriminate; injection H as <-;
    eexists; (split; [reflexivity |]); cbn;
    (rewrite list_lookup_insert_eq by (eapply lookup_lt_Some; exact E)); auto.
Qed.

Lemma paramAt_tick p w : paramAt p (tick w) = paramAt p w.
Proof. destruct p; reflexivity. Qed.

Lemma NoFaults_oracle w w' : oracle w' = oracle w -> NoFaults w -> NoFaults w'.
Proof. intros H Hw k. change (oracle w' k = false). rewrite H. apply Hw. Qed.

(** What a scheduling call does when the platform accepts it. *)
Definition scheduled (m : JS unit) (p : ParamRef) (e : AutomationEvent) : Prop :=
  forall w a, NoFaults w -> paramAt p w = Some a ->
    exists w', m w = (Ret tt, w') /\ paramAt p w' = Some (schedule e a) /\ NoFaults w'
               /\ registry w' = registry w.

Ltac run_schedule w a Hw Ha :=
  erewrite bind_returns by (apply getParam_returns; exact Ha);
  erewrite bind_returns by (apply native_returns; exact Hw);
  repeat (rewrite Rltb_false by assumption; cbn [raiseIf]; erewrite bind_returns by reflexivity);
  let w' := fresh "w'" in
  let E := fresh "E" in
  let P := fresh "P" in
  let O := fresh "O" in
  let G := fresh "G" in
  lazymatch goal with
  | |- context [putParam ?p ?a' ?w0] =>
      destruct (putParam_returns p w0 a a') as (w' & E & P & O & G);
      [ rewrite paramAt_tick; exact Ha | ]
  end;
  exists w'; split; [exact E | split; [exact P | split; [| exact G]]];
  apply (NoFaults_oracle (tick w)); [exact O | apply NoFaults_tick; exact Hw].

Lemma setValueAtTime_scheduled p v t :
  (0 <= t)%R -> scheduled (setValueAtTime p v t) p (SetValueAtTime v t).
Proof. intros Ht w a Hw Ha. unfold setValueAtTime. run_schedule w a Hw Ha. Qed.

Lemma linearRampToValueAtTime_scheduled p v t :
  (0 <= t)%R -> scheduled (linearRampToValueAtTime p v t) p (LinearRampToValueAtTime v t).
Proof. intros Ht w a Hw Ha. unfold linearRampToValueAtTime. run_schedule w a Hw Ha. Qed.

Lemma exponentialRampToValueAtTime_scheduled p v t :
  v <> 0%R -> (0 <= t)%R ->
  scheduled (exponentialRampToValueAtTime p v t) p (ExponentialRampToValueAtTime v t).
Proof.
  intros Hv Ht w a Hw Ha. unfold exponentialRampToValueAtTime.
  erewrite bind_returns by (apply getParam_returns; exact Ha).
  erewrite bind_returns by (apply native_returns; exact Hw).
  destruct (Req_dec_T v 0) as [?|_]; [contradiction |]. cbn [raiseIf].
  erewrite bind_returns by reflexivity.
  rewrite Rltb_false by assumption. cbn [raiseIf]. erewrite bind_returns by reflexivity.
  destruct (putParam_returns p (tick w) a (schedule (ExponentialRampToValueAtTime v t) a))
    as (w' & E & P & O & G); [rewrite paramAt_tick; exact Ha |].
  exists w'. repeat split; try assumption.
  apply (NoFaults_oracle (tick w)); [exact O | apply NoFaults_tick; exact Hw].
Qed.

(** A sequence of scheduling calls appends its events in order. *)
Definition scheduledAll (m : JS unit) (p : ParamRef) (es : list AutomationEvent) : Prop :=
  forall w a, NoFaults w -> paramAt p w = Some a ->
    exists w', m w = (Ret tt, w') /\
               paramAt p w' = Some (mkParam (value a) (timeline a ++ es)) /\ NoFaults w'
               /\ registry w' = registry w.

Lemma scheduledAll_one m p e : scheduled m p e -> scheduledAll m p [e].
Proof. exact (fun H => H). Qed.

Lemma scheduledAll_nil p : scheduledAll (ret tt) p [].
Proof.
  intros w a Hw Ha. exists w. rewrite app_nil_r. destruct a. repeat split; assumption.
Qed.

Lemma scheduledAll_seq m1 m2 p es1 es2 :
  scheduledAll m1 p es1 -> scheduledAll m2 p es2 -> scheduledAll (m1 ;;; m2) p (es1 ++ es2).
Proof.
  intros H1 H2 w a Hw Ha.
  destruct (H1 w a Hw Ha) as (w1 & E1 & P1 & N1 & G1).
  destruct (H2 w1 _ N1 P1) as (w2 & E2 & P2 & N2 & G2).
  exists w2. rewrite (bind_returns _ _ _ _ _ E1). cbn in P2. rewrite <- app_assoc in P2.
  repeat split; try assumption. congruence.
Qed.

Lemma scheduledAll_when b m p es :
  scheduledAll m p es -> scheduledAll (when b m) p (if b then es else []).
Proof. destruct b; [trivial | intros _; apply scheduledAll_nil]. Qed.

Lemma scheduledAll_forUpTo n i body p (ev : nat -> AutomationEvent) :
  (forall j, i <= j < i + n -> scheduled (body j) p (ev j)) ->
  scheduledAll (forUpTo n i body) p (map ev (seq i n)).
Proof.
  revert i. induction n as [|n IH]; intros i H; simpl.
  - apply scheduledAll_nil.
  - apply (scheduledAll_seq _ _ _ [ev i]).
    + apply scheduledAll_one, H. lia.
    + apply IH. intros j Hj. apply H. lia.
Qed.

(** ** The control points of an envelope *)

Section ControlPoints.
Local Open Scope R_scope.
Variables (startTime duration : R) (params : Params).

Definition attackOf : R := Rmin (duration * 0.3) (attackTime params / 1000).
Definition releaseOf : R := Rmin (duration * 0.7) (decayTime params / 1000).
Definition sustainOf : R := Rmax 0 (duration - attackOf - releaseOf).
Definition peakGainOf : R := BASE_GAIN * orDefault (volume params) 0.7.

Definition sustainEvents : list AutomationEvent :=
  if Rltb 0 sustainOf
  then [SetValueAtTime peakGainOf (startTime + attackOf + sustainOf)]
  else [].

(** The events of a loop over [i = 0 .. steps]. *)
Definition sampled (steps : nat) (value time : R -> R) : list AutomationEvent :=
  map (fun i => LinearRampToValueAtTime (value (stepFraction i steps))
                                        (time (stepFraction i steps)))
      (seq 0 (S steps)).

Definition attackAt (t : R) : R := startTime + attackOf * t.
Definition releaseAt (t : R) : R :=
  startTime + attackOf + sustainOf + (duration - attackOf - sustainOf) * t.

Definition linearEvents : list AutomationEvent :=
  [LinearRampToValueAtTime peakGainOf (startTime + attackOf)] ++ sustainEvents ++
  [LinearRampToValueAtTime 0 (startTime + duration)].

Definition shapeEvents (shape : Z) : list AutomationEvent :=
  match shape with
  | 1%Z =>
      [ExponentialRampToValueAtTime peakGainOf (startTime + attackOf)] ++ sustainEvents ++
      [ExponentialRampToValueAtTime 0.001 (startTime + duration)]
  | 2%Z =>
      sampled ENVELOPE_STEPS.LOGARITHMIC
        (fun t => peakGainOf * ln (1 + t * (exp 1 - 1)) / ln (exp 1)) attackAt ++
      sustainEvents ++
      sampled ENVELOPE_STEPS.LOGARITHMIC
        (fun t => peakGainOf * (1 - ln (1 + t * (exp 1 - 1)) / ln (exp 1))) releaseAt
  | 3%Z =>
      sampled ENVELOPE_STEPS.SIGMOID
        (fun t => peakGainOf * (1 / (1 + exp (- ((t - 0.5) * 12))))) attackAt ++
      sustainEvents ++
      sampled ENVELOPE_STEPS.SIGMOID
        (fun t => peakGainOf * (1 / (1 + exp (- ((0.5 - t) * 12))))) releaseAt
  | 4%Z =>
      sampled ENVELOPE_STEPS.COSINE (fun t => peakGainOf * sin (t * PI / 2)) attackAt ++
      sustainEvents ++
      sampled ENVELOPE_STEPS.COSINE
        (fun t => peakGainOf * Rabs (sin (PI / 2 + t * PI / 2))) releaseAt
  | 5%Z =>
      sampled ENVELOPE_STEPS.GAUSSIAN
        (fun t => peakGainOf *
                  exp (- ((t * duration - duration / 2) * (t * duration - duration / 2))
                       / (2 * (duration / 6) * (duration / 6))))
        (fun t => startTime + t * duration)
  | 6%Z =>
      sampled ENVELOPE_STEPS.HANNING
        (fun t => peakGainOf * (0.5 * (1 - cos (2 * PI * t))))
        (fun t => startTime + duration * t)
  | _ => linearEvents
  end.

Definition envelopeEvents : list AutomationEvent :=
  SetValueAtTime 0 startTime :: shapeEvents (envelopeShape params).

Hypothesis startTime_nonneg : 0 <= startTime.
Hypothesis duration_pos : 0 < duration.
Hypothesis attack_nonneg : 0 <= attackTime params.
Hypothesis decay_nonneg : 0 <= decayTime params.

Lemma attackOf_bounds : 0 <= attackOf <= duration * 0.3.
Proof. unfold attackOf, Rmin. destruct (Rle_dec _ _); lra. Qed.

Lemma releaseOf_bounds : 0 <= releaseOf <= duration * 0.7.
Proof. unfold releaseOf, Rmin. destruct (Rle_dec _ _); lra. Qed.

Lemma sustainOf_bounds : 0 <= sustainOf /\ 0 <= duration - attackOf - sustainOf.
Proof.
  pose proof attackOf_bounds. pose proof releaseOf_bounds.
  unfold sustainOf, Rmax. destruct (Rle_dec _ _); lra.
Qed.

Lemma peakGainOf_nonzero : peakGainOf <> 0.
Proof.
  unfold peakGainOf, BASE_GAIN, orDefault. destruct (Req_dec_T _ _); [lra |].
  intros H. apply Rmult_integral in H. destruct H; [lra | contradiction].
Qed.

Lemma stepFraction_nonneg i n : 0 <= stepFraction i n.
Proof.
  unfold stepFraction. destruct n as [|n].
  - change (Z.of_nat 0) with 0%Z. unfold Rdiv. rewrite Rinv_0. lra.
  - apply Rmult_le_pos; [apply IZR_le; lia |].
    apply Rlt_le, Rinv_0_lt_compat, IZR_lt. lia.
Qed.

Lemma attackAt_nonneg i n : 0 <= attackAt (stepFraction i n).
Proof.
  pose proof attackOf_bounds. pose proof (stepFraction_nonneg i n).
  unfold attackAt. assert (0 <= attackOf * stepFraction i n) by (apply Rmult_le_pos; lra).
  lra.
Qed.

Lemma releaseAt_nonneg i n : 0 <= releaseAt (stepFraction i n).
Proof.
  pose proof attackOf_bounds. pose proof sustainOf_bounds.
  pose proof (stepFraction_nonneg i n). unfold releaseAt.
  assert (0 <= (duration - attackOf - sustainOf) * stepFraction i n)
    by (apply Rmult_le_pos; lra).
  lra.
Qed.

Lemma sampled_scheduled g steps (value time : R -> R) :
  (forall i, 0 <= time (stepFraction i steps)) ->
  scheduledAll
    (forUpTo (S steps) 0 (fun i =>
       linearRampToValueAtTime (GainOf g) (value (stepFraction i steps))
                               (time (stepFraction i steps))))
    (GainOf g) (sampled steps value time).
Proof.
  intros Ht. unfold sampled.
  apply (scheduledAll_forUpTo (S steps) 0 _ (GainOf g)
           (fun i => LinearRampToValueAtTime (value (stepFraction i steps))
                                             (time (stepFraction i steps)))).
  intros j _. apply linearRampToValueAtTime_scheduled, Ht.
Qed.

Lemma sustain_scheduled g :
  scheduledAll
    (when (Rltb 0 sustainOf)
       (setValueAtTime (GainOf g) peakGainOf (startTime + attackOf + sustainOf)))
    (GainOf g) sustainEvents.
Proof.
  apply scheduledAll_when, scheduledAll_one, setValueAtTime_scheduled.
  pose proof attackOf_bounds. pose proof sustainOf_bounds. lra.
Qed.

Lemma linear_scheduled g :
  scheduledAll
    (linearRampToValueAtTime (GainOf g) peakGainOf (startTime + attackOf) ;;;
     when (Rltb 0 sustainOf)
       (setValueAtTime (GainOf g) peakGainOf (startTime + attackOf + sustainOf)) ;;;
     linearRampToValueAtTime (GainOf g) 0 (startTime + duration))
    (GainOf g) linearEvents.
Proof.
  pose proof attackOf_bounds.
  apply scheduledAll_seq; [| apply scheduledAll_seq; [apply sustain_scheduled |]];
    apply scheduledAll_one, linearRampToValueAtTime_scheduled; lra.
Qed.

Lemma applyOptimizedEnvelope_scheduled g :
  scheduledAll (applyOptimizedEnvelope g startTime duration params) (GainOf g) envelopeEvents.
Proof.
  assert (Hbody : scheduledAll
    (setValueAtTime (GainOf g) 0 startTime ;;;
     match envelopeShape params with
     | 0%Z =>
         linearRampToValueAtTime (GainOf g) peakGainOf (startTime + attackOf) ;;;
         when (Rltb 0 sustainOf)
           (setValueAtTime (GainOf g) peakGainOf (startTime + attackOf + sustainOf)) ;;;
         linearRampToValueAtTime (GainOf g) 0 (startTime + duration)
     | 1%Z =>
         exponentialRampToValueAtTime (GainOf g) peakGainOf (startTime + attackOf) ;;;
         when (Rltb 0 sustainOf)
           (setValueAtTime (GainOf g) peakGainOf (startTime + attackOf + sustainOf)) ;;;
         exponentialRampToValueAtTime (GainOf g) 0.001 (startTime + duration)
     | 2%Z => applyLogarithmicEnvelope g startTime attackOf sustainOf duration peakGainOf
     | 3%Z => applySigmoidEnvelope g startTime attackOf sustainOf duration peakGainOf
     | 4%Z => applyCosineEnvelope g startTime attackOf sustainOf duration peakGainOf
     | 5%Z => applyGaussianEnvelope g startTime duration peakGainOf
     | 6%Z => applyHanningEnvelope g startTime duration peakGainOf
     | 7%Z => applyTriangularEnvelope g startTime attackOf sustainOf duration peakGainOf
     | _ =>
         linearRampToValueAtTime (GainOf g) peakGainOf (startTime + attackOf) ;;;
         when (Rltb 0 sustainOf)
           (setValueAtTime (GainOf g) peakGainOf (startTime + attackOf + sustainOf)) ;;;
         linearRampToValueAtTime (GainOf g) 0 (startTime + duration)
     end) (GainOf g) envelopeEvents).
  { apply (scheduledAll_seq _ _ _ [SetValueAtTime 0 startTime]);
      [apply scheduledAll_one, setValueAtTime_scheduled, startTime_nonneg |].
    pose proof attackOf_bounds as Ha. pose proof sustainOf_bounds as Hs.
    pose proof peakGainOf_nonzero as Hp.
    destruct (envelopeShape params) as [|p|p]; [apply linear_scheduled | | apply linear_scheduled].
    do 3 (try destruct p as [p|p|]); cbv beta iota; try apply linear_scheduled.
    - (* 5 *) unfold applyGaussianEnvelope. cbv zeta.
      apply (sampled_scheduled g ENVELOPE_STEPS.GAUSSIAN
               (fun t => peakGainOf *
                  exp (- ((t * duration - duration / 2) * (t * duration - duration / 2))
                       / (2 * (duration / 6) * (duration / 6))))
               (fun t => startTime + t * duration)).
      intros i. pose proof (stepFraction_nonneg i ENVELOPE_STEPS.GAUSSIAN).
      assert (0 <= stepFraction i ENVELOPE_STEPS.GAUSSIAN * duration)
        by (apply Rmult_le_pos; lra). lra.
    - (* 3 *) unfold applySigmoidEnvelope. cbv zeta.
      apply scheduledAll_seq; [| apply scheduledAll_seq; [apply sustain_scheduled |]].
      + apply (sampled_scheduled g ENVELOPE_STEPS.SIGMOID
                 (fun t => peakGainOf * (1 / (1 + exp (- ((t - 0.5) * 12))))) attackAt).
        intros i. apply attackAt_nonneg.
      + apply (sampled_scheduled g ENVELOPE_STEPS.SIGMOID
                 (fun t => peakGainOf * (1 / (1 + exp (- ((0.5 - t) * 12))))) releaseAt).
        intros i. apply releaseAt_nonneg.
    - (* 6 *) unfold applyHanningEnvelope. cbv zeta.
      apply (sampled_scheduled g ENVELOPE_STEPS.HANNING
               (fun t => peakGainOf * (0.5 * (1 - cos (2 * PI * t))))
               (fun t => startTime + duration * t)).
      intros i. pose proof (stepFraction_nonneg i ENVELOPE_STEPS.HANNING).
      assert (0 <= duration * stepFraction i ENVELOPE_STEPS.HANNING)
        by (apply Rmult_le_pos; lra). lra.
    - (* 4 *) unfold applyCosineEnvelope. cbv zeta.
      apply scheduledAll_seq; [| apply scheduledAll_seq; [apply sustain_scheduled |]].
      + apply (sampled_scheduled g ENVELOPE_STEPS.COSINE
                 (fun t => peakGainOf * sin (t * PI / 2)) attackAt).
        intros i. apply attackAt_nonneg.
      + apply (sampled_scheduled g ENVELOPE_STEPS.COSINE
                 (fun t => peakGainOf * Rabs (sin (PI / 2 + t * PI / 2))) releaseAt).
        intros i. apply releaseAt_nonneg.
    - (* 2 *) unfold applyLogarithmicEnvelope. cbv zeta.
      apply scheduledAll_seq; [| apply scheduledAll_seq; [apply sustain_scheduled |]].
      + apply (sampled_scheduled g ENVELOPE_STEPS.LOGARITHMIC
                 (fun t => peakGainOf * ln (1 + t * (exp 1 - 1)) / ln (exp 1)) attackAt).
        intros i. apply attackAt_nonneg.
      + apply (sampled_scheduled g ENVELOPE_STEPS.LOGARITHMIC
                 (fun t => peakGainOf * (1 - ln (1 + t * (exp 1 - 1)) / ln (exp 1)))
                 releaseAt).
        intros i. apply releaseAt_nonneg.
    - (* 1 *) apply scheduledAll_seq; [| apply scheduledAll_seq; [apply sustain_scheduled |]];
        apply scheduledAll_one, exponentialRampToValueAtTime_scheduled; lra. }
  intros w a Hw Ha. destruct (Hbody w a Hw Ha) as (w' & E & P & N & G).
  exists w'. split; [| auto]. unfold applyOptimizedEnvelope.
  apply tryCatch_returns. exact E.
Qed.
End ControlPoints.

(** ** First and last control point of an envelope *)

Section Endpoints.
Local Open Scope R_scope.

Lemma applyOptimizedEnvelope_timeline w g a startTime duration params :
  NoFaults w -> paramAt (GainOf g) w = Some a ->
  0 <= startTime -> 0 < duration -> 0 <= attackTime params -> 0 <= decayTime params ->
  paramAt (GainOf g) (snd (applyOptimizedEnvelope g startTime duration params w))
  = Some (mkParam (value a) (timeline a ++ envelopeEvents startTime duration params)).
Proof.
  intros Hw Ha Hs Hd Hat Hdt.
  destruct (applyOptimizedEnvelope_scheduled startTime duration params Hs Hd Hat Hdt g w a Hw Ha)
    as (w' & E & P & _). rewrite E. exact P.
Qed.


Lemma stepFraction_full n : (0 < n)%nat -> stepFraction n n = 1.
Proof.
  intros H. unfold stepFraction. apply Rinv_r.
  apply not_0_IZR. lia.
Qed.


Lemma last_cons_app {A} (x : A) l y : last (x :: l ++ [y]) = Some y.
Proof. rewrite app_comm_cons. apply last_snoc. Qed.


Lemma peakGainOf_nonneg params : 0 <= volume params -> 0 <= peakGainOf params.
Proof.
  intros H. unfold peakGainOf, BASE_GAIN, orDefault.
  destruct (Req_dec_T _ _); [lra |]. apply Rmult_le_pos; lra.
Qed.





End Endpoints.

(** ** Concrete worlds *)

Definition quiet : nat -> bool := fun _ => false.

(** A manager of the given capacity on a fresh audio context whose platform
    calls all succeed; every random draw is 0.5. *)
Definition studio (capacity : Z) : World :=
  snd (construct (newAudioContext 0 quiet) (fun _ => 0.5%R) capacity).

Ltac evaluate :=
  cbv -[IZR Rdiv Rplus Rmult Rminus Ropp Rinv Rlt_dec Rle_dec Req_dec_T Rmax Rmin
        exp ln sin cos PI Rabs Int_part up Q2R].

Lemma newManager_keeps_oracle c : keepsOn oracle (newManager c).
Proof. frame. Qed.

Lemma studio_NoFaults capacity : NoFaults (studio capacity).
Proof.
  unfold studio, construct. apply NoFaults_keeps; [apply newManager_keeps_oracle |].
  intros k. reflexivity.
Qed.

Lemma studio_1_constructed :
  construct (newAudioContext 0 quiet) (fun _ => 0.5%R) 1 = (Ret tt, studio 1).
Proof. evaluate. reflexivity. Qed.

Lemma studio_1_gain : paramAt (GainOf 1) (studio 1) = Some (mkParam 1 []).
Proof. evaluate. reflexivity. Qed.

Definition knobs (shape : Z) (attack decay vol : R) : Params :=
  mkParams 0%R 1%R 100%R attack decay shape 350%R 10 4%R 0 0.5%R 0%R 0%R 0.1%R vol.


Section EnvelopeClaims.
Local Open Scope R_scope.

Lemma linear_scenario_events params :
  envelopeShape params = 0%Z -> attackTime params = 100 -> decayTime params = 200 ->
  volume params = 2.5 ->
  map controlPoint (envelopeEvents 0 1 params) = [(0, 0); (0.1, 0.5); (0.8, 0.5); (1, 0)].
Proof.
  intros Hs Ha Hd Hv.
  assert (Eat : attackOf 1 params = 0.1).
  { unfold attackOf, Rmin. rewrite Ha. destruct (Rle_dec _ _); lra. }
  assert (Ere : releaseOf 1 params = 0.2).
  { unfold releaseOf, Rmin. rewrite Hd. destruct (Rle_dec _ _); lra. }
  assert (Esu : sustainOf 1 params = 0.7).
  { unfold sustainOf, Rmax. rewrite Eat, Ere. destruct (Rle_dec _ _); lra. }
  assert (Epk : peakGainOf params = 0.5).
  { unfold peakGainOf, BASE_GAIN, orDefault. rewrite Hv. destruct (Req_dec_T _ _); lra. }
  unfold envelopeEvents. rewrite Hs. cbv beta iota delta [shapeEvents linearEvents sustainEvents].
  rewrite Esu, Eat, Epk. rewrite Rltb_true by lra.
  cbv [map app controlPoint eventTime eventValue].
  repeat (f_equal; try lra).
Qed.

Lemma linear_scenario w g a params :
  NoFaults w -> paramAt (GainOf g) w = Some a -> timeline a = [] ->
  envelopeShape params = 0%Z -> attackTime params = 100 -> decayTime params = 200 ->
  volume params = 2.5 ->
  exists a',
    paramAt (GainOf g) (snd (applyOptimizedEnvelope g 0 1 params w)) = Some a' /\
    map controlPoint (timeline a') = [(0, 0); (0.1, 0.5); (0.8, 0.5); (1, 0)].
Proof.
  intros Hw Ha Hnil Hs Hat Hdt Hv. eexists. split.
  - apply applyOptimizedEnvelope_timeline; try eassumption; lra.
  - cbn [timeline]. rewrite Hnil. cbn [app]. apply linear_scenario_events; assumption.
Qed.

(** C5 (amended): for shape 0 (Linear), duration 1.0 s, attack 0.1 s, decay
    0.2 s and peak gain 0.5, the control points written on the gain node are
    exactly (0, 0), (0.1, 0.5), (0.8, 0.5) and (1.0, 0): the plateau point is
    at 0.8 s, the end of the sustain, where the release ramp starts. *)
Theorem C5_linear_envelope_points w g a params :
  NoFaults w -> paramAt (GainOf g) w = Some a -> timeline a = [] ->
  envelopeShape params = 0%Z -> attackTime params = 100 -> decayTime params = 200 ->
  volume params = 2.5 ->
  exists a',
    paramAt (GainOf g) (snd (applyOptimizedEnvelope g 0 1 params w)) = Some a' /\
    map controlPoint (timeline a') = [(0, 0); (0.1, 0.5); (0.8, 0.5); (1, 0)].
Proof. exact (linear_scenario w g a params). Qed.

Lemma C5_linear_envelope_points_witness :
  exists a',
    paramAt (GainOf 1) (snd (applyOptimizedEnvelope 1 0 1 (knobs 0 100 200 2.5) (studio 1)))
    = Some a' /\
    map controlPoint (timeline a') = [(0, 0); (0.1, 0.5); (0.8, 0.5); (1, 0)].
Proof.
  apply (C5_linear_envelope_points (studio 1) 1 (mkParam 1 []) (knobs 0 100 200 2.5)).
  - apply studio_NoFaults.
  - apply studio_1_gain.
  - reflexivity.
  - reflexivity.
  - reflexivity.
  - reflexivity.
  - reflexivity.
Defined.

(** C5 as stated fails: no control point is at (0.7, 0.5). *)
Lemma C5_sustain_point_counterexample :
  exists a',
    paramAt (GainOf 1) (snd (applyOptimizedEnvelope 1 0 1 (knobs 0 100 200 2.5) (studio 1)))
    = Some a' /\
    ~ In (0.7, 0.5) (map controlPoint (timeline a')).
Proof.
  destruct (linear_scenario (studio 1) 1 (mkParam 1 []) (knobs 0 100 200 2.5))
    as (a' & Ha & Hp);
    [apply studio_NoFaults | apply studio_1_gain | reflexivity ..|].
  exists a'. split; [exact Ha |]. rewrite Hp.
  intros [H|[H|[H|[H|[]]]]]; injection H; intros; lra.
Qed.










End EnvelopeClaims.

(** ** Lists as JavaScript sets and arrays *)

Lemma elem_of_List_filter {A} (p : A -> bool) (l : list A) x :
  x ∈ List.filter p l <-> x ∈ l /\ p x = true.
Proof. rewrite !list_elem_of_In. apply filter_In. Qed.

Lemma NoDup_List_filter {A} (p : A -> bool) (l : list A) :
  NoDup l -> NoDup (List.filter p l).
Proof. rewrite !NoDup_ListNoDup. apply List.NoDup_filter. Qed.

Lemma NoDup_map_List_filter {A B} (f : A -> B) (p : A -> bool) (l : list A) :
  NoDup (map f l) -> NoDup (map f (List.filter p l)).
Proof.
  induction l as [|x l IH]; cbn [map List.filter]; [trivial |].
  intros H. apply NoDup_cons in H as [Hx Hl].
  destruct (p x); cbn [map]; [| auto].
  apply NoDup_cons. split; [| auto].
  intros Hin. apply Hx. apply list_elem_of_fmap in Hin as (y & -> & Hy).
  apply elem_of_List_filter in Hy as [Hy _].
  apply list_elem_of_fmap. eauto.
Qed.

Lemma Set_delete_elem x g s : x ∈ Set_delete g s <-> x ∈ s /\ x <> g.
Proof.
  unfold Set_delete. rewrite elem_of_List_filter.
  rewrite Bool.negb_true_iff, Nat.eqb_neq. reflexivity.
Qed.

Lemma Set_delete_NoDup g s : NoDup s -> NoDup (Set_delete g s).
Proof. apply NoDup_List_filter. Qed.

Lemma Set_delete_length g s : length (Set_delete g s) <= length s.
Proof. apply filter_length_le. Qed.

Lemma Set_delete_shrinks g s : g ∈ s -> length (Set_delete g s) < length s.
Proof.
  intros Hin. unfold Set_delete.
  pose proof (filter_length (fun y => negb (y =? g)) s) as H. cbv beta in H.
  match type of H with _ + length ?l = _ => assert (Hg : g ∈ l) end.
  { apply elem_of_List_filter. split; [exact Hin |]. rewrite Nat.eqb_refl. reflexivity. }
  destruct (List.filter (fun x => negb (negb (x =? g))) s); [inversion Hg | cbn in H; lia].
Qed.

Lemma Set_add_elem x g s : x ∈ Set_add g s <-> x ∈ s \/ x = g.
Proof.
  unfold Set_add. case_bool_decide as Hg.
  - split; [auto | intros [H | ->]; assumption].
  - rewrite elem_of_app, list_elem_of_singleton. reflexivity.
Qed.

Lemma Set_add_NoDup g s : NoDup s -> NoDup (Set_add g s).
Proof.
  intros H. unfold Set_add. case_bool_decide as Hg; [exact H |].
  apply NoDup_app. split; [exact H |]. split; [| apply NoDup_singleton].
  intros x Hx Hx'. apply list_elem_of_singleton in Hx'. subst. contradiction.
Qed.

Lemma Set_add_length g s : length (Set_add g s) <= S (length s).
Proof.
  unfold Set_add. case_bool_decide; [lia |]. rewrite length_app. cbn. lia.
Qed.

Lemma Set_add_fresh g s : g ∉ s -> Set_add g s = s ++ [g].
Proof. intros H. unfold Set_add. rewrite bool_decide_eq_false_2 by exact H. reflexivity. Qed.

(** ** The registry: what the calls do to grains, active set and queue *)

Definition Registry : Type := list Grain * Z * list nat * list CleanupItem * Z.

Definition deactivate (gr : Grain) : Grain :=
  mkGrain (source gr) (nodes gr) (endTime gr) false.

Definition cleanupGrainR (g : nat) (x : Registry) : Registry :=
  let '(heap, capacity, active, queue, count) := x in
  if isActive (heap !!! g)
  then (<[g := deactivate (heap !!! g)]> heap, capacity, Set_delete g active, queue, count)
  else x.

Lemma modify_bind {B} f (k : unit -> JS B) w : (x <- modify f ;; k x) w = k tt (f w).
Proof. reflexivity. Qed.

Lemma cleanupGrain_tail_keeps_registry gr :
  keepsOn registry
    (tryCatch (stop (source gr) ;;; disconnectSource (source gr)) (fun _ => ret tt) ;;;
     returnNodesToPool (nodes gr)).
Proof. frame. Qed.

Lemma cleanupGrain_registry g w :
  exists w', cleanupGrain g w = (Ret tt, w') /\ registry w' = cleanupGrainR g (registry w).
Proof.
  unfold cleanupGrain, getGrain. rewrite (bind_returns _ _ w (grainHeap w !!! g) w) by reflexivity.
  unfold cleanupGrainR, registry at 2.
  destruct (isActive (grainHeap w !!! g)) eqn:Hact; cbn [negb].
  - rewrite tryCatch_unit. eexists. split; [reflexivity |].
    unfold putGrain, modifyManager. rewrite !modify_bind.
    rewrite (keepsOn_snd registry _ _ (cleanupGrain_tail_keeps_registry _)).
    reflexivity.
  - exists w. split; reflexivity.
Qed.


Lemma cleanupGrain_inactive g w :
  isActive (grainHeap w !!! g) = false -> cleanupGrain g w = (Ret tt, w).
Proof.
  intros H. unfold cleanupGrain, getGrain.
  rewrite (bind_returns _ _ w (grainHeap w !!! g) w) by reflexivity.
  rewrite H. reflexivity.
Qed.

Lemma forEach_cleanupGrain_registry gs w :
  exists w', forEach gs cleanupGrain w = (Ret tt, w') /\
             registry w' = foldl (fun x g => cleanupGrainR g x) (registry w) gs.
Proof.
  revert w. induction gs as [|g gs IH]; intros w; cbn [forEach foldl].
  - exists w. split; reflexivity.
  - destruct (cleanupGrain_registry g w) as (w1 & E1 & R1).
    destruct (IH w1) as (w2 & E2 & R2).
    exists w2. rewrite (bind_returns _ _ _ _ _ E1). rewrite R2, R1. split; [exact E2 | reflexivity].
Qed.

Definition due (now : R) (item : CleanupItem) : bool := Rleb (time item) now.
Definition pending (now : R) (item : CleanupItem) : bool := negb (due now item).

Lemma performCleanupLoop_returns now pre : forall post acc w,
  cleanupQueue (manager w) = pre ++ post ->
  performCleanupLoop (length pre) now acc w
  = (Ret (acc ++ reverse (map grain (List.filter (due now) pre))),
     setManager (setCleanupQueue (List.filter (pending now) pre ++ post) (manager w)) w).
Proof.
  induction pre as [|item pre IH] using rev_ind; intros post acc w Hq.
  - cbn. rewrite app_nil_r. cbn in Hq. rewrite <- Hq. destruct w as [a rs rd h m]. destruct m.
    reflexivity.
  - rewrite length_app, Nat.add_1_r. cbn [performCleanupLoop].
    rewrite (bind_returns _ _ w w w) by reflexivity.
    rewrite Hq, <- app_assoc. cbn [app]. rewrite list_lookup_middle by reflexivity.
    rewrite !List.filter_app, map_app, reverse_app. cbn [List.filter].
    unfold pending at 2. fold (due now item). destruct (due now item) eqn:Hd; cbn [negb].
    + unfold modifyManager. rewrite modify_bind.
      rewrite (IH post (acc ++ [grain item])).
      * cbn [map reverse app]. rewrite app_nil_r. rewrite <- app_assoc. reflexivity.
      * cbn. rewrite Hq, <- app_assoc. cbn [app]. apply delete_middle.
    + rewrite (IH (item :: post) acc w).
      * cbn [map reverse app]. rewrite <- !app_assoc. reflexivity.
      * rewrite Hq, <- app_assoc. reflexivity.
Qed.

Definition performCleanupR (now : R) (x : Registry) : Registry :=
  let '(heap, capacity, active, queue, count) := x in
  foldl (fun x g => cleanupGrainR g x)
        (heap, capacity, active, List.filter (pending now) queue, count)
        (reverse (map grain (List.filter (due now) queue))).

Lemma performCleanup_registry w :
  exists w', performCleanup w = (Ret tt, w') /\
             registry w' = performCleanupR (currentTime (audioContext w)) (registry w).
Proof.
  unfold performCleanup. rewrite tryCatch_unit. eexists. split; [reflexivity |].
  rewrite (bind_returns _ _ w w w) by reflexivity.
  erewrite bind_returns
    by (apply (performCleanupLoop_returns _ (cleanupQueue (manager w)) [] []);
        symmetry; apply app_nil_r).
  match goal with
  | |- context [forEach ?gs cleanupGrain ?w1] =>
      destruct (forEach_cleanupGrain_registry gs w1) as (w2 & E2 & R2)
  end.
  rewrite E2. cbn [snd]. rewrite R2. cbn. rewrite app_nil_r. reflexivity.
Qed.

Fixpoint pickOldest (heap : list Grain) (voices : list nat)
    (oldestGrain : option nat) (oldestTime : JSTime) : option nat :=
  match voices with
  | [] => oldestGrain
  | g :: rest =>
      if ltTime (endTime (heap !!! g)) oldestTime
      then pickOldest heap rest (Some g) (Finite (endTime (heap !!! g)))
      else pickOldest heap rest oldestGrain oldestTime
  end.

Lemma findOldest_returns voices : forall oldestGrain oldestTime w,
  findOldest voices oldestGrain oldestTime w
  = (Ret (pickOldest (grainHeap w) voices oldestGrain oldestTime), w).
Proof.
  induction voices as [|g rest IH]; intros og ot w; cbn [findOldest pickOldest].
  - reflexivity.
  - unfold getGrain. rewrite (bind_returns _ _ w (grainHeap w !!! g) w) by reflexivity.
    destruct (ltTime _ _); apply IH.
Qed.

Definition forceCleanupOldestR (x : Registry) : Registry :=
  let '(heap, capacity, active, queue, count) := x in
  match pickOldest heap active None Infinity with
  | Some g => cleanupGrainR g x
  | None => x
  end.

Lemma forceCleanupOldest_registry w :
  exists w', forceCleanupOldest w = (Ret tt, w') /\
             registry w' = forceCleanupOldestR (registry w).
Proof.
  unfold forceCleanupOldest. rewrite tryCatch_unit. eexists. split; [reflexivity |].
  rewrite (bind_returns _ _ w w w) by reflexivity.
  rewrite (bind_returns _ _ _ _ _ (findOldest_returns _ _ _ w)).
  unfold forceCleanupOldestR, registry at 2.
  destruct (pickOldest _ _ _ _) as [g|]; [| reflexivity].
  destruct (cleanupGrain_registry g w) as (w' & E & HR). rewrite E. exact HR.
Qed.

(** [g] ends no later than every grain of [voices]. *)
Definition earliest (heap : list Grain) (voices : list nat) (g : nat) : Prop :=
  g ∈ voices /\
  forall g', g' ∈ voices -> (endTime (heap !!! g) <= endTime (heap !!! g'))%R.

Lemma pickOldest_scan heap voices : forall seen oldestGrain oldestTime,
  (oldestGrain = None /\ oldestTime = Infinity /\ seen = []) \/
  (exists g0, oldestGrain = Some g0 /\ oldestTime = Finite (endTime (heap !!! g0)) /\
              earliest heap seen g0) ->
  match pickOldest heap voices oldestGrain oldestTime with
  | None => seen ++ voices = []
  | Some g => earliest heap (seen ++ voices) g
  end.
Proof.
  induction voices as [|g rest IH]; intros seen og ot Hst; cbn [pickOldest].
  - rewrite app_nil_r. destruct Hst as [(-> & _ & ->) | (g0 & -> & _ & H)]; [reflexivity | exact H].
  - replace (seen ++ g :: rest) with ((seen ++ [g]) ++ rest) by (rewrite <- app_assoc; reflexivity).
    destruct Hst as [(-> & -> & ->) | (g0 & -> & -> & [Hin Hmin])]; cbn [ltTime].
    + apply IH. right. exists g. repeat split; [apply elem_of_app; right; constructor |].
      intros g' Hg'. cbn in Hg'. apply list_elem_of_singleton in Hg'. subst. lra.
    + destruct (Rlt_dec _ _) as [Hlt|Hge]; apply IH; right.
      * exists g. repeat split; [apply elem_of_app; right; constructor |].
        intros g' Hg'. apply elem_of_app in Hg'. destruct Hg' as [Hg'|Hg'].
        -- specialize (Hmin g' Hg'). lra.
        -- apply list_elem_of_singleton in Hg'. subst. lra.
      * exists g0. repeat split; [apply elem_of_app; left; exact Hin |].
        intros g' Hg'. apply elem_of_app in Hg'. destruct Hg' as [Hg'|Hg'].
        -- apply Hmin, Hg'.
        -- apply list_elem_of_singleton in Hg'. subst. lra.
Qed.

Lemma pickOldest_earliest heap voices :
  voices <> [] ->
  exists g, pickOldest heap voices None Infinity = Some g /\ earliest heap voices g.
Proof.
  intros Hne. pose proof (pickOldest_scan heap voices [] None Infinity) as H.
  cbn [app] in H. destruct (pickOldest _ _ _ _) as [g|].
  - exists g. split; [reflexivity |]. apply H. left. auto.
  - exfalso. apply Hne, H. left. auto.
Qed.

(** Skipping a statement that keeps an invariant. *)
Lemma wp_keeps {A B} (I : World -> Prop) (m : JS A) (k : A -> JS B) Q E w :
  preserves I m -> I w ->
  (forall a w1, I w1 -> wp (k a) Q E w1) ->
  (forall w1, I w1 -> E w1) ->
  wp (x <- m ;; k x) Q E w.
Proof.
  intros Hm Hw Hk HE. apply wp_bind. eapply wp_mono; [apply Hm, Hw | exact Hk | exact HE].
Qed.

Ltac frame_goal := repeat first [preserves_step | unfold_head]; try frame_leaf.

(** What [createOptimizedGrain] does to the registry: it may add one grain
    to the store, and a handle it returns is that grain. *)
Definition created (x : Registry) (endTime : R) (o : option nat) (x' : Registry) : Prop :=
  let '(heap, capacity, active, queue, count) := x in
  exists tail, x' = (heap ++ tail, capacity, active, queue, count) /\
    match o with
    | Some g => g = length heap /\ exists src nodes, tail = [mkGrain src nodes endTime true]
    | None => tail = [] \/ exists src nodes, tail = [mkGrain src nodes endTime true]
    end.

Lemma created_none x endTime : created x endTime None x.
Proof.
  destruct x as [[[[heap mv] active] queue] lc]. cbn. exists []. rewrite app_nil_r. auto.
Qed.

Lemma createOptimizedGrain_wp buffer params startTime duration position w :
  wp (createOptimizedGrain buffer params startTime duration position)
     (fun o w' => created (registry w) (startTime + duration) o (registry w'))
     (fun _ => False) w.
Proof.
  set (x := registry w).
  assert (HE : forall w1 : World, registry w1 = x ->
            forall e : JSError,
              wp (ret None) (fun o w' => created x (startTime + duration) o (registry w'))
                 (fun _ => False) w1).
  { intros w1 H1 e. apply wp_ret. rewrite H1. apply created_none. }
  unfold createOptimizedGrain. apply wp_tryCatch.
  assert (Hw : registry w = x) by reflexivity. clearbody x. revert Hw. generalize w. clear w.
  intros w Hw.
  repeat (cbv zeta;
          apply (wp_keeps (fun w1 => registry w1 = x));
          [solve [frame_goal] | exact Hw | | exact HE];
          clear w Hw; intros ? w Hw).
  (* the grain object *)
  apply wp_bind. unfold wp at 1.
  match goal with |- context [newGrain ?g w] => set (gr := g) end.
  change (newGrain gr w)
    with (Ret (length (grainHeap w)), setGrainHeap (grainHeap w ++ [gr]) w).
  cbv beta iota.
  assert (Hc : forall o w1, registry w1 = registry (setGrainHeap (grainHeap w ++ [gr]) w) ->
            (o = None \/ o = Some (length (grainHeap w))) ->
            created x (startTime + duration) o (registry w1)).
  { intros o w1 -> Ho. rewrite <- Hw. unfold registry at 1. cbn.
    exists [gr]. split; [reflexivity |].
    destruct Ho as [-> | ->]; [right | split; [reflexivity |]]; eexists _, _; reflexivity. }
  apply (wp_keeps (fun w1 => registry w1 = registry (setGrainHeap (grainHeap w ++ [gr]) w)));
    [solve [frame_goal] | reflexivity | |].
  - intros _ w1 H1. apply wp_ret, Hc; auto.
  - intros w1 H1 e. apply wp_ret, Hc; auto.
Qed.

Lemma createOptimizedGrain_registry buffer params startTime duration position w :
  exists o w',
    createOptimizedGrain buffer params startTime duration position w = (Ret o, w') /\
    created (registry w) (startTime + duration) o (registry w').
Proof.
  pose proof (createOptimizedGrain_wp buffer params startTime duration position w) as H.
  unfold wp in H. destruct (createOptimizedGrain _ _ _ _ _ w) as [[o|e] w']; [eauto | contradiction].
Qed.

(** The registry before the new grain is built: the call is counted, every
    60th call drains the queue, and a full set loses its earliest-ending
    grain. *)
Definition counted (x : Registry) : Registry :=
  let '(heap, capacity, active, queue, count) := x in
  (heap, capacity, active, queue, (count + 1)%Z).

Definition drained (now : R) (x : Registry) : Registry :=
  let '(_, _, _, _, count) := x in
  if (Z.rem count CLEANUP_INTERVAL =? 0)%Z then performCleanupR now x else x.

Definition evicted (x : Registry) : Registry :=
  let '(_, capacity, active, _, _) := x in
  if (Z.of_nat (length active) >=? capacity)%Z then forceCleanupOldestR x else x.

Definition prepareR (now : R) (x : Registry) : Registry :=
  evicted (drained now (counted x)).

Definition admitR (o : option nat) (cleanupTime : R) (x : Registry) : Registry :=
  let '(heap, capacity, active, queue, count) := x in
  match o with
  | Some g => (heap, capacity, Set_add g active, queue ++ [mkItem g cleanupTime], count)
  | None => x
  end.

Lemma createGrain_steps buffer params startTime duration position w :
  exists o w' x w2 w3,
    createGrain buffer params startTime duration position w = (Ret o, w') /\
    created (prepareR (currentTime (audioContext w)) (registry w)) (startTime + duration) o x /\
    registry w' = admitR o (startTime + duration + CLEANUP_DELAY)%R x /\
    oracle w2 = oracle w /\ oracle w' = oracle w3 /\
    createOptimizedGrain buffer params startTime duration position w2 = (Ret o, w3).
Proof.
  unfold createGrain, modifyManager. 
  set (w0 := setManager (setLastCleanup (lastCleanup (manager w) + 1) (manager w)) w).
  assert (H0 : registry w0 = counted (registry w)) by reflexivity.
  assert (T0 : currentTime (audioContext w0) = currentTime (audioContext w)) by reflexivity.
  (* the periodic drain *)
  assert (H1 : exists w1,
             when (Z.rem (lastCleanup (manager w0)) CLEANUP_INTERVAL =? 0)%Z performCleanup w0
             = (Ret tt, w1) /\
             registry w1 = drained (currentTime (audioContext w)) (counted (registry w))).
  { rewrite <- H0, <- T0. unfold drained, registry at 2.
    destruct (Z.rem _ _ =? 0)%Z; cbn [when].
    - apply performCleanup_registry.
    - exists w0. split; reflexivity. }
  destruct H1 as (w1 & E1 & R1).
  (* the forced eviction *)
  assert (H2 : exists w2,
             when (Z.of_nat (length (activeVoices (manager w1))) >=? maxVoices (manager w1))%Z
                  forceCleanupOldest w1 = (Ret tt, w2) /\
             registry w2 = prepareR (currentTime (audioContext w)) (registry w)).
  { unfold prepareR. rewrite <- R1. unfold evicted, registry at 2.
    destruct (_ >=? _)%Z; cbn [when].
    - apply forceCleanupOldest_registry.
    - exists w1. split; reflexivity. }
  destruct H2 as (w2 & E2 & R2).
  destruct (createOptimizedGrain_registry buffer params startTime duration position w2)
    as (o & w3 & E3 & C3).
  rewrite R2 in C3.
  assert (Hrun : forall k : option nat -> JS (option nat),
            tryCatch
              (x <- modify (fun w => setManager
                              (setLastCleanup (lastCleanup (manager w) + 1) (manager w)) w) ;;
               w' <- get ;;
               _ <- when (Z.rem (lastCleanup (manager w')) CLEANUP_INTERVAL =? 0)%Z
                         performCleanup ;;
               w'' <- get ;;
               _ <- when (Z.of_nat (length (activeVoices (manager w''))) >=?
                          maxVoices (manager w''))%Z forceCleanupOldest ;;
               grain <- createOptimizedGrain buffer params startTime duration position ;;
               k grain)
              (fun _ => ret None) w
            = tryCatch (k o) (fun _ => ret None) w3).
  { intros k. unfold tryCatch. rewrite modify_bind. fold w0.
    rewrite (bind_returns _ _ w0 w0 w0) by reflexivity.
    rewrite (bind_returns _ _ _ _ _ E1).
    rewrite (bind_returns _ _ w1 w1 w1) by reflexivity.
    rewrite (bind_returns _ _ _ _ _ E2).
    rewrite (bind_returns _ _ _ _ _ E3). reflexivity. }
  rewrite Hrun. clear Hrun.
  assert (O2 : oracle w2 = oracle w).
  { assert (Hk : forall b m, keepsOn oracle m -> keepsOn oracle (when b m))
      by (intros b m Hm x; apply preserves_when, Hm).
    assert (K1 : keepsOn oracle performCleanup) by frame.
    assert (K2 : keepsOn oracle forceCleanupOldest) by frame.
    rewrite (keepsOn_eq oracle _ _ _ _ (Hk _ _ K2) E2).
    rewrite (keepsOn_eq oracle _ _ _ _ (Hk _ _ K1) E1). reflexivity. }
  destruct o as [g|].
  - exists (Some g). eexists. exists (registry w3), w2, w3.
    split; [reflexivity | split; [exact C3 | split; [reflexivity |]]].
    split; [exact O2 | split; [reflexivity | exact E3]].
  - exists None. eexists. exists (registry w3), w2, w3.
    split; [reflexivity | split; [exact C3 | split; [reflexivity |]]].
    split; [exact O2 | split; [reflexivity | exact E3]].
Qed.

Lemma createGrain_registry buffer params startTime duration position w :
  exists o w' x,
    createGrain buffer params startTime duration position w = (Ret o, w') /\
    created (prepareR (currentTime (audioContext w)) (registry w)) (startTime + duration) o x /\
    registry w' = admitR o (startTime + duration + CLEANUP_DELAY)%R x.
Proof.
  destruct (createGrain_steps buffer params startTime duration position w)
    as (o & w' & x & _ & _ & H1 & H2 & H3 & _).
  exists o, w', x. auto.
Qed.

(** ** Invariants of the registry *)

(** The active set has no duplicate and holds live grains of the store; the
    queue has at most one entry for a grain, and only for grains of the
    store. *)
Definition RegistryOK (x : Registry) : Prop :=
  let '(heap, capacity, active, queue, count) := x in
  NoDup active /\
  (forall g, g ∈ active -> g < length heap /\ isActive (heap !!! g) = true) /\
  NoDup (map grain queue) /\
  (forall item, item ∈ queue -> grain item < length heap).

Definition voiceCount (x : Registry) : nat :=
  let '(_, _, active, _, _) := x in length active.

Definition capacityOf (x : Registry) : Z :=
  let '(_, capacity, _, _, _) := x in capacity.

Definition queueOf (x : Registry) : list CleanupItem :=
  let '(_, _, _, queue, _) := x in queue.

Lemma cleanupGrainR_ok g x : RegistryOK x -> RegistryOK (cleanupGrainR g x).
Proof.
  destruct x as [[[[heap mv] active] queue] lc]. cbn.
  intros (Hnd & Hact & Hq & Hv). destruct (isActive (heap !!! g)); [| cbn; auto].
  split; [| split; [| split]].
  - apply Set_delete_NoDup, Hnd.
  - intros g' H. apply Set_delete_elem in H as [H Hne]. rewrite length_insert.
    rewrite list_lookup_total_insert_ne by congruence. apply Hact, H.
  - exact Hq.
  - intros item Hi. rewrite length_insert. apply Hv, Hi.
Qed.

Lemma cleanupGrainR_capacity g x : capacityOf (cleanupGrainR g x) = capacityOf x.
Proof.
  destruct x as [[[[heap mv] active] queue] lc]. cbn.
  destruct (isActive _); reflexivity.
Qed.

Lemma cleanupGrainR_count g x : voiceCount (cleanupGrainR g x) <= voiceCount x.
Proof.
  destruct x as [[[[heap mv] active] queue] lc]. cbn.
  destruct (isActive _); cbn; [apply Set_delete_length | lia].
Qed.

Lemma cleanupGrainR_queue g x : queueOf (cleanupGrainR g x) = queueOf x.
Proof.
  destruct x as [[[[heap mv] active] queue] lc]. cbn.
  destruct (isActive _); reflexivity.
Qed.

Section Folded.
Context (J : Registry -> Prop).
Hypothesis J_cleanup : forall g x, J x -> J (cleanupGrainR g x).

Lemma foldl_cleanupGrainR gs : forall x,
  J x -> J (foldl (fun x g => cleanupGrainR g x) x gs).
Proof. induction gs as [|g gs IH]; intros x Hx; cbn; [exact Hx | apply IH, J_cleanup, Hx]. Qed.

Lemma forceCleanupOldestR_keeps x : J x -> J (forceCleanupOldestR x).
Proof.
  destruct x as [[[[heap mv] active] queue] lc]. cbn -[cleanupGrainR]. intros Hx.
  destruct (pickOldest _ _ _ _); [apply J_cleanup, Hx | exact Hx].
Qed.
End Folded.

Lemma filtered_queue_ok (p : CleanupItem -> bool) heap mv active queue lc :
  RegistryOK (heap, mv, active, queue, lc) ->
  RegistryOK (heap, mv, active, List.filter p queue, lc).
Proof.
  cbn. intros (Hnd & Hact & Hq & Hv). split; [| split; [| split]]; try assumption.
  - apply NoDup_map_List_filter, Hq.
  - intros item Hi. apply elem_of_List_filter in Hi as [Hi _]. apply Hv, Hi.
Qed.

Lemma performCleanupR_ok now x : RegistryOK x -> RegistryOK (performCleanupR now x).
Proof.
  destruct x as [[[[heap mv] active] queue] lc]. intros Hx. unfold performCleanupR.
  apply foldl_cleanupGrainR; [apply cleanupGrainR_ok |].
  apply filtered_queue_ok, Hx.
Qed.

Lemma prepareR_ok now x : RegistryOK x -> RegistryOK (prepareR now x).
Proof.
  intros Hx. unfold prepareR.
  assert (H1 : RegistryOK (counted x)).
  { destruct x as [[[[heap mv] active] queue] lc]. exact Hx. }
  assert (H2 : RegistryOK (drained now (counted x))).
  { unfold drained. destruct (counted x) as [[[[heap mv] active] queue] lc].
    destruct (_ =? _)%Z; [apply performCleanupR_ok, H1 | exact H1]. }
  unfold evicted. destruct (drained now (counted x)) as [[[[heap mv] active] queue] lc] eqn:E.
  destruct (_ >=? _)%Z; [| exact H2].
  apply forceCleanupOldestR_keeps; [apply cleanupGrainR_ok | exact H2].
Qed.

Lemma created_admitted_ok x0 endT o x t :
  RegistryOK x0 -> created x0 endT o x -> RegistryOK (admitR o t x).
Proof.
  destruct x0 as [[[[heap mv] active] queue] lc]. cbn.
  intros (Hnd & Hact & Hq & Hv) (tail & -> & Ho).
  assert (Hgrow : forall n, n < length heap -> n < length (heap ++ tail))
    by (intros n Hn; rewrite length_app; lia).
  assert (Hsame : forall g, g ∈ active -> isActive ((heap ++ tail) !!! g) = true).
  { intros g Hg. destruct (Hact g Hg) as [Hlt Hon].
    rewrite lookup_total_app_l by exact Hlt. exact Hon. }
  destruct o as [g|]; cbn.
  - destruct Ho as (-> & src & nodes & ->).
    assert (Hfresh : length heap ∉ active).
    { intros Hin. apply Hact in Hin as [Hlt _]. lia. }
    split; [| split; [| split]].
    + apply Set_add_NoDup, Hnd.
    + intros g H. apply Set_add_elem in H as [H | ->].
      * split; [apply Hgrow, Hact, H | apply Hsame, H].
      * split; [rewrite length_app; cbn; lia |].
        rewrite lookup_total_app_r by lia. rewrite Nat.sub_diag. reflexivity.
    + rewrite map_app. cbn [map grain]. apply NoDup_app. split; [exact Hq |].
      split; [| apply NoDup_singleton].
      intros n Hn Hn'. apply list_elem_of_singleton in Hn'. subst n.
      apply list_elem_of_fmap in Hn as (item & Hitem & Hin). apply Hv in Hin. lia.
    + intros item Hi. apply elem_of_app in Hi as [Hi | Hi].
      * apply Hgrow, Hv, Hi.
      * apply list_elem_of_singleton in Hi. subst item. cbn. rewrite length_app. cbn. lia.
  - split; [| split; [| split]]; try assumption.
    + intros g H. split; [apply Hgrow, Hact, H | apply Hsame, H].
    + intros item Hi. apply Hgrow, Hv, Hi.
Qed.

(** ** From the registry to the calls *)

Section Calls.
Context (J : Registry -> Prop).
Hypothesis J_cleanup : forall g x, J x -> J (cleanupGrainR g x).
Hypothesis J_create : forall now x endT o x' t,
  J x -> created (prepareR now x) endT o x' -> J (admitR o t x').
Hypothesis J_clear : forall heap capacity active queue count,
  J (heap, capacity, active, queue, count) -> J (heap, capacity, active, [], count).

Lemma cleanupGrain_preserves g : preserves (fun w => J (registry w)) (cleanupGrain g).
Proof.
  intros w Hw. unfold wp. destruct (cleanupGrain_registry g w) as (w' & -> & ->).
  apply J_cleanup, Hw.
Qed.

Lemma createGrain_preserves buffer params startTime duration position :
  preserves (fun w => J (registry w))
            (createGrain buffer params startTime duration position).
Proof.
  intros w Hw. unfold wp.
  destruct (createGrain_registry buffer params startTime duration position w)
    as (o & w' & x & -> & Hc & ->).
  eapply J_create; eassumption.
Qed.

Lemma keeps_registry_preserves {A} (m : JS A) :
  keepsOn registry m -> preserves (fun w => J (registry w)) m.
Proof. apply (keepsOn_preserves registry m J). Qed.

Lemma run_preserves c : preserves (fun w => J (registry w)) (run c).
Proof.
  destruct c as [buffer params startTime duration position
                | buffer params lfoStartTime | | volume | src | dt]; cbn [run].
  - apply preserves_bind; [apply createGrain_preserves | intros _; apply preserves_ret].
  - unfold _triggerGrainForSlot. destruct buffer as [buffer|]; [| apply preserves_ret].
    apply preserves_forUpTo. intros _.
    apply preserves_bind; [apply keeps_registry_preserves; frame | intros request].
    apply preserves_bind; [apply createGrain_preserves | intros _; apply preserves_ret].
  - unfold stopAll. apply preserves_tryCatch; [| intros _; apply preserves_ret].
    apply preserves_bind; [apply preserves_get | intros w0].
    apply preserves_bind; [apply preserves_forEach; intros g; apply cleanupGrain_preserves |].
    intros _. apply preserves_modify. intros w Hw.
    unfold registry in *. cbn. eapply J_clear, Hw.
  - apply keeps_registry_preserves. frame.
  - unfold fireOnended. apply preserves_bind; [apply preserves_deref | intros n].
    destruct (onended n); [apply cleanupGrain_preserves | apply preserves_ret].
  - apply keeps_registry_preserves. frame.
Qed.
End Calls.

(** The registry of a new manager. *)
Lemma construct_registry ctx random capacity o w :
  construct ctx random capacity = (o, w) -> registry w = ([], capacity, [], [], 0%Z).
Proof.
  unfold construct, newManager. intros H.
  match type of H with
  | tryCatch (_ <- modifyManager ?f ;; ?rest) ?h ?w0 = _ =>
      assert (Hk : keepsOn registry (tryCatch rest h)) by frame;
      change (tryCatch rest h (setManager (f (manager w0)) w0) = (o, w)) in H;
      apply (keepsOn_eq registry _ _ _ _ Hk) in H
  end.
  exact H.
Qed.

Lemma RegistryOK_new capacity : RegistryOK ([], capacity, [], [], 0%Z).
Proof.
  cbn. split; [constructor | split; [| split; [constructor |]]].
  - intros g H. inversion H.
  - intros item H. inversion H.
Qed.

Lemma RegistryOK_clear heap capacity active queue count :
  RegistryOK (heap, capacity, active, queue, count) ->
  RegistryOK (heap, capacity, active, [], count).
Proof.
  cbn. intros (Hnd & Hact & _ & _). split; [exact Hnd | split; [exact Hact | split]].
  - constructor.
  - intros item H. inversion H.
Qed.

Lemma reachable_RegistryOK capacity w : reachable capacity w -> RegistryOK (registry w).
Proof.
  induction 1 as [t0 orc random w Hc | w c _ IH].
  - rewrite (construct_registry _ _ _ _ _ Hc). apply RegistryOK_new.
  - apply (preserves_snd (fun w => RegistryOK (registry w))); [| exact IH].
    apply run_preserves.
    + apply cleanupGrainR_ok.
    + intros now x endT o x' t Hx Hc. eapply created_admitted_ok; [| exact Hc].
      apply prepareR_ok, Hx.
    + apply RegistryOK_clear.
Qed.

(** ** The capacity bound *)

Definition Bounded (x : Registry) : Prop :=
  RegistryOK x /\ (1 <= capacityOf x)%Z /\ (Z.of_nat (voiceCount x) <= capacityOf x)%Z.

(** Forced eviction removes a grain of the set that ends no later than any
    other, and nothing else. *)
Lemma forceCleanupOldestR_evicts heap capacity active queue count :
  RegistryOK (heap, capacity, active, queue, count) -> active <> [] ->
  exists g,
    earliest heap active g /\
    forceCleanupOldestR (heap, capacity, active, queue, count)
    = (<[g := deactivate (heap !!! g)]> heap, capacity, Set_delete g active, queue, count).
Proof.
  intros (_ & Hact & _) Hne.
  destruct (pickOldest_earliest heap active Hne) as (g & Hp & He).
  exists g. split; [exact He |]. cbn. rewrite Hp.
  destruct He as [Hin _]. destruct (Hact g Hin) as [_ ->]. reflexivity.
Qed.

Lemma evicted_room x :
  Bounded x ->
  RegistryOK (evicted x) /\ capacityOf (evicted x) = capacityOf x /\
  (Z.of_nat (voiceCount (evicted x)) < capacityOf x)%Z.
Proof.
  destruct x as [[[[heap mv] active] queue] lc]. intros (Hok & Hcap & Hcount).
  cbn in Hcap, Hcount. unfold evicted.
  destruct (Z.of_nat (length active) >=? mv)%Z eqn:Hfull; rewrite Z.geb_leb in Hfull;
    [apply Z.leb_le in Hfull | apply Z.leb_gt in Hfull].
  - assert (Hne : active <> []) by (intros ->; cbn in Hfull; lia).
    destruct (forceCleanupOldestR_evicts heap mv active queue lc Hok Hne) as (g & [Hin _] & ->).
    split; [| split; [reflexivity |]].
    + pose proof (cleanupGrainR_ok g _ Hok) as H. cbn in H.
      destruct Hok as (_ & Hact & _). destruct (Hact g Hin) as [_ Hon].
      rewrite Hon in H. exact H.
    + cbn. pose proof (Set_delete_shrinks g active Hin). lia.
  - split; [exact Hok | split; [reflexivity |]]. cbn. lia.
Qed.

Lemma drained_bounded now x : Bounded x -> Bounded (drained now x) /\
  capacityOf (drained now x) = capacityOf x.
Proof.
  destruct x as [[[[heap mv] active] queue] lc]. intros (Hok & Hcap & Hcount).
  unfold drained. cbn [counted].
  destruct (_ =? _)%Z; [| split; [split; [exact Hok | split; assumption] | reflexivity]].
  assert (H : (fun y => RegistryOK y /\ capacityOf y = mv /\ voiceCount y <= length active)
              (performCleanupR now (heap, mv, active, queue, lc))).
  { unfold performCleanupR. apply foldl_cleanupGrainR.
    - intros g y (H1 & H2 & H3). split; [apply cleanupGrainR_ok, H1 |].
      rewrite cleanupGrainR_capacity. split; [exact H2 |].
      pose proof (cleanupGrainR_count g y). lia.
    - split; [apply filtered_queue_ok, Hok | split; [reflexivity | cbn; lia]]. }
  destruct H as (H1 & H2 & H3). cbn in Hcap, Hcount.
  split; [split; [exact H1 | rewrite H2; split; [exact Hcap | lia]] | exact H2].
Qed.

Lemma prepareR_room now x :
  Bounded x ->
  RegistryOK (prepareR now x) /\ capacityOf (prepareR now x) = capacityOf x /\
  (Z.of_nat (voiceCount (prepareR now x)) < capacityOf x)%Z.
Proof.
  intros Hx. unfold prepareR.
  assert (H1 : Bounded (counted x) /\ capacityOf (counted x) = capacityOf x).
  { destruct x as [[[[heap mv] active] queue] lc]. split; [exact Hx | reflexivity]. }
  destruct H1 as [H1 C1].
  destruct (drained_bounded now _ H1) as [H2 C2].
  destruct (evicted_room _ H2) as (H3 & C3 & H4).
  split; [exact H3 |]. rewrite C3, C2, C1. split; [reflexivity |].
  rewrite <- C1, <- C2. exact H4.
Qed.

Lemma created_admitted_bounded now x endT o x' t :
  Bounded x -> created (prepareR now x) endT o x' -> Bounded (admitR o t x').
Proof.
  intros Hx Hc. destruct (prepareR_room now x Hx) as (Hok & Hcap & Hroom).
  destruct Hx as (_ & Hone & _).
  split; [eapply created_admitted_ok; eassumption |].
  destruct (prepareR now x) as [[[[heap mv] active] queue] lc].
  cbn in Hc, Hcap, Hroom. destruct Hc as (tail & -> & Ho). subst mv.
  destruct o as [g|]; cbn.
  - split; [exact Hone |]. pose proof (Set_add_length g active). lia.
  - split; [exact Hone | lia].
Qed.

Lemma Bounded_cleanup g x : Bounded x -> Bounded (cleanupGrainR g x).
Proof.
  intros (Hok & Hcap & Hcount). split; [apply cleanupGrainR_ok, Hok |].
  rewrite cleanupGrainR_capacity. split; [exact Hcap |].
  pose proof (cleanupGrainR_count g x). lia.
Qed.

Lemma reachable_Bounded capacity w :
  (1 <= capacity)%Z -> reachable capacity w -> Bounded (registry w).
Proof.
  intros Hcap. induction 1 as [t0 orc random w Hc | w c _ IH].
  - rewrite (construct_registry _ _ _ _ _ Hc).
    split; [apply RegistryOK_new | split; [exact Hcap | cbn; lia]].
  - apply (preserves_snd (fun w => Bounded (registry w))); [| exact IH].
    apply run_preserves.
    + apply Bounded_cleanup.
    + apply created_admitted_bounded.
    + intros heap mv active queue lc (Hok & H1 & H2).
      split; [eapply RegistryOK_clear, Hok | split; assumption].
Qed.

Lemma reachable_capacity capacity w :
  reachable capacity w -> maxVoices (manager w) = capacity.
Proof.
  induction 1 as [t0 orc random w Hc | w c _ IH].
  - apply construct_registry in Hc. unfold registry in Hc. congruence.
  - rewrite (keepsOn_snd (fun w => maxVoices (manager w)) (run c) w (run_keeps_capacity c)).
    exact IH.
Qed.

(** ** Calls that return: a platform without faults *)

(** [total I m]: from a state of [I], [m] returns, in a state of [I]. *)
Definition total {A} (I : World -> Prop) (m : JS A) : Prop :=
  forall w, I w -> wp m (fun _ => I) (fun _ => False) w.

Section Total.
Context (I : World -> Prop).

Lemma total_ret {A} (a : A) : total I (ret a).
Proof. intros w H. exact H. Qed.

Lemma total_get : total I get.
Proof. intros w H. exact H. Qed.

Lemma total_deref {A} `{Inhabited A} (heap : World -> list A) r : total I (deref heap r).
Proof. intros w Hw. exact Hw. Qed.

Lemma total_bind {A B} (m : JS A) (k : A -> JS B) :
  total I m -> (forall a, total I (k a)) -> total I (x <- m ;; k x).
Proof.
  intros Hm Hk w H. apply wp_bind. eapply wp_mono; [apply Hm, H | | trivial].
  intros a w' H'. apply Hk, H'.
Qed.

Lemma total_when b m : total I m -> total I (when b m).
Proof. destruct b; [trivial | intros _; apply total_ret]. Qed.

Lemma total_tryCatch {A} (m : JS A) h : total I m -> total I (tryCatch m h).
Proof.
  intros Hm w H. apply wp_tryCatch. eapply wp_mono; [apply Hm, H | trivial | contradiction].
Qed.

Lemma total_caught {A} (m : JS A) (a : A) :
  preserves I m -> total I (tryCatch m (fun _ => ret a)).
Proof.
  intros Hm w H. apply wp_tryCatch. eapply wp_mono; [apply Hm, H | trivial |].
  intros w' H' e. exact H'.
Qed.

Lemma total_modify f : (forall w, I w -> I (f w)) -> total I (modify f).
Proof. intros Hf w H. apply Hf, H. Qed.

Lemma total_forUpTo n i body : (forall j, total I (body j)) -> total I (forUpTo n i body).
Proof.
  intros Hb. revert i. induction n as [|n IH]; intros i; simpl.
  - apply total_ret.
  - apply total_bind; [apply Hb | intros _; apply IH].
Qed.

Hypothesis I_quiet : forall w, I w -> NoFaults w.
Hypothesis I_tick : forall w, I w -> I (tick w).

Lemma total_native : total I native.
Proof.
  intros w H. unfold wp. rewrite (native_returns w (I_quiet w H)). apply I_tick, H.
Qed.
End Total.

(** No faults, and the source [src] not started yet. *)
Definition Ready (src : nat) (w : World) : Prop :=
  NoFaults w /\ playback (sourceHeap (audioContext w) !!! src) = None.

Lemma Ready_quiet src w : Ready src w -> NoFaults w.
Proof. intros [H _]. exact H. Qed.

Lemma Ready_tick src w : Ready src w -> Ready src (tick w).
Proof. intros H. exact H. Qed.

Ltac total_leaf :=
  let w := fresh "w" in
  let H := fresh "H" in
  intros w H; unfold wp, Math_random, modifyAudio, modifyManager, modify;
  cbn; rewrite ?length_insert; exact H.

Ltac total_step :=
  lazymatch goal with
  | |- total _ (ret _) => apply total_ret
  | |- total _ get => apply total_get
  | |- total _ (deref _ _) => apply total_deref
  | |- total _ (when _ _) => apply total_when
  | |- total _ (forUpTo _ _ _) => apply total_forUpTo; intros ?
  | |- total _ (bind _ _) => apply total_bind; [| intros ?]
  | |- total (Ready ?s) native => apply (total_native _ (Ready_quiet s) (Ready_tick s))
  | |- total _ (tryCatch _ (fun _ => ret _)) =>
      apply total_caught; repeat first [preserves_step | unfold_head]; try frame_leaf
  | |- total _ (match ?x with _ => _ end) => destruct x
  | |- total _ (let _ := _ in _) => cbv zeta
  end.

Ltac unfold_total_head :=
  lazymatch goal with
  | |- total _ ?m =>
      let h := head_of m in
      lazymatch h with
      | native => fail
      | Math_random => fail
      | @modify => fail
      | @modifyAudio => fail
      | @modifyManager => fail
      | @raiseIf => fail
      | _ => progress unfold h
      end
  end.

Ltac total_auto := repeat first [total_step | unfold_total_head]; try total_leaf.

Lemma applyOptimizedEnvelope_total src g s d p :
  total (Ready src) (applyOptimizedEnvelope g s d p).
Proof. total_auto. Qed.

Lemma setValue_total src p v : total (Ready src) (setValue p v).
Proof. total_auto. Qed.

Lemma connectGain_total src r dest : total (Ready src) (connectGain r dest).
Proof. total_auto. Qed.

Lemma getPooledNodes_total src : total (Ready src) getPooledNodes.
Proof. unfold getPooledNodes. apply total_tryCatch. total_auto. Qed.

Lemma wp_total {A B} (I : World -> Prop) (m : JS A) (k : A -> JS B) Q E w :
  total I m -> I w -> (forall a w1, I w1 -> wp (k a) Q E w1) -> wp (x <- m ;; k x) Q E w.
Proof.
  intros Hm Hw Hk. apply wp_bind. eapply wp_mono; [apply Hm, Hw | exact Hk | contradiction].
Qed.

Lemma createBufferSource_ready w :
  NoFaults w -> wp createBufferSource (fun src w' => Ready src w') (fun _ => False) w.
Proof.
  intros Hw. unfold wp, createBufferSource, alloc.
  rewrite (bind_returns _ _ _ _ _ (native_returns w Hw)). cbn.
  split; [exact Hw |]. cbn -[lookup_total].
  rewrite lookup_total_app_r by lia. rewrite Nat.sub_diag. reflexivity.
Qed.

Lemma playback_insert (h : list AudioBufferSourceNode) r src n :
  playback n = playback (h !!! r) ->
  playback (<[r := n]> h !!! src) = playback (h !!! src).
Proof.
  intros Hn. destruct (decide (r = src)) as [-> | Hne].
  - destruct (decide (src < length h)) as [Hlt | Hge].
    + rewrite list_lookup_total_insert_eq by exact Hlt. exact Hn.
    + rewrite list_insert_ge by lia. reflexivity.
  - rewrite list_lookup_total_insert_ne by exact Hne. reflexivity.
Qed.

Lemma setBuffer_total src r b : total (Ready src) (setBuffer r b).
Proof.
  intros w [Hw Hp]. unfold wp, setBuffer. cbn. split; [exact Hw |]. cbn -[lookup_total insert].
  rewrite playback_insert by reflexivity. exact Hp.
Qed.

Lemma setRate_total src r v : total (Ready src) (setRate r v).
Proof.
  intros w [Hw Hp]. unfold wp, setRate. cbn. split; [exact Hw |]. cbn -[lookup_total insert].
  rewrite playback_insert by reflexivity. exact Hp.
Qed.

Lemma connectSource_total src r dest : total (Ready src) (connectSource r dest).
Proof.
  intros w [Hw Hp]. unfold wp, connectSource, getSourceNode.
  rewrite (bind_returns _ _ w (sourceHeap (audioContext w) !!! r) w) by reflexivity.
  rewrite (bind_returns _ _ _ _ _ (native_returns w Hw)). cbn. split; [exact Hw |]. cbn -[lookup_total insert].
  rewrite playback_insert by reflexivity. exact Hp.
Qed.

Lemma start_returns src startTime position duration w :
  (0 <= startTime)%R -> (0 <= position)%R -> (0 <= duration)%R -> Ready src w ->
  wp (start src startTime position duration) (fun _ w' => NoFaults w') (fun _ => False) w.
Proof.
  intros Hs Hp Hd [Hw Hplay]. unfold wp, start, getSourceNode.
  rewrite (bind_returns _ _ w (sourceHeap (audioContext w) !!! src) w) by reflexivity.
  rewrite (bind_returns _ _ _ _ _ (native_returns w Hw)).
  rewrite !Rltb_false by assumption. cbn [orb raiseIf].
  rewrite (bind_returns _ _ (tick w) tt (tick w)) by reflexivity.
  rewrite Hplay. cbn. exact Hw.
Qed.

Lemma NoFaults_total_setOnended r g : total NoFaults (setOnended r g).
Proof. intros w Hw. exact Hw. Qed.

Lemma createOptimizedGrain_returns buffer params startTime duration position w :
  NoFaults w -> (0 <= startTime)%R -> (0 <= position)%R -> (0 <= duration)%R ->
  exists g w',
    createOptimizedGrain buffer params startTime duration position w = (Ret (Some g), w') /\
    NoFaults w'.
Proof.
  intros Hw Hs Hp Hd.
  assert (H : wp (createOptimizedGrain buffer params startTime duration position)
                 (fun o w' => is_Some o /\ NoFaults w') (fun _ => False) w).
  { unfold createOptimizedGrain. apply wp_tryCatch.
    apply (wp_mono _ (fun o w' => is_Some o /\ NoFaults w') _ (fun _ => False));
      [| trivial | intros ? []].
    apply wp_bind. eapply wp_mono; [apply createBufferSource_ready, Hw | | trivial].
    cbv beta. clear w Hw. intros src w Hw.
    apply (wp_total (Ready src)); [apply setBuffer_total | exact Hw |]; clear w Hw; intros _ w Hw.
    apply (wp_total (Ready src)); [apply setRate_total | exact Hw |]; clear w Hw; intros _ w Hw.
    apply (wp_total (Ready src)); [apply getPooledNodes_total | exact Hw |];
      clear w Hw; intros nodes w Hw.
    do 2 (apply (wp_total (Ready src)); [solve [total_auto] | exact Hw |];
          clear w Hw; intros _ w Hw).
    cbv zeta.
    apply (wp_total (Ready src)); [solve [total_auto] | exact Hw |]; clear w Hw; intros r w Hw.
    do 2 (apply (wp_total (Ready src)); [solve [total_auto] | exact Hw |];
          clear w Hw; intros _ w Hw).
    apply (wp_total (Ready src)); [apply connectSource_total | exact Hw |];
      clear w Hw; intros _ w Hw.
    do 2 (apply (wp_total (Ready src)); [solve [total_auto] | exact Hw |];
          clear w Hw; intros _ w Hw).
    apply (wp_total (Ready src)); [solve [total_auto] | exact Hw |]; clear w Hw; intros w0 w Hw.
    apply (wp_total (Ready src)); [solve [total_auto] | exact Hw |]; clear w Hw; intros _ w Hw.
    apply wp_bind. eapply wp_mono; [apply start_returns; assumption | | trivial].
    cbv beta. clear w Hw. intros _ w Hw.
    apply wp_bind. unfold wp at 1. cbn [newGrain]. unfold newGrain.
    rewrite (bind_returns _ _ w w w) by reflexivity. rewrite modify_bind. cbn [ret].
    apply (wp_total NoFaults); [apply NoFaults_total_setOnended | exact Hw |].
    intros _ w1 H1. apply wp_ret. split; [eauto | exact H1]. }
  unfold wp in H. destruct (createOptimizedGrain _ _ _ _ _ w) as [[[g|]|e] w'].
  - exists g, w'. split; [reflexivity | apply H].
  - destruct H as [[g Hg] _]. discriminate.
  - contradiction.
Qed.

Lemma createGrain_returns buffer params startTime duration position w :
  NoFaults w -> (0 <= startTime)%R -> (0 <= position)%R -> (0 <= duration)%R ->
  exists g w' x,
    createGrain buffer params startTime duration position w = (Ret (Some g), w') /\
    created (prepareR (currentTime (audioContext w)) (registry w))
            (startTime + duration) (Some g) x /\
    registry w' = admitR (Some g) (startTime + duration + CLEANUP_DELAY)%R x /\
    NoFaults w'.
Proof.
  intros Hw Hs Hp Hd.
  destruct (createGrain_steps buffer params startTime duration position w)
    as (o & w' & x & w2 & w3 & E & Hc & Hr & O2 & O3 & E3).
  destruct (createOptimizedGrain_returns buffer params startTime duration position w2)
    as (g & w3' & E3' & N3); try assumption.
  { apply (NoFaults_oracle w); assumption. }
  rewrite E3 in E3'. injection E3' as -> ->.
  exists g, w', x. repeat (split; [assumption |]).
  apply (NoFaults_oracle w3'); assumption.
Qed.

(** ** Admission at capacity *)

Definition heapOf (x : Registry) : list Grain := let '(heap, _, _, _, _) := x in heap.
Definition activeOf (x : Registry) : list nat := let '(_, _, active, _, _) := x in active.

(** The registry at the capacity test of [createGrain]. *)
Definition atTest (w : World) : Registry :=
  drained (currentTime (audioContext w)) (counted (registry w)).

Definition handles (o : option nat) : list nat :=
  match o with
  | Some g => [g]
  | None => []
  end.

Lemma createGrain_at_capacity buffer params startTime duration position w :
  Bounded (registry w) ->
  (capacityOf (atTest w) <= Z.of_nat (voiceCount (atTest w)))%Z ->
  exists victim o w',
    createGrain buffer params startTime duration position w = (Ret o, w') /\
    earliest (heapOf (atTest w)) (activeOf (atTest w)) victim /\
    isActive (grainHeap w' !!! victim) = false /\
    activeVoices (manager w') = Set_delete victim (activeOf (atTest w)) ++ handles o.
Proof.
  intros Hb Hfull.
  destruct (createGrain_registry buffer params startTime duration position w)
    as (o & w' & x & E & Hc & Hr).
  unfold prepareR in Hc. fold (atTest w) in Hc.
  assert (Hb' : Bounded (atTest w)).
  { apply drained_bounded. destruct (registry w) as [[[[heap mv] active] queue] lc]. exact Hb. }
  destruct (atTest w) as [[[[heap mv] active] queue] lc] eqn:Ex.
  destruct Hb' as (Hok & Hone & Hle). cbn in Hfull, Hone, Hle.
  assert (Hne : active <> []) by (intros ->; cbn in Hfull; lia).
  destruct (forceCleanupOldestR_evicts heap mv active queue lc Hok Hne) as (victim & He & Hev).
  unfold evicted in Hc.
  replace (Z.of_nat (length active) >=? mv)%Z with true in Hc
    by (symmetry; rewrite Z.geb_leb; apply Z.leb_le; lia).
  rewrite Hev in Hc. cbn in Hc. destruct Hc as (tail & -> & Ho).
  exists victim, o, w'. split; [exact E |]. split; [exact He |].
  destruct He as [Hin _]. destruct Hok as (Hnd & Hact & _).
  destruct (Hact victim Hin) as [Hlt _].
  assert (Hheap : grainHeap w' = <[victim := deactivate (heap !!! victim)]> heap ++ tail).
  { destruct o; cbn in Hr; unfold registry in Hr; congruence. }
  split.
  - rewrite Hheap. rewrite lookup_total_app_l by (rewrite length_insert; exact Hlt).
    rewrite list_lookup_total_insert_eq by exact Hlt. reflexivity.
  - destruct o as [g|]; cbn in Hr; unfold registry in Hr; cbn [handles].
    + destruct Ho as (-> & _). injection Hr as _ _ -> _ _.
      rewrite length_insert. apply Set_add_fresh.
      intros Hg. apply Set_delete_elem in Hg as [Hg _]. apply Hact in Hg as [Hg _]. lia.
    + injection Hr as _ _ -> _ _. rewrite app_nil_r. reflexivity.
Qed.

Lemma registry_eq w heap mv active queue lc :
  registry w = (heap, mv, active, queue, lc) ->
  grainHeap w = heap /\ maxVoices (manager w) = mv /\ activeVoices (manager w) = active /\
  cleanupQueue (manager w) = queue /\ lastCleanup (manager w) = lc.
Proof. unfold registry. intros H. injection H. auto. Qed.

Lemma getActiveVoiceCount_returns w :
  getActiveVoiceCount w = (Ret (length (activeVoices (manager w))), w).
Proof. reflexivity. Qed.

Definition demoBuffer : AudioBuffer := mkBuffer 2.

Lemma studio_constructed capacity :
  (0 <= capacity <= 2)%Z ->
  construct (newAudioContext 0 quiet) (fun _ => 0.5%R) capacity = (Ret tt, studio capacity).
Proof.
  intros H. assert (Hc : capacity = 0%Z \/ capacity = 1%Z \/ capacity = 2%Z) by lia.
  destruct Hc as [-> | [-> | ->]]; evaluate; reflexivity.
Qed.

Lemma studio_reachable capacity : (0 <= capacity <= 2)%Z -> reachable capacity (studio capacity).
Proof. intros H. eapply reachable_new, studio_constructed, H. Qed.

Lemma studio_registry capacity : registry (studio capacity) = ([], capacity, [], [], 0%Z).
Proof.
  unfold studio. destruct (construct _ _ capacity) as [o w] eqn:E.
  exact (construct_registry _ _ _ _ _ E).
Qed.

(** One successful [createGrain] on a platform without faults. *)
Lemma createGrain_quiet buffer params startTime duration position w heap mv active queue lc :
  NoFaults w -> (0 <= startTime)%R -> (0 <= position)%R -> (0 <= duration)%R ->
  prepareR (currentTime (audioContext w)) (registry w) = (heap, mv, active, queue, lc) ->
  NoFaults (snd (run (CreateGrain buffer params startTime duration position) w)) /\
  exists src nodes,
    registry (snd (run (CreateGrain buffer params startTime duration position) w))
    = (heap ++ [mkGrain src nodes (startTime + duration) true], mv,
       Set_add (length heap) active,
       queue ++ [mkItem (length heap) (startTime + duration + CLEANUP_DELAY)%R], lc).
Proof.
  intros Hw Hs Hp Hd Hprep.
  destruct (createGrain_returns buffer params startTime duration position w Hw Hs Hp Hd)
    as (g & w' & x & E & Hc & Hr & Hn).
  cbn [run]. rewrite (bind_returns _ _ _ _ _ E). cbn [ret snd].
  split; [exact Hn |].
  rewrite Hprep in Hc. cbn in Hc. destruct Hc as (tail & -> & -> & src & nodes & ->).
  exists src, nodes. rewrite Hr. reflexivity.
Qed.

Lemma ltTime_true x t : (x < t)%R -> ltTime x (Finite t) = true.
Proof. intros H. cbn. destruct (Rlt_dec x t); [reflexivity | contradiction]. Qed.

Lemma ltTime_false x t : (t <= x)%R -> ltTime x (Finite t) = false.
Proof. intros H. cbn. destruct (Rlt_dec x t); [lra | reflexivity]. Qed.

(** The scenario of three grains on a manager of capacity 2. *)
Definition threeGrains : list Call :=
  [ CreateGrain demoBuffer (knobs 0 3 200 0.7) 0 1 0;
    CreateGrain demoBuffer (knobs 0 3 200 0.7) 0 0.5 0;
    CreateGrain demoBuffer (knobs 0 3 200 0.7) 0 2 0 ].

Lemma threeGrains_registry :
  exists a b b' c queue,
    registry (runAll threeGrains (studio 2)) = ([a; b'; c], 2%Z, [0; 2], queue, 3%Z) /\
    endTime a = (0 + 1)%R /\ isActive a = true /\
    b' = deactivate b /\ endTime b = (0 + 0.5)%R /\
    endTime c = (0 + 2)%R /\ isActive c = true.
Proof.
  unfold threeGrains, runAll. cbn [fold_left].
  pose proof (studio_NoFaults 2) as N0. pose proof (studio_registry 2) as R0.
  set (p := knobs 0 3 200 0.7) in *.
  destruct (createGrain_quiet demoBuffer p 0 1 0 (studio 2) [] 2%Z [] [] 1%Z)
    as (N1 & srcA & nodesA & R1); try lra; try exact N0.
  { rewrite R0. reflexivity. }
  set (w1 := snd (run (CreateGrain demoBuffer p 0 1 0) (studio 2))) in *.
  cbn [app length] in R1. 
  destruct (createGrain_quiet demoBuffer p 0 0.5 0 w1
              [mkGrain srcA nodesA (0 + 1) true] 2%Z [0]
              [mkItem 0 (0 + 1 + CLEANUP_DELAY)] 2%Z)
    as (N2 & srcB & nodesB & R2); try lra; try exact N1.
  { rewrite R1. reflexivity. }
  set (w2 := snd (run (CreateGrain demoBuffer p 0 0.5 0) w1)) in *.
  cbn [app length] in R2.
  set (a := mkGrain srcA nodesA (0 + 1) true) in *.
  set (b := mkGrain srcB nodesB (0 + 0.5) true) in *.
  destruct (createGrain_quiet demoBuffer p 0 2 0 w2
              [a; deactivate b] 2%Z [0]
              [mkItem 0 (0 + 1 + CLEANUP_DELAY); mkItem 1 (0 + 0.5 + CLEANUP_DELAY)] 3%Z)
    as (N3 & srcC & nodesC & R3); try lra; try exact N2.
  { rewrite R2. evaluate. destruct (Rlt_dec _ _) as [_ | H]; [reflexivity | exfalso; lra]. }
  cbn [app length] in R3.
  eexists a, b, _, _, _. split; [exact R3 |]. repeat split.
Qed.

Lemma prepareR_keeps (J : Registry -> Prop) :
  (forall g x, J x -> J (cleanupGrainR g x)) ->
  (forall heap mv active q lc q' lc',
     J (heap, mv, active, q, lc) -> J (heap, mv, active, q', lc')) ->
  forall now x, J x -> J (prepareR now x).
Proof.
  intros Hc Hq now x Hx. unfold prepareR.
  assert (H1 : J (counted x)).
  { destruct x as [[[[heap mv] active] queue] lc]. eapply Hq, Hx. }
  assert (H2 : J (drained now (counted x))).
  { unfold drained. destruct (counted x) as [[[[heap mv] active] queue] lc].
    destruct (_ =? _)%Z; [| exact H1].
    unfold performCleanupR. apply foldl_cleanupGrainR; [exact Hc | eapply Hq, H1]. }
  unfold evicted. destruct (drained now (counted x)) as [[[[heap mv] active] queue] lc].
  destruct (_ >=? _)%Z; [| exact H2].
  apply forceCleanupOldestR_keeps; assumption.
Qed.

(** A grain of the store that is not active. *)
Definition Inactive (g : nat) (x : Registry) : Prop :=
  g < length (heapOf x) /\ isActive (heapOf x !!! g) = false.

Lemma Inactive_cleanup g g' x : Inactive g x -> Inactive g (cleanupGrainR g' x).
Proof.
  destruct x as [[[[heap mv] active] queue] lc]. unfold Inactive. cbn.
  intros [Hlt Hoff]. destruct (isActive (heap !!! g')) eqn:Hon; cbn; [| auto].
  rewrite length_insert. split; [exact Hlt |].
  destruct (decide (g' = g)) as [-> | Hne].
  - rewrite list_lookup_total_insert_eq by exact Hlt. reflexivity.
  - rewrite list_lookup_total_insert_ne by exact Hne. exact Hoff.
Qed.

Lemma Inactive_run c w g :
  Inactive g (registry w) -> Inactive g (registry (snd (run c w))).
Proof.
  intros H. apply (preserves_snd (fun w => Inactive g (registry w))); [| exact H].
  apply run_preserves.
  - intros g' x. apply Inactive_cleanup.
  - intros now x endT o x' t Hx Hc.
    assert (Hp : Inactive g (prepareR now x)).
    { apply prepareR_keeps; [intros; apply Inactive_cleanup; assumption | | exact Hx].
      intros heap mv active q lc q' lc' Hi. exact Hi. }
    destruct (prepareR now x) as [[[[heap mv] active] queue] lc].
    cbn in Hc. destruct Hc as (tail & -> & _). destruct Hp as [Hlt Hoff]. cbn in Hlt, Hoff.
    assert (Hi : Inactive g (heap ++ tail, mv, active, queue, lc)).
    { split; cbn; [rewrite length_app; lia |]. rewrite lookup_total_app_l by exact Hlt.
      exact Hoff. }
    destruct o; exact Hi.
  - intros heap mv active queue lc Hi. exact Hi.
Qed.

Lemma cleanupGrain_deactivates g w :
  isActive (grainHeap (snd (cleanupGrain g w)) !!! g) = false.
Proof.
  destruct (cleanupGrain_registry g w) as (w' & E & Hr). rewrite E. cbn [snd].
  unfold registry in Hr. unfold cleanupGrainR in Hr.
  destruct (isActive (grainHeap w !!! g)) eqn:Hon.
  - injection Hr as -> _ _ _ _.
    destruct (decide (g < length (grainHeap w))) as [Hlt | Hge].
    + rewrite list_lookup_total_insert_eq by exact Hlt. reflexivity.
    + rewrite list_insert_ge by lia. rewrite list_lookup_total_alt, lookup_ge_None_2 in Hon by lia.
      discriminate.
  - injection Hr as -> _ _ _ _. exact Hon.
Qed.

Lemma cleanupGrain_idempotent g w :
  cleanupGrain g (snd (cleanupGrain g w)) = (Ret tt, snd (cleanupGrain g w)).
Proof. apply cleanupGrain_inactive, cleanupGrain_deactivates. Qed.

(** C3: once the [isActive] flag of a grain is false, no call and no event
    makes it true again, so it goes from true to false at most once; and a
    second [cleanupGrain] on the same grain returns without an error and
    leaves the whole state (active set, node pool, sources) as it is. *)
Theorem C3_isActive_falls_once_cleanup_idempotent c w g :
  g < length (grainHeap w) -> isActive (grainHeap w !!! g) = false ->
  (g < length (grainHeap (snd (run c w))) /\
   isActive (grainHeap (snd (run c w)) !!! g) = false) /\
  (forall g' w0 w1, cleanupGrain g' w0 = (Ret tt, w1) ->
     isActive (grainHeap w1 !!! g') = false /\ cleanupGrain g' w1 = (Ret tt, w1)).
Proof.
  intros Hlt Hoff. split.
  - apply (Inactive_run c w g). split; assumption.
  - intros g' w0 w1 E. pose proof (cleanupGrain_deactivates g' w0) as Hd.
    pose proof (cleanupGrain_idempotent g' w0) as Hi. rewrite E in Hd, Hi. auto.
Qed.

(** Two grains on a manager of capacity 1: the second evicts the first. *)
Definition twoGrains : list Call :=
  [ CreateGrain demoBuffer (knobs 0 3 200 0.7) 0 1 0;
    CreateGrain demoBuffer (knobs 0 3 200 0.7) 0 1 0 ].

Lemma twoGrains_registry :
  exists a b,
    registry (runAll twoGrains (studio 1))
    = ([deactivate a; b], 1%Z, [1],
       [mkItem 0 (0 + 1 + CLEANUP_DELAY)%R; mkItem 1 (0 + 1 + CLEANUP_DELAY)%R], 2%Z) /\
    isActive a = true /\ isActive b = true.
Proof.
  unfold twoGrains, runAll. cbn [fold_left].
  pose proof (studio_NoFaults 1) as N0. pose proof (studio_registry 1) as R0.
  set (p := knobs 0 3 200 0.7) in *.
  destruct (createGrain_quiet demoBuffer p 0 1 0 (studio 1) [] 1%Z [] [] 1%Z)
    as (N1 & srcA & nodesA & R1); try lra; try exact N0.
  { rewrite R0. reflexivity. }
  set (w1 := snd (run (CreateGrain demoBuffer p 0 1 0) (studio 1))) in *.
  cbn [app length] in R1.
  set (a := mkGrain srcA nodesA (0 + 1) true) in *.
  destruct (createGrain_quiet demoBuffer p 0 1 0 w1
              [deactivate a] 1%Z [] [mkItem 0 (0 + 1 + CLEANUP_DELAY)] 2%Z)
    as (N2 & srcB & nodesB & R2); try lra; try exact N1.
  { rewrite R1. evaluate. reflexivity. }
  cbn [app length] in R2.
  eexists a, _. split; [exact R2 |]. split; reflexivity.
Qed.

Lemma twoGrains_reachable : reachable 1 (runAll twoGrains (studio 1)).
Proof.
  unfold twoGrains, runAll. cbn [fold_left].
  do 2 apply reachable_run. apply studio_reachable. lia.
Qed.

Lemma atTest_capacity capacity w :
  reachable capacity w -> capacityOf (atTest w) = capacity.
Proof.
  intros Hr. pose proof (reachable_capacity capacity w Hr) as Hc.
  unfold atTest, drained, registry, counted.
  destruct (_ =? _)%Z; [| exact Hc].
  unfold performCleanupR.
  apply (foldl_cleanupGrainR (fun y => capacityOf y = capacity)); [| exact Hc].
  intros g y Hy. rewrite cleanupGrainR_capacity. exact Hy.
Qed.

(** C1 (amended): on a manager constructed with capacity maxVoices >= 1,
    after every call and every event getActiveVoiceCount() is at most
    maxVoices; and when createGrain finds the set at capacity (the call
    counted, the periodic drain of every 60th call done), it evicts a grain
    that ends no later than any other active grain before it admits the new
    one: the new set is the old one without the victim, followed by the new
    handle. *)
Theorem C1_active_voices_within_capacity capacity w :
  (1 <= capacity)%Z -> reachable capacity w ->
  (exists n, getActiveVoiceCount w = (Ret n, w) /\ (Z.of_nat n <= capacity)%Z) /\
  (forall buffer params startTime duration position,
     (capacity <= Z.of_nat (voiceCount (atTest w)))%Z ->
     exists victim o w',
       createGrain buffer params startTime duration position w = (Ret o, w') /\
       earliest (heapOf (atTest w)) (activeOf (atTest w)) victim /\
       isActive (grainHeap w' !!! victim) = false /\
       activeVoices (manager w') = Set_delete victim (activeOf (atTest w)) ++ handles o).
Proof.
  intros Hcap Hr. pose proof (reachable_Bounded capacity w Hcap Hr) as Hb. split.
  - exists (length (activeVoices (manager w))). split; [reflexivity |].
    destruct Hb as (_ & _ & Hle). unfold registry in Hle. cbn in Hle.
    rewrite <- (reachable_capacity capacity w Hr). exact Hle.
  - intros buffer params startTime duration position Hfull.
    apply createGrain_at_capacity; [exact Hb |].
    rewrite (atTest_capacity capacity w Hr). exact Hfull.
Qed.

Lemma C1_active_voices_within_capacity_witness :
  (1 <= 1)%Z /\ reachable 1 (runAll twoGrains (studio 1)) /\
  exists n, getActiveVoiceCount (runAll twoGrains (studio 1))
            = (Ret n, runAll twoGrains (studio 1)) /\ (Z.of_nat n <= 1)%Z.
Proof.
  split; [lia |]. split; [apply twoGrains_reachable |].
  apply (C1_active_voices_within_capacity 1 (runAll twoGrains (studio 1))).
  - lia.
  - apply twoGrains_reachable.
Defined.

(** C1 as stated fails for capacity 0: the set is at capacity while empty,
    there is nothing to evict, and the new grain is admitted. *)
Lemma C1_zero_capacity_counterexample :
  reachable 0 (snd (run (CreateGrain demoBuffer (knobs 0 3 200 0.7) 0 1 0) (studio 0))) /\
  exists n,
    getActiveVoiceCount (snd (run (CreateGrain demoBuffer (knobs 0 3 200 0.7) 0 1 0) (studio 0)))
    = (Ret n, snd (run (CreateGrain demoBuffer (knobs 0 3 200 0.7) 0 1 0) (studio 0))) /\
    ~ (Z.of_nat n <= 0)%Z.
Proof.
  split; [apply reachable_run, studio_reachable; lia |].
  destruct (createGrain_quiet demoBuffer (knobs 0 3 200 0.7) 0 1 0 (studio 0) [] 0%Z [] [] 1%Z)
    as (_ & src & nodes & Hr); try lra; try apply studio_NoFaults.
  { rewrite studio_registry. reflexivity. }
  exists 1. apply registry_eq in Hr as (_ & _ & Ha & _).
  split; [| lia].
  rewrite getActiveVoiceCount_returns. cbn [length app] in Ha. rewrite Ha. reflexivity.
Qed.

Lemma forceCleanupOldest_evicts capacity w :
  reachable capacity w -> activeVoices (manager w) <> [] ->
  exists victim w',
    forceCleanupOldest w = (Ret tt, w') /\
    earliest (grainHeap w) (activeVoices (manager w)) victim /\
    activeVoices (manager w') = Set_delete victim (activeVoices (manager w)) /\
    grainHeap w' = <[victim := deactivate (grainHeap w !!! victim)]> (grainHeap w).
Proof.
  intros Hr Hne. pose proof (reachable_RegistryOK capacity w Hr) as Hok.
  destruct (forceCleanupOldest_registry w) as (w' & E & HR).
  unfold registry in Hok, HR at 2.
  destruct (forceCleanupOldestR_evicts _ _ _ _ _ Hok Hne) as (victim & He & Hev).
  rewrite Hev in HR. unfold registry in HR. injection HR as H1 _ H2 _ _.
  exists victim, w'. auto.
Qed.

(** C2: a forced eviction removes a grain whose endTime is the smallest of
    the active set (the first such grain in insertion order), changes no
    other grain and removes no other member; with maxVoices = 2, after
    grain A (end 1.0 s) and grain B (end 0.5 s), the creation of grain C
    evicts B and leaves exactly A and C active. *)
Theorem C2_forced_eviction_takes_earliest capacity w :
  reachable capacity w -> activeVoices (manager w) <> [] ->
  (exists victim w',
     forceCleanupOldest w = (Ret tt, w') /\
     earliest (grainHeap w) (activeVoices (manager w)) victim /\
     activeVoices (manager w') = Set_delete victim (activeVoices (manager w)) /\
     grainHeap w' = <[victim := deactivate (grainHeap w !!! victim)]> (grainHeap w)) /\
  (exists a b c,
     grainHeap (runAll threeGrains (studio 2)) = [a; deactivate b; c] /\
     activeVoices (manager (runAll threeGrains (studio 2))) = [0; 2] /\
     endTime a = 1%R /\ isActive a = true /\ endTime b = 0.5%R /\ isActive c = true).
Proof.
  intros Hr Hne. split; [apply (forceCleanupOldest_evicts capacity w Hr Hne) |].
  destruct threeGrains_registry as (a & b & b' & c & queue & HR & Ha & Ha' & -> & Hb & Hc & Hc').
  apply registry_eq in HR as (H1 & _ & H2 & _).
  exists a, b, c. rewrite H1, H2, Ha, Hb.
  repeat split; try assumption; lra.
Qed.

Lemma twoGrains_active : activeVoices (manager (runAll twoGrains (studio 1))) = [1].
Proof.
  destruct twoGrains_registry as (a & b & HR & _).
  apply registry_eq in HR as (_ & _ & H & _). exact H.
Qed.

Lemma C2_forced_eviction_takes_earliest_witness :
  reachable 1 (runAll twoGrains (studio 1)) /\
  activeVoices (manager (runAll twoGrains (studio 1))) <> [] /\
  exists victim w',
    forceCleanupOldest (runAll twoGrains (studio 1)) = (Ret tt, w') /\
    earliest (grainHeap (runAll twoGrains (studio 1)))
             (activeVoices (manager (runAll twoGrains (studio 1)))) victim /\
    activeVoices (manager w')
    = Set_delete victim (activeVoices (manager (runAll twoGrains (studio 1)))) /\
    grainHeap w' = <[victim := deactivate (grainHeap (runAll twoGrains (studio 1)) !!! victim)]>
                     (grainHeap (runAll twoGrains (studio 1))).
Proof.
  split; [apply twoGrains_reachable |].
  split; [rewrite twoGrains_active; discriminate |].
  apply (C2_forced_eviction_takes_earliest 1 (runAll twoGrains (studio 1))).
  - apply twoGrains_reachable.
  - rewrite twoGrains_active. discriminate.
Defined.

(** ** The cleanup queue *)

Lemma forceCleanupOldestR_queue x : queueOf (forceCleanupOldestR x) = queueOf x.
Proof.
  apply (forceCleanupOldestR_keeps (fun y => queueOf y = queueOf x)); [| reflexivity].
  intros g y Hy. rewrite cleanupGrainR_queue. exact Hy.
Qed.

Lemma performCleanupR_queue now x :
  queueOf (performCleanupR now x) = List.filter (pending now) (queueOf x).
Proof.
  destruct x as [[[[heap mv] active] queue] lc]. unfold performCleanupR.
  apply (foldl_cleanupGrainR (fun y => queueOf y = List.filter (pending now) queue));
    [| reflexivity].
  intros g y Hy. rewrite cleanupGrainR_queue. exact Hy.
Qed.

Lemma queueOf_registry w : queueOf (registry w) = cleanupQueue (manager w).
Proof. reflexivity. Qed.

Lemma stopAll_clears_queue w : cleanupQueue (manager (snd (stopAll w))) = [].
Proof.
  unfold stopAll. rewrite tryCatch_unit. cbn [snd].
  rewrite (bind_returns _ _ w w w) by reflexivity.
  destruct (forEach_cleanupGrain_registry (activeVoices (manager w)) w) as (w1 & E & _).
  rewrite (bind_returns _ _ _ _ _ E). reflexivity.
Qed.

(** C9 (amended): at every reachable state the queue holds at most one entry
    for a grain.  An entry leaves the queue only when the drain processes it
    (its time is not after the clock) or when stopAll empties the queue;
    forced eviction and cleanupGrain leave the queue as it is, so the entry
    of an evicted grain stays queued until the drain reaches its time. *)
Theorem C9_cleanup_queue_entries capacity w :
  reachable capacity w ->
  NoDup (map grain (cleanupQueue (manager w))) /\
  cleanupQueue (manager (snd (forceCleanupOldest w))) = cleanupQueue (manager w) /\
  (forall g, cleanupQueue (manager (snd (cleanupGrain g w))) = cleanupQueue (manager w)) /\
  cleanupQueue (manager (snd (performCleanup w)))
  = List.filter (pending (currentTime (audioContext w))) (cleanupQueue (manager w)) /\
  cleanupQueue (manager (snd (stopAll w))) = [].
Proof.
  intros Hr. pose proof (reachable_RegistryOK capacity w Hr) as Hok.
  split; [| split; [| split; [| split]]].
  - unfold registry in Hok. apply Hok.
  - destruct (forceCleanupOldest_registry w) as (w' & -> & HR). cbn [snd].
    rewrite <- !queueOf_registry, HR. apply forceCleanupOldestR_queue.
  - intros g. destruct (cleanupGrain_registry g w) as (w' & -> & HR). cbn [snd].
    rewrite <- !queueOf_registry, HR. apply cleanupGrainR_queue.
  - destruct (performCleanup_registry w) as (w' & -> & HR). cbn [snd].
    rewrite <- !queueOf_registry, HR. apply performCleanupR_queue.
  - apply stopAll_clears_queue.
Qed.

Lemma C9_cleanup_queue_entries_witness :
  reachable 1 (runAll twoGrains (studio 1)) /\
  NoDup (map grain (cleanupQueue (manager (runAll twoGrains (studio 1))))).
Proof.
  split; [apply twoGrains_reachable |].
  apply (C9_cleanup_queue_entries 1 (runAll twoGrains (studio 1))).
  apply twoGrains_reachable.
Defined.

(** C9 as stated fails: with capacity 1 the second grain evicts the first,
    and the queue still holds the entry of the evicted grain. *)
Lemma C9_evicted_entry_counterexample :
  reachable 1 (runAll twoGrains (studio 1)) /\
  (0 ∉ activeVoices (manager (runAll twoGrains (studio 1)))) /\
  isActive (grainHeap (runAll twoGrains (studio 1)) !!! 0) = false /\
  exists item, item ∈ cleanupQueue (manager (runAll twoGrains (studio 1))) /\ grain item = 0.
Proof.
  split; [apply twoGrains_reachable |].
  destruct twoGrains_registry as (a & b & HR & _).
  apply registry_eq in HR as (H1 & _ & H2 & H3 & _). rewrite H1, H2, H3.
  split; [| split].
  - intros H. apply list_elem_of_singleton in H. discriminate.
  - reflexivity.
  - eexists. split; [constructor | reflexivity].
Qed.

Lemma C3_isActive_falls_once_cleanup_idempotent_witness :
  0 < length (grainHeap (runAll twoGrains (studio 1))) /\
  isActive (grainHeap (runAll twoGrains (studio 1)) !!! 0) = false /\
  isActive (grainHeap (snd (run (Onended 0) (runAll twoGrains (studio 1)))) !!! 0) = false.
Proof.
  assert (H : 0 < length (grainHeap (runAll twoGrains (studio 1))) /\
              isActive (grainHeap (runAll twoGrains (studio 1)) !!! 0) = false).
  { destruct twoGrains_registry as (a & b & HR & _).
    apply registry_eq in HR as (H1 & _). rewrite H1. split; [cbn; lia | reflexivity]. }
  destruct H as [H1 H2]. split; [exact H1 |]. split; [exact H2 |].
  apply (C3_isActive_falls_once_cleanup_idempotent (Onended 0)
           (runAll twoGrains (studio 1)) 0 H1 H2).
Defined.

(** ** GrainTrigger without spread *)

Section NoSpread.
Local Open Scope R_scope.

Lemma _getLFOValue_returns waveform rate time w :
  exists v w', _getLFOValue waveform rate time w = (Ret v, w').
Proof.
  unfold _getLFOValue. destruct waveform as [|p|p]; [eexists _, _; reflexivity | |
                                                     eexists _, _; reflexivity].
  do 2 (try destruct p as [p|p|]); eexists _, _; reflexivity.
Qed.

(** The position handed to [createGrain] when the spread is 0, from the LFO
    value and the random draw of the fixed jitter. *)
Definition positionOf (buffer : AudioBuffer) (params : Params) (lfoVal r : R) : R :=
  let grainDurSec := grainSize params / 1000 in
  let base := (startOffset params / 100) * duration buffer in
  let base := base + lfoVal * (duration buffer - base - grainDurSec) in
  Rmax 0 (Rmin (duration buffer - grainDurSec) (base + (r - 0.5) * 0.05)).

Lemma grainRequest_no_spread buffer params lfoStartTime w :
  spread params = 0 ->
  exists lfoVal wl request w',
    _getLFOValue (lfoWaveform params) (lfoRate params)
                 (currentTime (audioContext w) - lfoStartTime) w = (Ret lfoVal, wl) /\
    grainRequest buffer params lfoStartTime w = (Ret request, w') /\
    requestParams request = params /\
    requestStartTime request = currentTime (audioContext w) /\
    requestDuration request = grainSize params / 1000 /\
    requestPosition request
    = positionOf buffer params lfoVal (randomSource wl (randomDraws wl)).
Proof.
  intros Hs.
  destruct (_getLFOValue_returns (lfoWaveform params) (lfoRate params)
              (currentTime (audioContext w) - lfoStartTime) w) as (lfoVal & wl & El).
  exists lfoVal, wl. unfold grainRequest.
  rewrite (bind_returns _ _ w w w) by reflexivity. cbv zeta.
  rewrite (bind_returns _ _ _ _ _ El).
  rewrite Hs. rewrite !(Rltb_false 0 (0 / 100)) by lra.
  eexists _, _. split; [exact El |]. split; [reflexivity |]. repeat split.
Qed.

Lemma grainRequest_sine_at_start buffer params w :
  spread params = 0 -> lfoWaveform params = 0%Z ->
  exists request w',
    grainRequest buffer params (currentTime (audioContext w)) w = (Ret request, w') /\
    requestPosition request = positionOf buffer params 0.5 (randomSource w (randomDraws w)).
Proof.
  intros Hs Hwf.
  destruct (grainRequest_no_spread buffer params (currentTime (audioContext w)) w Hs)
    as (lfoVal & wl & request & w' & El & E & _ & _ & _ & Hp).
  exists request, w'. split; [exact E |]. rewrite Hp.
  rewrite Hwf in El. cbn [_getLFOValue ret] in El. unfold _getLFOValue, ret in El.
  injection El as <- <-. f_equal.
  replace (2 * PI * lfoRate params * (currentTime (audioContext w) - currentTime (audioContext w)))
    with 0 by ring.
  rewrite sin_0. lra.
Qed.

(** The same world with another random source. *)
Definition withRandom (random : nat -> R) (w : World) : World :=
  mkWorld (audioContext w) random (randomDraws w) (grainHeap w) (manager w).

Lemma withRandom_time random w :
  currentTime (audioContext (withRandom random w)) = currentTime (audioContext w).
Proof. reflexivity. Qed.

Lemma withRandom_draw random w :
  randomSource (withRandom random w) (randomDraws (withRandom random w))
  = random (randomDraws w).
Proof. reflexivity. Qed.

Lemma studio_random capacity n : randomSource (studio capacity) n = 0.5.
Proof.
  unfold studio, construct.
  assert (Hk : keepsOn randomSource (newManager capacity)) by frame.
  rewrite (keepsOn_snd randomSource _ _ Hk). reflexivity.
Qed.

Lemma studio_time capacity : currentTime (audioContext (studio capacity)) = 0.
Proof.
  unfold studio, construct.
  assert (Hk : keepsOn (fun w => currentTime (audioContext w)) (newManager capacity)) by frame.
  rewrite (keepsOn_snd (fun w => currentTime (audioContext w)) _ _ Hk). reflexivity.
Qed.

(** C6 (amended): with spread 0 the parameter set handed to createGrain
    (playback rate, pan and the rest) is the set read from the knobs, and
    start time and duration are the clock and the grain size: two runs that
    differ only in random draws agree on them.  The position is the base
    position (start offset advanced by the LFO) moved by the fixed jitter
    (r - 0.5) * 0.05 of a random draw r and clamped to
    [0, bufferDuration - grainDuration]. *)
Theorem C6_no_spread_request buffer params lfoStartTime w1 w2 :
  spread params = 0 ->
  currentTime (audioContext w1) = currentTime (audioContext w2) ->
  exists q1 q2 w1' w2',
    grainRequest buffer params lfoStartTime w1 = (Ret q1, w1') /\
    grainRequest buffer params lfoStartTime w2 = (Ret q2, w2') /\
    requestParams q1 = params /\ requestParams q2 = params /\
    requestStartTime q1 = requestStartTime q2 /\
    requestDuration q1 = requestDuration q2 /\
    (exists lfoVal wl,
       _getLFOValue (lfoWaveform params) (lfoRate params)
                    (currentTime (audioContext w1) - lfoStartTime) w1 = (Ret lfoVal, wl) /\
       requestPosition q1
       = positionOf buffer params lfoVal (randomSource wl (randomDraws wl))) /\
    (exists lfoVal wl,
       _getLFOValue (lfoWaveform params) (lfoRate params)
                    (currentTime (audioContext w2) - lfoStartTime) w2 = (Ret lfoVal, wl) /\
       requestPosition q2
       = positionOf buffer params lfoVal (randomSource wl (randomDraws wl))).
Proof.
  intros Hs Ht.
  destruct (grainRequest_no_spread buffer params lfoStartTime w1 Hs)
    as (l1 & wl1 & q1 & w1' & El1 & E1 & P1 & S1 & D1 & X1).
  destruct (grainRequest_no_spread buffer params lfoStartTime w2 Hs)
    as (l2 & wl2 & q2 & w2' & El2 & E2 & P2 & S2 & D2 & X2).
  exists q1, q2, w1', w2'. repeat (split; [assumption |]).
  split; [congruence |]. split; [congruence |]. split; eauto.
Qed.

Lemma C6_no_spread_request_witness :
  spread (knobs 0 3 200 0.7) = 0 /\
  currentTime (audioContext (studio 1))
  = currentTime (audioContext (withRandom (fun _ => 0) (studio 1))) /\
  exists q1 q2 w1' w2',
    grainRequest demoBuffer (knobs 0 3 200 0.7) 0 (studio 1) = (Ret q1, w1') /\
    grainRequest demoBuffer (knobs 0 3 200 0.7) 0 (withRandom (fun _ => 0) (studio 1))
    = (Ret q2, w2') /\
    requestParams q1 = knobs 0 3 200 0.7 /\ requestParams q2 = knobs 0 3 200 0.7 /\
    requestStartTime q1 = requestStartTime q2 /\
    requestDuration q1 = requestDuration q2.
Proof.
  assert (Hs : spread (knobs 0 3 200 0.7) = 0) by reflexivity.
  assert (Ht : currentTime (audioContext (studio 1))
               = currentTime (audioContext (withRandom (fun _ => 0) (studio 1))))
    by (symmetry; apply withRandom_time).
  split; [exact Hs |]. split; [exact Ht |].
  destruct (C6_no_spread_request demoBuffer (knobs 0 3 200 0.7) 0 (studio 1)
              (withRandom (fun _ => 0) (studio 1)) Hs Ht)
    as (q1 & q2 & w1' & w2' & H).
  exists q1, q2, w1', w2'. tauto.
Defined.

(** C6 as stated fails: two runs that differ only in the random source hand
    different positions to createGrain although the spread is 0. *)
Lemma C6_position_counterexample :
  exists qA qB wA wB,
    spread (knobs 0 3 200 0.7) = 0 /\
    grainRequest demoBuffer (knobs 0 3 200 0.7) 0 (studio 1) = (Ret qA, wA) /\
    grainRequest demoBuffer (knobs 0 3 200 0.7) 0 (withRandom (fun _ => 0) (studio 1))
    = (Ret qB, wB) /\
    requestPosition qA <> requestPosition qB.
Proof.
  destruct (grainRequest_sine_at_start demoBuffer (knobs 0 3 200 0.7) (studio 1))
    as (qA & wA & EA & PA); [reflexivity | reflexivity |].
  destruct (grainRequest_sine_at_start demoBuffer (knobs 0 3 200 0.7)
              (withRandom (fun _ => 0) (studio 1)))
    as (qB & wB & EB & PB); [reflexivity | reflexivity |].
  rewrite withRandom_time in EB.
  rewrite studio_time in EA, EB.
  exists qA, qB, wA, wB. split; [reflexivity |]. split; [exact EA |]. split; [exact EB |].
  rewrite PA, PB. rewrite studio_random.
  rewrite withRandom_draw.
  unfold positionOf, demoBuffer, knobs. cbn [duration grainSize startOffset].
  unfold Rmax, Rmin. repeat destruct (Rle_dec _ _); lra.
Qed.
End NoSpread.

(** ** The master gain node *)

(** The master gain node is a node of the store. *)
Definition MasterOK (w : World) : Prop :=
  masterGain (manager w) < length (gainHeap (audioContext w)).

Lemma createGain_keeps_master : preserves MasterOK createGain.
Proof.
  intros w H. unfold wp, createGain, alloc, native, bind, MasterOK in *. cbn.
  destruct (faults (audioContext w) (calls (audioContext w))); cbn; [exact H |].
  rewrite length_app. lia.
Qed.

Ltac master_leaf :=
  let w := fresh "w" in
  let H := fresh "H" in
  intros w H;
  unfold wp, MasterOK, native, Math_random, modifyAudio, modifyManager, modify in *;
  cbn; try destruct (faults _ _); rewrite ?length_insert; exact H.

Ltac master_ok :=
  repeat first
    [ preserves_step
    | lazymatch goal with |- preserves _ createGain => apply createGain_keeps_master end
    | unfold_head ];
  try master_leaf.

Lemma run_keeps_master c : preserves MasterOK (run c).
Proof. destruct c; master_ok. Qed.

Lemma construct_master ctx random capacity w :
  construct ctx random capacity = (Ret tt, w) -> MasterOK w.
Proof.
  intros E. unfold construct in E.
  refine (wp_elim _ (fun _ => MasterOK) (fun _ => True) _ _ _ _ E).
  unfold newManager. apply wp_tryCatch.
  apply wp_bind. unfold modifyManager at 1. apply wp_modify. apply wp_bind.
  apply (wp_mono _ (fun mg w' => mg < length (gainHeap (audioContext w')))
                 _ (fun _ => True)).
  - unfold wp, createGain, alloc, native, bind. cbn.
    match goal with |- context [faults ?a ?k] => destruct (faults a k) end; cbn; [trivial |].
    rewrite length_app. cbn. lia.
  - intros mg w1 H1. apply wp_bind. unfold modifyManager at 1. apply wp_modify.
    apply (wp_mono _ (fun _ => MasterOK) _ MasterOK).
    + assert (Hp : forall m : JS unit, preserves MasterOK m -> forall w, MasterOK w ->
                     wp m (fun _ => MasterOK) MasterOK w) by (intros m Hm w0; apply Hm).
      apply Hp; [master_ok | exact H1].
    + trivial.
    + intros w2 H2 e. exact I.
  - intros w1 _ e. exact I.
Qed.

Lemma reachable_master capacity w : reachable capacity w -> MasterOK w.
Proof.
  induction 1 as [t0 orc random w Hc | w c _ IH].
  - eapply construct_master, Hc.
  - apply (preserves_snd MasterOK); [apply run_keeps_master | exact IH].
Qed.

Lemma clamp_unit level : (Rmax 0 (Rmin 1 level) = Rmin (Rmax level 0) 1)%R.
Proof. unfold Rmax, Rmin. repeat destruct (Rle_dec _ _); lra. Qed.

(** C10: whatever the level, below 0 or above 1 included, setMasterVolume
    returns without an error and leaves the master gain at
    min(max(level, 0), 1), a value of [0, 1]. *)
Theorem C10_master_volume_clamped capacity w level :
  reachable capacity w ->
  fst (setMasterVolume level w) = Ret tt /\
  value (gain (gainHeap (audioContext (snd (setMasterVolume level w)))
               !!! masterGain (manager (snd (setMasterVolume level w)))))
  = Rmin (Rmax level 0) 1 /\
  (0 <= Rmin (Rmax level 0) 1 <= 1)%R.
Proof.
  intros Hr. pose proof (reachable_master capacity w Hr) as Hm. unfold MasterOK in Hm.
  split; [reflexivity |]. split.
  - cbn -[lookup_total insert]. rewrite list_lookup_total_insert_eq by exact Hm.
    cbn. apply clamp_unit.
  - unfold Rmax, Rmin. repeat destruct (Rle_dec _ _); lra.
Qed.

Lemma C10_master_volume_clamped_witness :
  reachable 1 (studio 1) /\
  value (gain (gainHeap (audioContext (snd (setMasterVolume 7 (studio 1))))
               !!! masterGain (manager (snd (setMasterVolume 7 (studio 1))))))
  = Rmin (Rmax 7 0) 1.
Proof.
  split; [apply studio_reachable; lia |].
  apply (C10_master_volume_clamped 1 (studio 1) 7). apply studio_reachable. lia.
Defined.

(** ** Automation timelines hold no negative time *)

Definition ParamOK (a : AudioParam) : Prop :=
  Forall (fun e => (0 <= eventTime e)%R) (timeline a).

Definition TimelinesOK (w : World) : Prop :=
  Forall (fun n => ParamOK (gain n)) (gainHeap (audioContext w)) /\
  Forall (fun n => ParamOK (frequency n)) (filterHeap (audioContext w)) /\
  Forall (fun n => ParamOK (pan n)) (pannerHeap (audioContext w)).

(** The parameter a reference denotes. *)
Definition paramOf (p : ParamRef) (w : World) : AudioParam :=
  match p with
  | GainOf r => gain (gainHeap (audioContext w) !!! r)
  | FrequencyOf r => frequency (filterHeap (audioContext w) !!! r)
  | PanOf r => pan (pannerHeap (audioContext w) !!! r)
  end.

Lemma Forall_lookup_total_default {A} `{Inhabited A} (P : A -> Prop) (l : list A) i :
  Forall P l -> P inhabitant -> P (l !!! i).
Proof.
  intros Hl Hd. rewrite list_lookup_total_alt.
  destruct (l !! i) as [x|] eqn:E; cbn; [| exact Hd].
  eapply Forall_lookup_1; eassumption.
Qed.

Lemma ParamOK_nil v : ParamOK (mkParam v []).
Proof. constructor. Qed.

Lemma paramOf_ok p w : TimelinesOK w -> ParamOK (paramOf p w).
Proof.
  intros (Hg & Hf & Hp).
  destruct p as [r|r|r]; cbn [paramOf].
  - apply (Forall_lookup_total_default (fun n => ParamOK (gain n))); [exact Hg | apply ParamOK_nil].
  - apply (Forall_lookup_total_default (fun n => ParamOK (frequency n)));
      [exact Hf | apply ParamOK_nil].
  - apply (Forall_lookup_total_default (fun n => ParamOK (pan n))); [exact Hp | apply ParamOK_nil].
Qed.

Lemma getParam_returns_paramOf p w : getParam p w = (Ret (paramOf p w), w).
Proof. destruct p; reflexivity. Qed.

Lemma putGainNode_timelines r n :
  ParamOK (gain n) -> preserves TimelinesOK (putGainNode r n).
Proof.
  intros Hn w (Hg & Hf & Hp). unfold wp, putGainNode, modifyAudio, modify, TimelinesOK. cbn.
  split; [apply Forall_insert; assumption | split; assumption].
Qed.

Lemma putFilterNode_timelines r n :
  ParamOK (frequency n) -> preserves TimelinesOK (putFilterNode r n).
Proof.
  intros Hn w (Hg & Hf & Hp). unfold wp, putFilterNode, modifyAudio, modify, TimelinesOK. cbn.
  split; [assumption | split; [apply Forall_insert; assumption | assumption]].
Qed.

Lemma putPannerNode_timelines r n :
  ParamOK (pan n) -> preserves TimelinesOK (putPannerNode r n).
Proof.
  intros Hn w (Hg & Hf & Hp). unfold wp, putPannerNode, modifyAudio, modify, TimelinesOK. cbn.
  split; [assumption | split; [assumption | apply Forall_insert; assumption]].
Qed.

Lemma putParam_timelines p a : ParamOK a -> preserves TimelinesOK (putParam p a).
Proof.
  intros Ha. destruct p as [r|r|r]; cbn [putParam];
    (apply preserves_bind; [apply preserves_deref | intros n]).
  - apply putGainNode_timelines, Ha.
  - apply putFilterNode_timelines, Ha.
  - apply putPannerNode_timelines, Ha.
Qed.

Lemma native_timelines : preserves TimelinesOK native.
Proof. intros w H. unfold wp, native. destruct (faults _ _); exact H. Qed.

(** A call that reads a parameter, asks the platform, checks and writes. *)
Lemma param_method_timelines p (check : JS unit) (update : AudioParam -> AudioParam) :
  preserves TimelinesOK check ->
  (forall a w, ParamOK a -> wp check (fun _ _ => ParamOK (update a)) (fun _ => True) w) ->
  preserves TimelinesOK
    (a <- getParam p ;; native ;;; check ;;; putParam p (update a)).
Proof.
  intros Hc Hu w H. apply wp_bind. unfold wp at 1. rewrite getParam_returns_paramOf.
  pose proof (paramOf_ok p w H) as Ha. set (a := paramOf p w) in *. clearbody a.
  apply wp_bind. eapply wp_mono; [apply native_timelines, H | | trivial].
  cbv beta. intros _ w1 H1.
  apply wp_bind. specialize (Hc w1 H1). specialize (Hu _ w1 Ha). unfold wp in Hc, Hu |- *.
  destruct (check w1) as [[[]|e] w2]; [| exact Hc].
  apply putParam_timelines; assumption.
Qed.

Lemma ParamOK_schedule e a : (0 <= eventTime e)%R -> ParamOK a -> ParamOK (schedule e a).
Proof.
  intros He Ha. apply Forall_app. split; [exact Ha |].
  apply Forall_cons. split; [exact He | apply Forall_nil_2].
Qed.

Lemma raiseIf_negative_wp t (P : Prop) w :
  ((0 <= t)%R -> P) -> wp (raiseIf (Rltb t 0) RangeError) (fun _ _ => P) (fun _ => True) w.
Proof.
  intros H. unfold wp, Rltb. destruct (Rlt_dec t 0); cbn; [trivial | apply H; lra].
Qed.

Lemma setValueAtTime_timelines p v t : preserves TimelinesOK (setValueAtTime p v t).
Proof.
  apply (param_method_timelines p (raiseIf (Rltb t 0) RangeError)
           (schedule (SetValueAtTime v t))).
  - apply preserves_raiseIf.
  - intros a w Ha. apply raiseIf_negative_wp. intros Ht. apply ParamOK_schedule; assumption.
Qed.

Lemma linearRampToValueAtTime_timelines p v t :
  preserves TimelinesOK (linearRampToValueAtTime p v t).
Proof.
  apply (param_method_timelines p (raiseIf (Rltb t 0) RangeError)
           (schedule (LinearRampToValueAtTime v t))).
  - apply preserves_raiseIf.
  - intros a w Ha. apply raiseIf_negative_wp. intros Ht. apply ParamOK_schedule; assumption.
Qed.

Lemma exponentialRampToValueAtTime_timelines p v t :
  preserves TimelinesOK (exponentialRampToValueAtTime p v t).
Proof.
  intros w H. unfold exponentialRampToValueAtTime.
  apply wp_bind. unfold wp at 1. rewrite getParam_returns_paramOf.
  pose proof (paramOf_ok p w H) as Ha. set (a := paramOf p w) in *. clearbody a.
  apply wp_bind. eapply wp_mono; [apply native_timelines, H | | trivial].
  cbv beta. intros _ w1 H1.
  destruct (Req_dec_T v 0); cbn [raiseIf]; [exact H1 |].
  apply wp_bind, wp_ret. unfold Rltb. destruct (Rlt_dec t 0); cbn [raiseIf]; [exact H1 |].
  apply wp_bind, wp_ret. apply putParam_timelines; [| exact H1].
  apply ParamOK_schedule; [cbn; lra | exact Ha].
Qed.

Lemma ParamOK_filter v (f : AutomationEvent -> bool) a :
  ParamOK a -> ParamOK (mkParam v (List.filter f (timeline a))).
Proof.
  unfold ParamOK. cbn [timeline]. rewrite !Forall_forall. intros H e He.
  apply elem_of_List_filter in He as [He _]. apply H, He.
Qed.

Lemma cancelScheduledValues_timelines p t : preserves TimelinesOK (cancelScheduledValues p t).
Proof.
  apply (param_method_timelines p (raiseIf (Rltb t 0) RangeError)
           (fun a => mkParam (value a)
                       (List.filter (fun e => Rltb (eventTime e) t) (timeline a)))).
  - apply preserves_raiseIf.
  - intros a w Ha. apply raiseIf_negative_wp. intros _. apply ParamOK_filter, Ha.
Qed.

Lemma setValue_timelines p v : preserves TimelinesOK (setValue p v).
Proof.
  intros w H. unfold setValue. apply wp_bind. unfold wp at 1.
  rewrite getParam_returns_paramOf. apply putParam_timelines; [| exact H].
  exact (paramOf_ok p w H).
Qed.

Ltac node_method ref :=
  let w := fresh "w" in
  let H := fresh "H" in
  let Ha := fresh "Ha" in
  intros w H; apply wp_bind; unfold wp at 1; cbn [deref getGainNode getFilterNode getPannerNode];
  unfold getGainNode, getFilterNode, getPannerNode, deref;
  pose proof (paramOf_ok ref w H) as Ha; cbn [paramOf] in Ha;
  first
    [ apply wp_bind; eapply wp_mono; [apply native_timelines, H | | trivial];
      cbv beta; intros _ ? ?
    | idtac ];
  first [ apply putGainNode_timelines | apply putFilterNode_timelines
        | apply putPannerNode_timelines ]; assumption.

Lemma connectGain_timelines r dest : preserves TimelinesOK (connectGain r dest).
Proof. node_method (GainOf r). Qed.
Lemma connectFilter_timelines r dest : preserves TimelinesOK (connectFilter r dest).
Proof. node_method (FrequencyOf r). Qed.
Lemma connectPanner_timelines r dest : preserves TimelinesOK (connectPanner r dest).
Proof. node_method (PanOf r). Qed.
Lemma disconnectGain_timelines r : preserves TimelinesOK (disconnectGain r).
Proof. node_method (GainOf r). Qed.
Lemma disconnectFilter_timelines r : preserves TimelinesOK (disconnectFilter r).
Proof. node_method (FrequencyOf r). Qed.
Lemma disconnectPanner_timelines r : preserves TimelinesOK (disconnectPanner r).
Proof. node_method (PanOf r). Qed.
Lemma setFilterType_timelines r t : preserves TimelinesOK (setFilterType r t).
Proof. node_method (FrequencyOf r). Qed.

Ltac fresh_node :=
  let w := fresh "w" in
  let H := fresh "H" in
  intros w H; destruct H as (?Hg & ?Hf & ?Hp);
  unfold wp, createGain, createBiquadFilter, createStereoPanner, alloc, native, bind,
    TimelinesOK;
  cbn; destruct (faults (audioContext w) (calls (audioContext w))); cbn;
  [ repeat split; assumption |];
  repeat split; try assumption;
  (apply Forall_app; split; [assumption |]);
  apply Forall_cons; (split; [apply ParamOK_nil | apply Forall_nil_2]).

Lemma createGain_timelines : preserves TimelinesOK createGain.
Proof. fresh_node. Qed.
Lemma createBiquadFilter_timelines : preserves TimelinesOK createBiquadFilter.
Proof. fresh_node. Qed.
Lemma createStereoPanner_timelines : preserves TimelinesOK createStereoPanner.
Proof. fresh_node. Qed.

Ltac timelines_lemma :=
  lazymatch goal with
  | |- preserves _ ?m =>
      let h := head_of m in
      lazymatch h with
      | @setValueAtTime => apply setValueAtTime_timelines
      | @linearRampToValueAtTime => apply linearRampToValueAtTime_timelines
      | @exponentialRampToValueAtTime => apply exponentialRampToValueAtTime_timelines
      | @cancelScheduledValues => apply cancelScheduledValues_timelines
      | @setValue => apply setValue_timelines
      | @connectGain => apply connectGain_timelines
      | @connectFilter => apply connectFilter_timelines
      | @connectPanner => apply connectPanner_timelines
      | @disconnectGain => apply disconnectGain_timelines
      | @disconnectFilter => apply disconnectFilter_timelines
      | @disconnectPanner => apply disconnectPanner_timelines
      | @setFilterType => apply setFilterType_timelines
      | @createGain => apply createGain_timelines
      | @createBiquadFilter => apply createBiquadFilter_timelines
      | @createStereoPanner => apply createStereoPanner_timelines
      end
  end.

Ltac timelines_leaf :=
  let w := fresh "w" in
  let H := fresh "H" in
  intros w H;
  unfold wp, TimelinesOK, native, Math_random, modifyAudio, modifyManager, modify in *;
  cbn; try destruct (faults _ _); exact H.

Ltac timelines_ok :=
  repeat first [preserves_step | timelines_lemma | unfold_head]; try timelines_leaf.

Lemma run_keeps_timelines c : preserves TimelinesOK (run c).
Proof. destruct c; timelines_ok. Qed.

Lemma newManager_timelines capacity : preserves TimelinesOK (newManager capacity).
Proof. timelines_ok. Qed.

Lemma reachable_timelines capacity w : reachable capacity w -> TimelinesOK w.
Proof.
  induction 1 as [t0 orc random w Hc | w c _ IH].
  - unfold construct in Hc.
    match type of Hc with
    | _ ?w0 = _ =>
        pose proof (preserves_snd TimelinesOK (newManager capacity) w0
                      (newManager_timelines capacity)) as H
    end.
    rewrite Hc in H. apply H. repeat split; constructor.
  - apply (preserves_snd TimelinesOK); [apply run_keeps_timelines | exact IH].
Qed.

(** ** Release and acquisition of a node triple *)

Lemma native_cases w :
  native w = (Ret tt, tick w) \/
  (native w = (Throw NativeError, tick w) /\ exists k, oracle w k = true).
Proof.
  unfold native, oracle. destruct (faults _ _) eqn:E; [right | left; reflexivity].
  split; [reflexivity | eexists; exact E].
Qed.

Lemma filter_cancel_all a :
  ParamOK a -> List.filter (fun e => Rltb (eventTime e) 0) (timeline a) = [].
Proof.
  unfold ParamOK. induction (timeline a) as [|e l IH]; intros H; [reflexivity |].
  apply Forall_cons in H as [He Hl]. cbn [List.filter].
  rewrite Rltb_false by exact He. apply IH, Hl.
Qed.

(** A platform call that throws has met a fault of the oracle. *)
Definition faulty (w : World) : Prop := exists k, oracle w k = true.

Lemma cancelScheduledValues_resets p a w :
  paramAt p w = Some a -> ParamOK a ->
  wp (cancelScheduledValues p 0)
     (fun _ w' => paramAt p w' = Some (mkParam (value a) [])) (fun _ => faulty w) w.
Proof.
  intros Ha Hok. unfold wp, cancelScheduledValues.
  rewrite (bind_returns _ _ _ _ _ (getParam_returns p w a Ha)).
  destruct (native_cases w) as [En | [En Hf]].
  - rewrite (bind_returns _ _ _ _ _ En). rewrite Rltb_false by lra. cbn [raiseIf].
    rewrite (bind_returns _ _ (tick w) tt (tick w)) by reflexivity.
    rewrite (filter_cancel_all a Hok).
    destruct (putParam_returns p (tick w) a (mkParam (value a) [])) as (w' & E & P & _);
      [rewrite paramAt_tick; exact Ha |].
    rewrite E. exact P.
  - rewrite (bind_throws _ _ _ _ _ En). exact Hf.
Qed.

Lemma setValue_sets p a v w :
  paramAt p w = Some a ->
  wp (setValue p v) (fun _ w' => paramAt p w' = Some (mkParam v (timeline a)))
     (fun _ => faulty w) w.
Proof.
  intros Ha. unfold wp, setValue.
  rewrite (bind_returns _ _ _ _ _ (getParam_returns p w a Ha)).
  destruct (putParam_returns p w a (mkParam v (timeline a))) as (w' & E & P & _);
    [exact Ha |].
  rewrite E. exact P.
Qed.

Ltac disconnect_keeps heap r w Ha :=
  unfold wp, disconnectGain, disconnectFilter, disconnectPanner,
    getGainNode, getFilterNode, getPannerNode;
  cbn [paramAt] in Ha;
  destruct (heap (audioContext w) !! r) as [n|] eqn:En; [| discriminate];
  rewrite (bind_returns _ _ _ _ _ (deref_returns (fun w => heap (audioContext w)) r w n En));
  destruct (native_cases w) as [Ek | [Ek Hf]];
  [ rewrite (bind_returns _ _ _ _ _ Ek); cbn;
    rewrite list_lookup_insert_eq by (eapply lookup_lt_Some; exact En);
    cbn in Ha |- *; exact Ha
  | rewrite (bind_throws _ _ _ _ _ Ek); exact Hf ].

Lemma disconnectGain_keeps_param r a w :
  paramAt (GainOf r) w = Some a ->
  wp (disconnectGain r) (fun _ w' => paramAt (GainOf r) w' = Some a) (fun _ => faulty w) w.
Proof. intros Ha. disconnect_keeps gainHeap r w Ha. Qed.

Lemma disconnectFilter_keeps_param r a w :
  paramAt (FrequencyOf r) w = Some a ->
  wp (disconnectFilter r) (fun _ w' => paramAt (FrequencyOf r) w' = Some a)
     (fun _ => faulty w) w.
Proof. intros Ha. disconnect_keeps filterHeap r w Ha. Qed.

Lemma disconnectPanner_keeps_param r a w :
  paramAt (PanOf r) w = Some a ->
  wp (disconnectPanner r) (fun _ w' => paramAt (PanOf r) w' = Some a) (fun _ => faulty w) w.
Proof. intros Ha. disconnect_keeps pannerHeap r w Ha. Qed.

Lemma wp_step {T B} (proj : World -> T) (m : JS unit) (k : JS B)
      (Qm Em : World -> Prop) Q E w :
  keepsOn proj m -> wp m (fun _ => Qm) Em w ->
  (forall w1, proj w1 = proj w -> Qm w1 -> wp k Q E w1) ->
  (forall w1, proj w1 = proj w -> Em w1 -> E w1) ->
  wp (m ;;; k) Q E w.
Proof.
  intros Hk Hm Hq He. unfold wp in Hm |- *. unfold bind.
  destruct (m w) as [[[]|e] w1] eqn:Em'.
  - apply Hq; [exact (keepsOn_eq proj m w _ _ Hk Em') | exact Hm].
  - apply He; [exact (keepsOn_eq proj m w _ _ Hk Em') | exact Hm].
Qed.

Definition pushed (nodes : NodeTriple) (pool : NodePool) : NodePool :=
  mkPool (gainNodes pool ++ [gainNode nodes]) (filterNodes pool ++ [filterNode nodes])
         (pannerNodes pool ++ [pannerNode nodes]).

(** What the gain, filter and panner calls of a release leave alone. *)
Definition besideGain (w : World) :=
  (nodePool (manager w), filterHeap (audioContext w), pannerHeap (audioContext w), oracle w).
Definition besideFilter (w : World) :=
  (nodePool (manager w), gainHeap (audioContext w), pannerHeap (audioContext w), oracle w).
Definition besidePanner (w : World) :=
  (nodePool (manager w), gainHeap (audioContext w), filterHeap (audioContext w), oracle w).

(** The triple is back in the pool with neutral parameters and nothing
    scheduled on them. *)
Definition neutral (nodes : NodeTriple) (w : World) : Prop :=
  paramAt (GainOf (gainNode nodes)) w = Some (mkParam 1 []) /\
  paramAt (FrequencyOf (filterNode nodes)) w = Some (mkParam DEFAULT_FILTER_FREQUENCY []) /\
  paramAt (PanOf (pannerNode nodes)) w = Some (mkParam 0 []).

Definition released (nodes : NodeTriple) (pool0 : NodePool) (w : World) : Prop :=
  nodePool (manager w) = pushed nodes pool0 /\ neutral nodes w.

Ltac carry Hproj :=
  unfold besideGain, besideFilter, besidePanner in Hproj;
  pose proof (f_equal (fun x => fst (fst (fst x))) Hproj) as Epool;
  pose proof (f_equal (fun x => snd (fst (fst x))) Hproj) as Eleft;
  pose proof (f_equal (fun x => snd (fst x)) Hproj) as Eright;
  pose proof (f_equal snd Hproj) as Eoracle;
  cbn [fst snd] in Epool, Eleft, Eright, Eoracle; clear Hproj;
  repeat match goal with
         | H : nodePool (manager _) = _ |- _ =>
             tryif constr_eq H Epool then fail else (rewrite <- Epool in H; revert H)
         | H : oracle _ = _ |- _ =>
             tryif constr_eq H Eoracle then fail else (rewrite <- Eoracle in H; revert H)
         | H : _ <$> gainHeap (audioContext _) !! _ = _ |- _ =>
             first [rewrite <- Eleft in H | rewrite <- Eright in H]; revert H
         | H : _ <$> filterHeap (audioContext _) !! _ = _ |- _ =>
             first [rewrite <- Eleft in H | rewrite <- Eright in H]; revert H
         | H : _ <$> pannerHeap (audioContext _) !! _ = _ |- _ =>
             first [rewrite <- Eleft in H | rewrite <- Eright in H]; revert H
         end;
  clear Epool Eleft Eright Eoracle; intros.

(** The call threw: the pool is as it was, and the oracle holds a fault. *)
Ltac thrown :=
  let w2 := fresh "w" in
  let Hp := fresh "Hp" in
  let Hf := fresh "Hf" in
  intros w2 Hp Hf; unfold faulty in Hf |- *;
  match goal with Ho : oracle _ = _ |- _ => rewrite Ho in Hf end;
  carry Hp; split; assumption.

Lemma gain_calls_beside g t v :
  keepsOn besideGain (cancelScheduledValues (GainOf g) t) /\
  keepsOn besideGain (setValue (GainOf g) v) /\
  keepsOn besideGain (disconnectGain g).
Proof. split; [| split]; frame. Qed.

Lemma filter_calls_beside f t v :
  keepsOn besideFilter (cancelScheduledValues (FrequencyOf f) t) /\
  keepsOn besideFilter (setValue (FrequencyOf f) v) /\
  keepsOn besideFilter (disconnectFilter f).
Proof. split; [| split]; frame. Qed.

Lemma panner_calls_beside p t v :
  keepsOn besidePanner (cancelScheduledValues (PanOf p) t) /\
  keepsOn besidePanner (setValue (PanOf p) v) /\
  keepsOn besidePanner (disconnectPanner p).
Proof. split; [| split]; frame. Qed.

Definition resetAndPush (nodes : NodeTriple) : JS unit :=
  cancelScheduledValues (GainOf (gainNode nodes)) 0 ;;;
  setValue (GainOf (gainNode nodes)) 1 ;;;
  disconnectGain (gainNode nodes) ;;;
  cancelScheduledValues (FrequencyOf (filterNode nodes)) 0 ;;;
  setValue (FrequencyOf (filterNode nodes)) DEFAULT_FILTER_FREQUENCY ;;;
  disconnectFilter (filterNode nodes) ;;;
  cancelScheduledValues (PanOf (pannerNode nodes)) 0 ;;;
  setValue (PanOf (pannerNode nodes)) 0 ;;;
  disconnectPanner (pannerNode nodes) ;;;
  pushGainNode (gainNode nodes) ;;;
  pushFilterNode (filterNode nodes) ;;;
  pushPannerNode (pannerNode nodes).

Lemma returnNodesToPool_body nodes : returnNodesToPool nodes = tryCatch (resetAndPush nodes) (fun _ => ret tt).
Proof. reflexivity. Qed.

Lemma resetAndPush_wp nodes w aG aF aP :
  paramAt (GainOf (gainNode nodes)) w = Some aG ->
  paramAt (FrequencyOf (filterNode nodes)) w = Some aF ->
  paramAt (PanOf (pannerNode nodes)) w = Some aP ->
  ParamOK aG -> ParamOK aF -> ParamOK aP ->
  wp (resetAndPush nodes)
     (fun _ w' => released nodes (nodePool (manager w)) w')
     (fun w' => nodePool (manager w') = nodePool (manager w) /\ faulty w) w.
Proof.
  intros HG HF HP OG OF OP. unfold resetAndPush.
  set (pool0 := nodePool (manager w)).
  assert (Hpool : nodePool (manager w) = pool0) by reflexivity. clearbody pool0.
  set (o0 := oracle w). unfold faulty. fold o0.
  assert (Horacle : oracle w = o0) by reflexivity. clearbody o0.
  cbn [paramAt] in HF, HP.
  destruct (gain_calls_beside (gainNode nodes) 0 1) as (KG1 & KG2 & KG3).
  destruct (filter_calls_beside (filterNode nodes) 0 DEFAULT_FILTER_FREQUENCY)
    as (KF1 & KF2 & KF3).
  destruct (panner_calls_beside (pannerNode nodes) 0 0) as (KP1 & KP2 & KP3).
  (* gain *)
  apply (wp_step besideGain _ _ _ _ _ _ _ KG1 (cancelScheduledValues_resets _ _ _ HG OG));
    [| thrown].
  clear HG. intros w1 Hp HG. carry Hp. clear w.
  apply (wp_step besideGain _ _ _ _ _ _ _ KG2 (setValue_sets _ _ 1 _ HG)); [| thrown].
  clear HG. intros w Hp HG. carry Hp. clear w1. cbn [timeline] in HG.
  apply (wp_step besideGain _ _ _ _ _ _ _ KG3 (disconnectGain_keeps_param _ _ _ HG));
    [| thrown].
  clear HG. intros w1 Hp HG. carry Hp. clear w. cbn [paramAt] in HG.
  (* filter *)
  match goal with H : frequency <$> _ = Some aF |- _ =>
    change (paramAt (FrequencyOf (filterNode nodes)) w1 = Some aF) in H; rename H into HF' end.
  apply (wp_step besideFilter _ _ _ _ _ _ _ KF1 (cancelScheduledValues_resets _ _ _ HF' OF));
    [| thrown].
  clear HF'. intros w Hp HF'. carry Hp. clear w1.
  apply (wp_step besideFilter _ _ _ _ _ _ _ KF2
           (setValue_sets _ _ DEFAULT_FILTER_FREQUENCY _ HF')); [| thrown].
  clear HF'. intros w1 Hp HF'. carry Hp. clear w. cbn [timeline] in HF'.
  apply (wp_step besideFilter _ _ _ _ _ _ _ KF3 (disconnectFilter_keeps_param _ _ _ HF'));
    [| thrown].
  clear HF'. intros w Hp HF'. carry Hp. clear w1. cbn [paramAt] in HF'.
  (* panner *)
  match goal with H : pan <$> _ = Some aP |- _ =>
    change (paramAt (PanOf (pannerNode nodes)) w = Some aP) in H; rename H into HP' end.
  apply (wp_step besidePanner _ _ _ _ _ _ _ KP1 (cancelScheduledValues_resets _ _ _ HP' OP));
    [| thrown].
  clear HP'. intros w1 Hp HP'. carry Hp. clear w.
  apply (wp_step besidePanner _ _ _ _ _ _ _ KP2 (setValue_sets _ _ 0 _ HP')); [| thrown].
  clear HP'. intros w Hp HP'. carry Hp. clear w1. cbn [timeline] in HP'.
  apply (wp_step besidePanner _ _ _ _ _ _ _ KP3 (disconnectPanner_keeps_param _ _ _ HP'));
    [| thrown].
  clear HP'. intros w1 Hp HP'. carry Hp. clear w. cbn [paramAt] in HP'.
  (* back into the pool *)
  unfold wp, pushGainNode, pushFilterNode, pushPannerNode, modifyManager, modify, bind,
    released, neutral.
  cbn.
  match goal with H : nodePool (manager w1) = pool0 |- _ => rewrite H end.
  repeat split; assumption.
Qed.

Lemma getPooledNodes_after_release nodes pool0 w :
  released nodes pool0 w ->
  exists w', getPooledNodes w = (Ret nodes, w') /\
             nodePool (manager w') = pool0 /\ neutral nodes w'.
Proof.
  destruct w as [ac rs rd gh [mv av cq lc mg pool]].
  destruct nodes as [g f p]. destruct pool0 as [gs fs ps].
  unfold released, neutral, pushed. cbn. intros [-> Hn].
  unfold getPooledNodes, tryCatch, bind, popGainNode, popFilterNode, popPannerNode,
    modifyManager, modify, get, Array_pop. cbn.
  repeat (progress (rewrite ?last_snoc, ?removelast_last; cbn)).
  eexists. split; [reflexivity |]. cbn. split; [reflexivity | exact Hn].
Qed.

(** The references of a triple denote nodes of the audio context. *)
Definition allocated (nodes : NodeTriple) (w : World) : Prop :=
  gainNode nodes < length (gainHeap (audioContext w)) /\
  filterNode nodes < length (filterHeap (audioContext w)) /\
  pannerNode nodes < length (pannerHeap (audioContext w)).

Lemma paramAt_allocated nodes w :
  allocated nodes w ->
  paramAt (GainOf (gainNode nodes)) w = Some (paramOf (GainOf (gainNode nodes)) w) /\
  paramAt (FrequencyOf (filterNode nodes)) w
    = Some (paramOf (FrequencyOf (filterNode nodes)) w) /\
  paramAt (PanOf (pannerNode nodes)) w = Some (paramOf (PanOf (pannerNode nodes)) w).
Proof.
  intros (Hg & Hf & Hp). cbn [paramAt paramOf].
  apply lookup_lt_is_Some in Hg as [x Hg]. apply lookup_lt_is_Some in Hf as [y Hf].
  apply lookup_lt_is_Some in Hp as [z Hp].
  rewrite (list_lookup_total_correct _ _ _ Hg), (list_lookup_total_correct _ _ _ Hf),
    (list_lookup_total_correct _ _ _ Hp), Hg, Hf, Hp.
  repeat split.
Qed.

(** C7: release never throws.  When the triple re-enters the pool, its gain
    is 1, its filter frequency the default and its pan 0, with nothing
    scheduled on any of the three, and the acquisition that follows hands
    out this same triple in this state; otherwise a platform call failed and
    the pool is as it was.  Without platform faults the triple always
    re-enters the pool. *)
Theorem C7_released_triple_is_neutral capacity w nodes :
  reachable capacity w -> allocated nodes w ->
  exists w',
    returnNodesToPool nodes w = (Ret tt, w') /\
    ((nodePool (manager w') = nodePool (manager w) /\ faulty w) \/
     (released nodes (nodePool (manager w)) w' /\
      exists w'', getPooledNodes w' = (Ret nodes, w'') /\
                  nodePool (manager w'') = nodePool (manager w) /\ neutral nodes w'')) /\
    (NoFaults w -> released nodes (nodePool (manager w)) w').
Proof.
  intros Hr Ha.
  destruct (paramAt_allocated nodes w Ha) as (HG & HF & HP).
  pose proof (reachable_timelines capacity w Hr) as Hok.
  pose proof (resetAndPush_wp nodes w _ _ _ HG HF HP
                (paramOf_ok _ w Hok) (paramOf_ok _ w Hok) (paramOf_ok _ w Hok)) as Hwp.
  exists (snd (resetAndPush nodes w)).
  rewrite returnNodesToPool_body, tryCatch_unit. split; [reflexivity |].
  unfold wp in Hwp. destruct (resetAndPush nodes w) as [[[]|e] w'] eqn:E; cbn [snd].
  - split; [right; split; [exact Hwp | apply getPooledNodes_after_release, Hwp] |].
    intros _. exact Hwp.
  - split; [left; exact Hwp |].
    intros Hq. destruct Hwp as [_ [k Hk]]. unfold oracle in Hk. rewrite (Hq k) in Hk.
    discriminate.
Qed.

(** ** Containment of failures *)

(** A platform on which every call fails. *)
Definition withOracle (orc : nat -> bool) (w : World) : World :=
  let a := audioContext w in
  setAudio (mkContext (currentTime a) orc (calls a) (gainHeap a) (filterHeap a)
                           (pannerHeap a) (sourceHeap a)) w.





(** ** The values a trigger hands to createGrain *)

Section TriggerRanges.
Local Open Scope R_scope.

(** [Math.random()] returns a number of [0, 1). *)
Definition UnitRandom (w : World) : Prop := forall n, 0 <= randomSource w n < 1.

Lemma trunc_floor x : 0 <= x -> trunc x <= x < trunc x + 1.
Proof.
  intros Hx. unfold trunc. destruct (Rle_dec 0 x) as [_ | H]; [| contradiction].
  destruct (base_Int_part x) as [H1 H2]. lra.
Qed.

Lemma rem_range x y : 0 <= x -> 0 < y -> 0 <= rem x y < y.
Proof.
  intros Hx Hy. unfold rem.
  assert (Hq : 0 <= x / y) by (apply Rmult_le_pos; [lra | apply Rlt_le, Rinv_0_lt_compat, Hy]).
  destruct (trunc_floor (x / y) Hq) as [H1 H2].
  assert (E : x = y * (x / y)) by (field; lra).
  split.
  - assert (y * trunc (x / y) <= y * (x / y)) by (apply Rmult_le_compat_l; lra). lra.
  - assert (y * (x / y) < y * (trunc (x / y) + 1)) by (apply Rmult_lt_compat_l; lra). lra.
Qed.

Lemma _getLFOValue_keeps_random waveform rate time w :
  randomSource (snd (_getLFOValue waveform rate time w)) = randomSource w.
Proof.
  unfold _getLFOValue. destruct waveform as [|p|p]; try reflexivity.
  do 2 (try destruct p as [p|p|]); reflexivity.
Qed.

Theorem _getLFOValue_in_unit_interval waveformType rate time w :
  0 <= rate -> 0 <= time -> UnitRandom w ->
  exists v w', _getLFOValue waveformType rate time w = (Ret v, w') /\ 0 <= v <= 1.
Proof.
  intros Hr Ht Hu.
  assert (Hx : 0 <= time * rate) by (apply Rmult_le_pos; assumption).
  assert (Hsine : 0 <= (sin (2 * PI * rate * time) + 1) / 2 <= 1)
    by (pose proof (SIN_bound (2 * PI * rate * time)); lra).
  assert (Htri : 0 <= 1 - Rabs (rem (time * rate) 2 - 1) <= 1).
  { pose proof (rem_range (time * rate) 2 Hx ltac:(lra)) as Hrem.
    pose proof (Rabs_pos (rem (time * rate) 2 - 1)).
    assert (Rabs (rem (time * rate) 2 - 1) <= 1) by (apply Rabs_le; lra). lra. }
  assert (Hsq : 0 <= (if Rltb (rem (time * rate) 1) 0.5 then 0 else 1) <= 1)
    by (destruct (Rltb _ _); lra).
  assert (Hrand : 0 <= randomSource w (randomDraws w) <= 1)
    by (pose proof (Hu (randomDraws w)); lra).
  assert (Hdef : 0 <= 0.5 <= 1) by lra.
  unfold _getLFOValue, Math_random, ret.
  destruct waveformType as [|p|p]; [eexists _, _; split; [reflexivity | exact Hsine] | |
                                    eexists _, _; split; [reflexivity | exact Hdef]].
  do 2 (try destruct p as [p|p|]); eexists _, _; (split; [reflexivity | assumption]).
Qed.

Lemma _getLFOValue_in_unit_interval_witness :
  (0 <= 2) /\ (0 <= 0.25) /\ UnitRandom (studio 1) /\
  exists v w', _getLFOValue 1 2 0.25 (studio 1) = (Ret v, w') /\ 0 <= v <= 1.
Proof.
  assert (Hu : UnitRandom (studio 1)) by (intros n; rewrite studio_random; lra).
  split; [lra |]. split; [lra |]. split; [exact Hu |].
  apply (_getLFOValue_in_unit_interval 1 2 0.25 (studio 1)); [lra | lra | exact Hu].
Defined.

(** With a negative phase the remainder keeps the sign of [time * rate], and
    the triangle wave leaves the unit interval. *)
Theorem _getLFOValue_triangle_negative_phase rate time w :
  -2 < time * rate < 0 ->
  _getLFOValue 1 rate time w = (Ret (time * rate), w).
Proof.
  unfold _getLFOValue, ret. generalize (time * rate). intros x [H1 H2]. do 2 f_equal.
  assert (Hq : trunc (x / 2) = 0).
  { unfold trunc. destruct (Rle_dec 0 (x / 2)) as [H | _]; [lra |].
    assert (Hi : Int_part (- (x / 2)) = 0%Z).
    { symmetry. apply Int_part_spec. cbn. lra. }
    rewrite Hi. cbn. lra. }
  unfold rem. rewrite Hq. rewrite Rabs_left by lra. lra.
Qed.

Lemma _getLFOValue_triangle_negative_phase_witness :
  -2 < (-0.5) * 1 < 0 /\
  _getLFOValue 1 1 (-0.5) (studio 1) = (Ret ((-0.5) * 1), studio 1).
Proof.
  assert (H : -2 < (-0.5) * 1 < 0) by lra.
  split; [exact H |]. exact (_getLFOValue_triangle_negative_phase 1 (-0.5) (studio 1) H).
Defined.

Lemma Rmax_Rmin_range lo hi x : lo <= hi -> lo <= Rmax lo (Rmin hi x) <= hi.
Proof. intros H. unfold Rmax, Rmin. repeat destruct (Rle_dec _ _); lra. Qed.

Lemma grainRequest_returns buffer params lfoStartTime w :
  exists q w', grainRequest buffer params lfoStartTime w = (Ret q, w') /\
    randomSource w' = randomSource w /\
    requestDuration q = grainSize params / 1000 /\
    0 <= requestPosition q /\
    (grainSize params / 1000 <= duration buffer ->
     requestPosition q <= duration buffer - grainSize params / 1000) /\
    (duration buffer <= grainSize params / 1000 -> requestPosition q = 0) /\
    (spread params <= 0 ->
     requestParams q = params /\ requestStartTime q = currentTime (audioContext w)) /\
    (0 < spread params ->
     0.1 <= playbackRate (requestParams q) <= 2 /\
     -1 <= panControl (requestParams q) <= 1 /\
     (UnitRandom w ->
      Rabs (requestStartTime q - currentTime (audioContext w)) <= spread params / 100 * 0.02)).
Proof.
  destruct (_getLFOValue_returns (lfoWaveform params) (lfoRate params)
              (currentTime (audioContext w) - lfoStartTime) w) as (lfoVal & wl & El).
  pose proof (_getLFOValue_keeps_random (lfoWaveform params) (lfoRate params)
                (currentTime (audioContext w) - lfoStartTime) w) as Hl.
  rewrite El in Hl. cbn [snd] in Hl.
  unfold grainRequest.
  rewrite (bind_returns _ _ w w w) by reflexivity. cbv zeta.
  rewrite (bind_returns _ _ _ _ _ El).
  destruct (Rlt_dec 0 (spread params)) as [Hs | Hs].
  - rewrite (Rltb_true 0 (spread params / 100)) by lra.
    unfold bind, Math_random, ret. cbn.
    eexists _, _. split; [reflexivity |]. cbn.
    split; [exact Hl |]. split; [reflexivity |].
    split; [apply Rmax_l |].
    split; [intros H; apply Rmax_lub; [lra | apply Rmin_l] |].
    split; [intros H; apply Rle_antisym; [apply Rmax_lub; [lra |] | apply Rmax_l];
            eapply Rle_trans; [apply Rmin_l | lra] |].
    split; [intros H; lra |]. intros _.
    split; [match goal with |- _ <= Rmax ?lo (Rmin ?hi ?x) <= _ =>
              pose proof (Rmax_Rmin_range lo hi x ltac:(lra)); lra end |].
    split; [match goal with |- _ <= Rmax ?lo (Rmin ?hi ?x) <= _ =>
              pose proof (Rmax_Rmin_range lo hi x ltac:(lra)); lra end |].
    intros Hu. rewrite Hl.
    match goal with |- Rabs (_ + (randomSource w ?n - 0.5) * 2 * _ - _) <= _ =>
      pose proof (Hu n) as Hn; set (r := randomSource w n) in * end.
    apply Rabs_le.
    assert (0 <= spread params / 100 * 0.02) by lra.
    assert (-1 <= (r - 0.5) * 2 <= 1) by lra.
    split; nra.
  - rewrite (Rltb_false 0 (spread params / 100)) by lra.
    unfold bind, Math_random, ret. cbn.
    eexists _, _. split; [reflexivity |]. cbn.
    split; [exact Hl |]. split; [reflexivity |].
    split; [apply Rmax_l |].
    split; [intros H; apply Rmax_lub; [lra | apply Rmin_l] |].
    split; [intros H; apply Rle_antisym; [apply Rmax_lub; [lra |] | apply Rmax_l];
            eapply Rle_trans; [apply Rmin_l | lra] |].
    split; [intros _; split; reflexivity | intros H; lra].
Qed.

(** The position handed to [createGrain] is never negative and never beyond
    the last position from which the whole grain fits in the buffer (0 when
    the grain is longer than the buffer), whatever spread, LFO and random
    draws. *)
Theorem grainRequest_position_in_buffer buffer params lfoStartTime w :
  exists q w', grainRequest buffer params lfoStartTime w = (Ret q, w') /\
    requestDuration q = grainSize params / 1000 /\
    0 <= requestPosition q <= Rmax 0 (duration buffer - requestDuration q).
Proof.
  destruct (grainRequest_returns buffer params lfoStartTime w)
    as (q & w' & E & _ & Hd & H0 & Hfit & Hshort & _).
  exists q, w'. split; [exact E |]. split; [exact Hd |]. split; [exact H0 |].
  rewrite Hd. unfold Rmax. destruct (Rle_dec 0 (duration buffer - grainSize params / 1000)).
  - apply Hfit. lra.
  - rewrite Hshort by lra. lra.
Qed.

(** With a positive spread the playback rate handed to [createGrain] lies in
    [0.1, 2], the pan in [-1, 1], and the start time within
    0.02 * spread / 100 seconds of the clock. *)
Theorem grainRequest_spread_ranges buffer params lfoStartTime w :
  0 < spread params -> UnitRandom w ->
  exists q w', grainRequest buffer params lfoStartTime w = (Ret q, w') /\
    0.1 <= playbackRate (requestParams q) <= 2 /\
    -1 <= panControl (requestParams q) <= 1 /\
    Rabs (requestStartTime q - currentTime (audioContext w)) <= spread params / 100 * 0.02.
Proof.
  intros Hs Hu.
  destruct (grainRequest_returns buffer params lfoStartTime w)
    as (q & w' & E & _ & _ & _ & _ & _ & _ & H).
  destruct (H Hs) as (Hr & Hp & Ht).
  exists q, w'. split; [exact E |]. split; [exact Hr |]. split; [exact Hp |]. exact (Ht Hu).
Qed.

Definition wideKnobs : Params :=
  mkParams 0 1.9 100 3 200 0 350 10 4 0 0.5 100 0.9 0.1 0.7.

Lemma grainRequest_spread_ranges_witness :
  0 < spread wideKnobs /\ UnitRandom (studio 1) /\
  exists q w', grainRequest demoBuffer wideKnobs 0 (studio 1) = (Ret q, w') /\
    0.1 <= playbackRate (requestParams q) <= 2 /\
    -1 <= panControl (requestParams q) <= 1 /\
    Rabs (requestStartTime q - currentTime (audioContext (studio 1)))
    <= spread wideKnobs / 100 * 0.02.
Proof.
  assert (Hs : 0 < spread wideKnobs) by (cbn; lra).
  assert (Hu : UnitRandom (studio 1)) by (intros n; rewrite studio_random; lra).
  split; [exact Hs |]. split; [exact Hu |].
  exact (grainRequest_spread_ranges demoBuffer wideKnobs 0 (studio 1) Hs Hu).
Defined.
End TriggerRanges.


(** ** What a batch of cleanups leaves behind *)

Definition countOf (x : Registry) : Z := let '(_, _, _, _, count) := x in count.

Lemma isActive_in_range (heap : list Grain) g : isActive (heap !!! g) = true -> g < length heap.
Proof.
  intros H. destruct (decide (g < length heap)) as [Hlt | Hge]; [exact Hlt |].
  rewrite list_lookup_total_alt, lookup_ge_None_2 in H by lia. discriminate.
Qed.

Lemma cleanupGrainR_off g x : isActive (heapOf (cleanupGrainR g x) !!! g) = false.
Proof.
  destruct x as [[[[heap mv] active] queue] lc]. cbn.
  destruct (isActive (heap !!! g)) eqn:Hon; cbn; [| exact Hon].
  rewrite list_lookup_total_insert_eq by (apply isActive_in_range, Hon). reflexivity.
Qed.

Lemma cleanupGrainR_keeps_off g g' x :
  isActive (heapOf x !!! g) = false -> isActive (heapOf (cleanupGrainR g' x) !!! g) = false.
Proof.
  destruct x as [[[[heap mv] active] queue] lc]. cbn. intros Hoff.
  destruct (isActive (heap !!! g')) eqn:Hon; cbn; [| exact Hoff].
  destruct (decide (g' = g)) as [-> | Hne]; [congruence |].
  rewrite list_lookup_total_insert_ne by exact Hne. exact Hoff.
Qed.

Lemma cleanupGrainR_active g x h :
  RegistryOK x -> h ∈ activeOf (cleanupGrainR g x) <-> h ∈ activeOf x /\ h <> g.
Proof.
  destruct x as [[[[heap mv] active] queue] lc]. cbn. intros (_ & Hact & _).
  destruct (isActive (heap !!! g)) eqn:Hon; cbn.
  - apply Set_delete_elem.
  - split; [| intros [H _]; exact H]. intros H. split; [exact H |]. intros ->.
    destruct (Hact g H) as [_ Hg]. congruence.
Qed.

Lemma cleanupGrainR_heap_length g x :
  length (heapOf (cleanupGrainR g x)) = length (heapOf x).
Proof.
  destruct x as [[[[heap mv] active] queue] lc]. cbn.
  destruct (isActive _); cbn; [apply length_insert | reflexivity].
Qed.

Lemma cleanupGrainR_countOf g x : countOf (cleanupGrainR g x) = countOf x.
Proof.
  destruct x as [[[[heap mv] active] queue] lc]. cbn. destruct (isActive _); reflexivity.
Qed.

(** The grains of [gs] are off and out of the set; the other members stay. *)
Lemma cleaned_all gs : forall x,
  RegistryOK x ->
  let x' := foldl (fun x g => cleanupGrainR g x) x gs in
  RegistryOK x' /\
  (forall g, g ∈ gs -> isActive (heapOf x' !!! g) = false) /\
  (forall h, h ∈ activeOf x' <-> h ∈ activeOf x /\ h ∉ gs) /\
  (forall h, isActive (heapOf x !!! h) = false -> isActive (heapOf x' !!! h) = false).
Proof.
  induction gs as [|g gs IH]; intros x Hx; cbn [foldl].
  - split; [exact Hx |]. split; [intros g H; inversion H |].
    split; [| trivial]. intros h. split; [intros H; split; [exact H | intros H'; inversion H'] | tauto].
  - destruct (IH (cleanupGrainR g x) (cleanupGrainR_ok g x Hx)) as (Hok & Hoff & Hact & Hkeep).
    split; [exact Hok |]. split; [| split].
    + intros g' Hg'. apply elem_of_cons in Hg' as [-> | Hg']; [| apply Hoff, Hg'].
      apply Hkeep, cleanupGrainR_off.
    + intros h. rewrite Hact, (cleanupGrainR_active g x h Hx), elem_of_cons. tauto.
    + intros h Hh. apply Hkeep, cleanupGrainR_keeps_off, Hh.
Qed.

Lemma no_members (l : list nat) : (forall h, h ∉ l) -> l = [].
Proof. destruct l as [|a l]; [trivial |]. intros H. destruct (H a). left. Qed.

Lemma stopAll_returns_stopped capacity w :
  reachable capacity w ->
  exists w',
    stopAll w = (Ret tt, w') /\
    activeVoices (manager w') = [] /\
    cleanupQueue (manager w') = [] /\
    (forall g, g ∈ activeVoices (manager w) -> isActive (grainHeap w' !!! g) = false) /\
    (forall g, isActive (grainHeap w !!! g) = false -> isActive (grainHeap w' !!! g) = false).
Proof.
  intros Hr. pose proof (reachable_RegistryOK capacity w Hr) as Hok.
  unfold stopAll. rewrite tryCatch_unit. eexists. split; [reflexivity |].
  rewrite (bind_returns _ _ w w w) by reflexivity.
  destruct (forEach_cleanupGrain_registry (activeVoices (manager w)) w) as (w1 & E & R).
  rewrite (bind_returns _ _ _ _ _ E). cbn.
  destruct (cleaned_all (activeVoices (manager w)) (registry w) Hok) as (_ & Hoff & Hact & Hkeep).
  cbv zeta in Hoff, Hact, Hkeep. rewrite <- R in Hoff, Hact, Hkeep.
  change (heapOf (registry w1)) with (grainHeap w1) in *.
  change (activeOf (registry w1)) with (activeVoices (manager w1)) in *.
  change (activeOf (registry w)) with (activeVoices (manager w)) in *.
  change (heapOf (registry w)) with (grainHeap w) in *.
  split; [| split; [reflexivity | split; [exact Hoff | exact Hkeep]]].
  apply no_members. intros h Hh. apply Hact in Hh. tauto.
Qed.

(** stopAll returns; afterwards no voice is active, every grain that was in
    the active set is off, and the cleanup queue is empty. *)
Theorem stopAll_stops_every_voice capacity w :
  reachable capacity w ->
  exists w',
    stopAll w = (Ret tt, w') /\
    activeVoices (manager w') = [] /\
    cleanupQueue (manager w') = [] /\
    (forall g, g ∈ activeVoices (manager w) -> isActive (grainHeap w' !!! g) = false) /\
    (forall g, isActive (grainHeap w !!! g) = false -> isActive (grainHeap w' !!! g) = false).
Proof. exact (stopAll_returns_stopped capacity w). Qed.

Lemma stopAll_stops_every_voice_witness :
  reachable 1 (runAll twoGrains (studio 1)) /\
  exists w', stopAll (runAll twoGrains (studio 1)) = (Ret tt, w') /\
             activeVoices (manager w') = [] /\ isActive (grainHeap w' !!! 1) = false.
Proof.
  split; [exact twoGrains_reachable |].
  destruct (stopAll_stops_every_voice 1 (runAll twoGrains (studio 1)) twoGrains_reachable)
    as (w' & E & Ha & _ & Hoff & _).
  exists w'. split; [exact E |]. split; [exact Ha |].
  apply Hoff. rewrite twoGrains_active. left.
Defined.

(** ** The drain *)

Lemma filter_all_pending now (q : list CleanupItem) :
  Forall (fun item => pending now item = true) q -> List.filter (pending now) q = q.
Proof.
  induction 1 as [|item q Hi _ IH]; [reflexivity |]. cbn. rewrite Hi, IH. reflexivity.
Qed.

Lemma filter_none_due now (q : list CleanupItem) :
  Forall (fun item => pending now item = true) q -> List.filter (due now) q = [].
Proof.
  induction 1 as [|item q Hi _ IH]; [reflexivity |]. cbn.
  unfold pending in Hi. destruct (due now item); [discriminate | exact IH].
Qed.

Lemma filtered_pending now (q : list CleanupItem) :
  Forall (fun item => pending now item = true) (List.filter (pending now) q).
Proof. apply Forall_forall. intros item H. apply elem_of_List_filter in H. tauto. Qed.

(** With nothing due the drain changes nothing at all. *)
Lemma performCleanup_nothing_due w :
  Forall (fun item => pending (currentTime (audioContext w)) item = true)
         (cleanupQueue (manager w)) ->
  performCleanup w = (Ret tt, w).
Proof.
  intros Hq. unfold performCleanup. rewrite tryCatch_unit.
  rewrite (bind_returns _ _ w w w) by reflexivity. cbv zeta.
  rewrite (bind_returns _ _ _ _ _
             (performCleanupLoop_returns (currentTime (audioContext w))
                (cleanupQueue (manager w)) [] [] w (eq_sym (app_nil_r _)))).
  rewrite (filter_none_due _ _ Hq), (filter_all_pending _ _ Hq), app_nil_r. cbn.
  destruct w as [a rs rd h m]. destruct m as [mv av cq lc mg pool]. cbn.
  rewrite app_nil_r. reflexivity.
Qed.

Lemma pending_later now item : pending now item = true <-> (now < time item)%R.
Proof.
  unfold pending, due, Rleb. destruct (Rle_dec (time item) now); cbn; split; intros H;
    try discriminate; try reflexivity; lra.
Qed.

Lemma run_keeps_time_performCleanup :
  keepsOn (fun w => currentTime (audioContext w)) performCleanup.
Proof. frame. Qed.

(** The drain returns.  It keeps, in their order, exactly the entries whose
    time is after the clock; the grain of every entry it removes is off and
    out of the active set; and a second drain at the same clock changes
    nothing. *)
Theorem performCleanup_drains_what_is_due capacity w :
  reachable capacity w ->
  exists w',
    performCleanup w = (Ret tt, w') /\
    cleanupQueue (manager w')
    = List.filter (pending (currentTime (audioContext w))) (cleanupQueue (manager w)) /\
    Forall (fun item => (currentTime (audioContext w) < time item)%R)
           (cleanupQueue (manager w')) /\
    (forall item, item ∈ cleanupQueue (manager w) ->
       (time item <= currentTime (audioContext w))%R ->
       isActive (grainHeap w' !!! grain item) = false /\
       grain item ∉ activeVoices (manager w')) /\
    (forall h, h ∈ activeVoices (manager w') -> h ∈ activeVoices (manager w)) /\
    performCleanup w' = (Ret tt, w').
Proof.
  intros Hr. pose proof (reachable_RegistryOK capacity w Hr) as Hok.
  destruct (performCleanup_registry w) as (w' & E & R).
  exists w'. split; [exact E |].
  set (now := currentTime (audioContext w)) in *.
  assert (Hq : cleanupQueue (manager w') = List.filter (pending now) (cleanupQueue (manager w))).
  { rewrite <- !queueOf_registry, R. apply performCleanupR_queue. }
  split; [exact Hq |].
  assert (Hlater : Forall (fun item => pending now item = true) (cleanupQueue (manager w'))).
  { rewrite Hq. apply filtered_pending. }
  split; [eapply Forall_impl; [exact Hlater | intros item; apply pending_later] |].
  assert (Hnow : currentTime (audioContext w') = now).
  { pose proof (keepsOn_eq _ _ _ _ _ run_keeps_time_performCleanup E) as H. exact H. }
  unfold registry in R at 2. unfold performCleanupR in R.
  pose proof (filtered_queue_ok (pending now) _ _ _ _ _ Hok) as Hok'.
  destruct (cleaned_all (reverse (map grain (List.filter (due now) (cleanupQueue (manager w)))))
              _ Hok') as (_ & Hoff & Hact & _).
  cbv zeta in Hoff, Hact. rewrite <- R in Hoff, Hact.
  change (heapOf (registry w')) with (grainHeap w') in *.
  change (activeOf (registry w')) with (activeVoices (manager w')) in *.
  cbn [activeOf] in Hact.
  split; [| split].
  - intros item Hi Hdue.
    assert (Hin : grain item ∈ reverse (map grain (List.filter (due now) (cleanupQueue (manager w))))).
    { apply elem_of_reverse, list_elem_of_fmap. exists item. split; [reflexivity |].
      apply elem_of_List_filter. split; [exact Hi |].
      unfold due, Rleb. destruct (Rle_dec (time item) now); [reflexivity | contradiction]. }
    split; [apply Hoff, Hin |]. intros H. apply Hact in H. tauto.
  - intros h H. apply Hact in H. tauto.
  - apply performCleanup_nothing_due. rewrite Hnow. exact Hlater.
Qed.

Lemma performCleanup_drains_what_is_due_witness :
  reachable 1 (runAll twoGrains (studio 1)) /\
  exists w', performCleanup (runAll twoGrains (studio 1)) = (Ret tt, w') /\
             performCleanup w' = (Ret tt, w').
Proof.
  split; [exact twoGrains_reachable |].
  destruct (performCleanup_drains_what_is_due 1 (runAll twoGrains (studio 1))
              twoGrains_reachable) as (w' & E & _ & _ & _ & _ & E').
  exists w'. split; assumption.
Defined.

(** ** One createGrain call *)

Lemma foldl_cleanupGrainR_countOf gs x :
  countOf (foldl (fun x g => cleanupGrainR g x) x gs) = countOf x.
Proof.
  apply (foldl_cleanupGrainR (fun y => countOf y = countOf x)); [| reflexivity].
  intros g y Hy. rewrite cleanupGrainR_countOf. exact Hy.
Qed.

Lemma prepareR_countOf now x : countOf (prepareR now x) = (countOf x + 1)%Z.
Proof.
  unfold prepareR.
  assert (H1 : countOf (counted x) = (countOf x + 1)%Z)
    by (destruct x as [[[[heap mv] active] queue] lc]; reflexivity).
  assert (H2 : countOf (drained now (counted x)) = (countOf x + 1)%Z).
  { rewrite <- H1. generalize (counted x). intros y. unfold drained.
    destruct y as [[[[heap mv] active] queue] lc]. destruct (_ =? _)%Z; [| reflexivity].
    unfold performCleanupR. rewrite foldl_cleanupGrainR_countOf. reflexivity. }
  rewrite <- H2. generalize (drained now (counted x)). intros y. unfold evicted.
  destruct y as [[[[heap mv] active] queue] lc]. destruct (_ >=? _)%Z; [| reflexivity].
  apply (forceCleanupOldestR_keeps (fun z => countOf z = lc)); [| reflexivity].
  intros g z Hz. rewrite cleanupGrainR_countOf. exact Hz.
Qed.

Lemma prepareR_heap_length now x : length (heapOf (prepareR now x)) = length (heapOf x).
Proof.
  apply (prepareR_keeps (fun y => length (heapOf y) = length (heapOf x))); [| trivial | reflexivity].
  intros g y Hy. rewrite cleanupGrainR_heap_length. exact Hy.
Qed.

Lemma created_countOf x endT o x' t : created x endT o x' -> countOf (admitR o t x') = countOf x.
Proof.
  destruct x as [[[[heap mv] active] queue] lc]. cbn. intros (tail & -> & _).
  destruct o; reflexivity.
Qed.

(** Every call of createGrain counts, whether it makes a grain or not. *)
Lemma createGrain_counts buffer params startTime duration position w :
  exists o w',
    createGrain buffer params startTime duration position w = (Ret o, w') /\
    lastCleanup (manager w') = (lastCleanup (manager w) + 1)%Z.
Proof.
  destruct (createGrain_registry buffer params startTime duration position w)
    as (o & w' & x & E & Hc & Hr).
  exists o, w'. split; [exact E |].
  change (countOf (registry w') = (countOf (registry w) + 1)%Z).
  rewrite Hr, (created_countOf _ _ _ _ _ Hc). apply prepareR_countOf.
Qed.

(** On a platform without faults, with start time, position and duration not
    negative, createGrain returns a new handle: the grain is active, ends at
    startTime + duration, is in the active set, and its cleanup entry, at
    0.1 s after its end, is the last of the queue. *)
Theorem createGrain_admits_a_grain buffer params startTime duration position w :
  NoFaults w -> (0 <= startTime)%R -> (0 <= position)%R -> (0 <= duration)%R ->
  exists g w',
    createGrain buffer params startTime duration position w = (Ret (Some g), w') /\
    g = length (grainHeap w) /\
    length (grainHeap w') = S (length (grainHeap w)) /\
    isActive (grainHeap w' !!! g) = true /\
    endTime (grainHeap w' !!! g) = (startTime + duration)%R /\
    g ∈ activeVoices (manager w') /\
    last (cleanupQueue (manager w'))
    = Some (mkItem g (startTime + duration + CLEANUP_DELAY)%R) /\
    lastCleanup (manager w') = (lastCleanup (manager w) + 1)%Z /\
    NoFaults w'.
Proof.
  intros Hw Hs Hp Hd.
  destruct (createGrain_returns buffer params startTime duration position w Hw Hs Hp Hd)
    as (g & w' & x & E & Hc & Hr & Hn).
  exists g, w'. split; [exact E |].
  pose proof (prepareR_heap_length (currentTime (audioContext w)) (registry w)) as Hlen.
  pose proof (prepareR_countOf (currentTime (audioContext w)) (registry w)) as Hcount.
  destruct (prepareR (currentTime (audioContext w)) (registry w))
    as [[[[heap mv] active] queue] lc].
  cbn in Hc, Hlen, Hcount. destruct Hc as (tail & -> & -> & src & nodes & ->).
  cbn in Hr. apply registry_eq in Hr as (Hh & _ & Ha & Hq & Hl).
  rewrite Hh, Ha, Hq, Hl.
  split; [exact Hlen |]. split; [rewrite length_app; cbn; lia |].
  rewrite (list_lookup_total_middle heap [] _ (length heap)) by reflexivity.
  split; [reflexivity |]. split; [reflexivity |].
  split; [apply Set_add_elem; right; reflexivity |].
  split; [apply last_snoc |]. split; [exact Hcount | exact Hn].
Qed.

Lemma createGrain_admits_a_grain_witness :
  NoFaults (studio 1) /\ (0 <= 0)%R /\ (0 <= 1)%R /\
  exists g w',
    createGrain demoBuffer (knobs 0 3 200 0.7) 0 1 0 (studio 1) = (Ret (Some g), w') /\
    g = length (grainHeap (studio 1)) /\ isActive (grainHeap w' !!! g) = true.
Proof.
  assert (H0 : (0 <= 0)%R) by lra. assert (H1 : (0 <= 1)%R) by lra.
  split; [apply studio_NoFaults |]. split; [exact H0 |]. split; [exact H1 |].
  destruct (createGrain_admits_a_grain demoBuffer (knobs 0 3 200 0.7) 0 1 0 (studio 1)
              (studio_NoFaults 1) H0 H0 H1) as (g & w' & E & Hg & _ & Hon & _).
  exists g, w'. repeat split; assumption.
Defined.

(** ** One trigger *)

Lemma forUpTo_counts (body : nat -> JS unit) :
  (forall i w, exists w', body i w = (Ret tt, w') /\
     lastCleanup (manager w') = (lastCleanup (manager w) + 1)%Z) ->
  forall n i w, exists w', forUpTo n i body w = (Ret tt, w') /\
     lastCleanup (manager w') = (lastCleanup (manager w) + Z.of_nat n)%Z.
Proof.
  intros Hb. induction n as [|n IH]; intros i w; cbn [forUpTo].
  - exists w. split; [reflexivity | lia].
  - destruct (Hb i w) as (w1 & E1 & H1). destruct (IH (S i) w1) as (w2 & E2 & H2).
    exists w2. rewrite (bind_returns _ _ _ _ _ E1). split; [exact E2 | lia].
Qed.

Lemma _triggerGrainForSlot_counts buffer params lfoStartTime w :
  _triggerGrainForSlot None params lfoStartTime w = (Ret tt, w) /\
  exists w',
    _triggerGrainForSlot (Some buffer) params lfoStartTime w = (Ret tt, w') /\
    lastCleanup (manager w')
    = (lastCleanup (manager w) + Z.max 0 (Z.min (grainsPerStep params) 20))%Z /\
    (lastCleanup (manager w') <= lastCleanup (manager w) + 20)%Z.
Proof.
  split; [reflexivity |]. unfold _triggerGrainForSlot. cbv zeta.
  destruct (forUpTo_counts
              (fun _ =>
                 request <- grainRequest buffer params lfoStartTime ;;
                 _ <- createGrain buffer (requestParams request) (requestStartTime request)
                        (requestDuration request) (requestPosition request) ;;
                 ret tt))
    with (n := Z.to_nat (Z.min (grainsPerStep params) 20)) (i := 0) (w := w)
    as (w' & E & H).
  { intros _ w0.
    destruct (grainRequest_returns buffer params lfoStartTime w0) as (q & w1 & E1 & _).
    assert (Hk : keepsOn (fun w => lastCleanup (manager w))
                   (grainRequest buffer params lfoStartTime)) by frame.
    pose proof (keepsOn_eq _ _ _ _ _ Hk E1) as H1. cbv beta in H1.
    destruct (createGrain_counts buffer (requestParams q) (requestStartTime q)
                (requestDuration q) (requestPosition q) w1) as (o & w2 & E2 & H2).
    exists w2. rewrite (bind_returns _ _ _ _ _ E1), (bind_returns _ _ _ _ _ E2).
    split; [reflexivity | lia]. }
  exists w'. split; [exact E |]. split; lia.
Qed.

(** A trigger on an empty slot does nothing.  On a loaded slot it returns
    after min(grainsPerStep, 20) calls of createGrain (none when
    grainsPerStep is not positive): at most 20 grains per trigger. *)
Theorem _triggerGrainForSlot_calls buffer params lfoStartTime w :
  _triggerGrainForSlot None params lfoStartTime w = (Ret tt, w) /\
  exists w',
    _triggerGrainForSlot (Some buffer) params lfoStartTime w = (Ret tt, w') /\
    lastCleanup (manager w')
    = (lastCleanup (manager w) + Z.max 0 (Z.min (grainsPerStep params) 20))%Z /\
    (lastCleanup (manager w') <= lastCleanup (manager w) + 20)%Z.
Proof. exact (_triggerGrainForSlot_counts buffer params lfoStartTime w). Qed.


(** ** The window and the range of an envelope *)

Section EnvelopeShape.
Local Open Scope R_scope.

(** The times of [l] ascend from [lo] to [hi]. *)
Fixpoint ascending (lo hi : R) (l : list AutomationEvent) : Prop :=
  match l with
  | [] => lo <= hi
  | e :: l' => lo <= eventTime e /\ ascending (eventTime e) hi l'
  end.

Lemma ascending_app a b c l1 l2 :
  ascending a b l1 -> ascending b c l2 -> ascending a c (l1 ++ l2).
Proof.
  revert a. induction l1 as [|e l1 IH]; intros a; cbn.
  - intros Hab H2. destruct l2 as [|e2 l2]; cbn in *; [lra |]. split; [lra | tauto].
  - intros [He H1] H2. split; [exact He | apply IH; assumption].
Qed.

Lemma ascending_bounds a b l : ascending a b l -> a <= b.
Proof.
  revert a. induction l as [|e l IH]; intros a; cbn; [trivial |].
  intros [He H]. apply IH in H. lra.
Qed.

Lemma ascending_within a b l :
  ascending a b l -> Forall (fun e => a <= eventTime e <= b) l.
Proof.
  revert a. induction l as [|e l IH]; intros a; cbn; [constructor |].
  intros [He H]. constructor.
  - split; [exact He | apply (ascending_bounds _ _ _ H)].
  - eapply Forall_impl; [apply IH, H |]. cbn. intros e' ?. lra.
Qed.

Lemma ascending_sorted a b l :
  ascending a b l ->
  forall i j e1 e2, (i <= j)%nat -> l !! i = Some e1 -> l !! j = Some e2 ->
                    eventTime e1 <= eventTime e2.
Proof.
  revert a. induction l as [|e l IH]; intros a; cbn; [intros _ i j e1 e2 _ H; inversion H |].
  intros [He H] i j e1 e2 Hij H1 H2.
  destruct i as [|i]; cbn in H1.
  - injection H1 as <-. destruct j as [|j]; cbn in H2; [injection H2 as <-; lra |].
    pose proof (ascending_within _ _ _ H) as Hall.
    rewrite Forall_lookup in Hall. apply (Hall j e2 H2).
  - destruct j as [|j]; [lia |]. cbn in H2. apply (IH _ H i j); [lia | assumption ..].
Qed.

Lemma stepFraction_le i j n : (i <= j)%nat -> stepFraction i n <= stepFraction j n.
Proof.
  intros H. unfold stepFraction, Rdiv. destruct n as [|n].
  - change (Z.of_nat 0) with 0%Z. rewrite Rinv_0. lra.
  - apply Rmult_le_compat_r; [apply Rlt_le, Rinv_0_lt_compat, IZR_lt; lia | apply IZR_le; lia].
Qed.

Lemma stepFraction_unit i n : (i <= n)%nat -> (0 < n)%nat -> 0 <= stepFraction i n <= 1.
Proof.
  intros Hi Hn. split; [apply stepFraction_nonneg |].
  rewrite <- (stepFraction_full n Hn). apply stepFraction_le, Hi.
Qed.

Lemma stepFraction_zero n : stepFraction 0 n = 0.
Proof. unfold stepFraction, Rdiv. change (Z.of_nat 0) with 0%Z. lra. Qed.

(** A loop whose time grows with the step. *)
Lemma sampled_ascending steps value time lo hi :
  (0 < steps)%nat ->
  (forall t u, 0 <= t -> t <= u -> u <= 1 -> time t <= time u) ->
  lo <= time 0 -> time 1 <= hi ->
  ascending lo hi (sampled steps value time).
Proof.
  intros Hn Hmono Hlo Hhi. unfold sampled.
  assert (H : forall k a, (0 < k)%nat -> (a + k = S steps)%nat -> forall lo',
               lo' <= time (stepFraction a steps) ->
               ascending lo' hi
                 (map (fun i => LinearRampToValueAtTime (value (stepFraction i steps))
                                                        (time (stepFraction i steps)))
                      (seq a k))).
  { induction k as [|k IH]; intros a Hk Ha lo' Hlo'; [lia |]. cbn.
    split; [exact Hlo' |]. destruct k as [|k].
    - cbn. assert (a = steps) by lia. subst a. rewrite (stepFraction_full steps Hn). exact Hhi.
    - apply IH; [lia | lia |]. cbn [eventTime].
      destruct (stepFraction_unit a steps ltac:(lia) Hn).
      destruct (stepFraction_unit (S a) steps ltac:(lia) Hn).
      apply Hmono; [lra | apply stepFraction_le; lia | lra]. }
  apply (H (S steps) 0%nat); [lia | lia |]. rewrite stepFraction_zero. exact Hlo.
Qed.

Lemma sampled_values steps value time (P : R -> Prop) :
  (0 < steps)%nat -> (forall t, 0 <= t <= 1 -> P (value t)) ->
  Forall (fun e => P (eventValue e)) (sampled steps value time).
Proof.
  intros Hn Hv. unfold sampled. apply Forall_forall. intros e He.
  apply list_elem_of_fmap in He as (i & -> & Hi). apply elem_of_seq in Hi.
  cbn. apply Hv, stepFraction_unit; [lia | exact Hn].
Qed.

Variables (startTime duration : R) (params : Params).
Hypothesis duration_pos : 0 < duration.
Hypothesis attack_nonneg : 0 <= attackTime params.
Hypothesis decay_nonneg : 0 <= decayTime params.

Let attack := attackOf duration params.
Let sustain := sustainOf duration params.
Let peak := peakGainOf params.

Lemma segments_fit :
  0 <= attack /\ 0 <= sustain /\ startTime + attack + sustain <= startTime + duration.
Proof.
  pose proof (attackOf_bounds duration params duration_pos attack_nonneg).
  pose proof (sustainOf_bounds duration params duration_pos attack_nonneg decay_nonneg).
  unfold attack, sustain. lra.
Qed.

Lemma sustainEvents_ascending :
  ascending (startTime + attack) (startTime + attack + sustain)
            (sustainEvents startTime duration params).
Proof.
  destruct segments_fit as (Ha & Hs & _). unfold sustainEvents. fold sustain attack.
  destruct (Rltb 0 sustain); cbn; lra.
Qed.

Lemma attack_ascending steps value :
  (0 < steps)%nat ->
  ascending startTime (startTime + attack)
            (sampled steps value (attackAt startTime duration params)).
Proof.
  intros Hn. destruct segments_fit as (Ha & _).
  apply sampled_ascending; [exact Hn | | |]; unfold attackAt; fold attack; try lra.
  intros t u Ht Htu Hu. apply Rplus_le_compat_l, Rmult_le_compat_l; assumption.
Qed.

Lemma release_ascending steps value :
  (0 < steps)%nat ->
  ascending (startTime + attack + sustain) (startTime + duration)
            (sampled steps value (releaseAt startTime duration params)).
Proof.
  intros Hn. destruct segments_fit as (Ha & Hs & Hfit).
  apply sampled_ascending; [exact Hn | | |]; unfold releaseAt; fold attack sustain; try lra.
  intros t u Ht Htu Hu. apply Rplus_le_compat_l, Rmult_le_compat_l; [lra | assumption].
Qed.

Lemma whole_ascending steps value (time : R -> R) :
  (0 < steps)%nat -> (forall t, time t = startTime + duration * t) ->
  ascending startTime (startTime + duration) (sampled steps value time).
Proof.
  intros Hn Ht. apply sampled_ascending; [exact Hn | | |]; rewrite ?Ht; try lra.
  intros t u H0 Htu Hu. rewrite !Ht. apply Rplus_le_compat_l, Rmult_le_compat_l; lra.
Qed.

Lemma three_segments l1 l3 :
  ascending startTime (startTime + attack) l1 ->
  ascending (startTime + attack + sustain) (startTime + duration) l3 ->
  ascending startTime (startTime + duration)
            (l1 ++ sustainEvents startTime duration params ++ l3).
Proof.
  intros H1 H3. eapply ascending_app; [exact H1 |].
  eapply ascending_app; [apply sustainEvents_ascending | exact H3].
Qed.

Lemma shapeEvents_ascending shape :
  ascending startTime (startTime + duration) (shapeEvents startTime duration params shape).
Proof.
  destruct segments_fit as (Ha & Hs & Hfit).
  assert (Hlin : ascending startTime (startTime + duration)
                           (linearEvents startTime duration params)).
  { unfold linearEvents. apply three_segments; cbn; fold attack; lra. }
  assert (Hexp : ascending startTime (startTime + duration)
                   ([ExponentialRampToValueAtTime peak (startTime + attack)] ++
                    sustainEvents startTime duration params ++
                    [ExponentialRampToValueAtTime 0.001 (startTime + duration)])).
  { apply three_segments; cbn; lra. }
  assert (Hsteps : (0 < ENVELOPE_STEPS.LOGARITHMIC /\ 0 < ENVELOPE_STEPS.SIGMOID /\
                    0 < ENVELOPE_STEPS.COSINE /\ 0 < ENVELOPE_STEPS.GAUSSIAN /\
                    0 < ENVELOPE_STEPS.HANNING)%nat) by (cbv; lia).
  destruct Hsteps as (S2 & S3 & S4 & S5 & S6).
  destruct shape as [|p|p]; [exact Hlin | | exact Hlin].
  do 3 (try destruct p as [p|p|]); cbn [shapeEvents]; try exact Hlin; try exact Hexp;
    try (apply three_segments; [apply attack_ascending | apply release_ascending]; assumption).
  - apply whole_ascending; [exact S5 | intros t; lra].
  - apply whole_ascending; [exact S6 | intros t; reflexivity].
Qed.

Lemma envelopeEvents_ascending :
  ascending startTime (startTime + duration) (envelopeEvents startTime duration params).
Proof. unfold envelopeEvents. cbn. split; [lra | apply shapeEvents_ascending]. Qed.

(** *** The gains *)

Lemma ln_monotone x y : 0 < x -> x <= y -> ln x <= ln y.
Proof.
  intros Hx [H | ->]; [left; apply ln_increasing; assumption | right; reflexivity].
Qed.

Lemma log_curve_unit t : 0 <= t <= 1 -> 0 <= ln (1 + t * (exp 1 - 1)) <= 1.
Proof.
  intros Ht. pose proof (exp_ineq1 1 ltac:(lra)) as He.
  assert (H1 : 1 <= 1 + t * (exp 1 - 1)) by nra.
  assert (H2 : 1 + t * (exp 1 - 1) <= exp 1) by nra.
  split.
  - rewrite <- ln_1. apply ln_monotone; lra.
  - assert (H0 : 0 < 1 + t * (exp 1 - 1)) by lra.
    pose proof (ln_monotone _ _ H0 H2) as H. rewrite ln_exp in H. exact H.
Qed.

Lemma sigmoid_unit y : 0 <= 1 / (1 + exp y) <= 1.
Proof.
  pose proof (exp_pos y) as He. unfold Rdiv. rewrite Rmult_1_l. split.
  - left. apply Rinv_0_lt_compat. lra.
  - rewrite <- Rinv_1 at 2. apply Rinv_le_contravar; lra.
Qed.

Lemma quarter_sine_unit t : 0 <= t <= 1 -> 0 <= sin (t * PI / 2) <= 1.
Proof.
  intros Ht. pose proof PI_RGT_0 as Hpi. split.
  - apply sin_ge_0; nra.
  - apply SIN_bound.
Qed.

Lemma abs_sine_unit x : 0 <= Rabs (sin x) <= 1.
Proof. split; [apply Rabs_pos | apply Rabs_le, SIN_bound]. Qed.

Lemma bell_unit x s : 0 < s -> 0 <= exp (- (x * x) / (2 * s * s)) <= 1.
Proof.
  intros Hs. split; [left; apply exp_pos |].
  assert (Hd : 0 < / (2 * s * s)) by (apply Rinv_0_lt_compat; nra).
  assert (Hx : 0 <= x * x) by nra.
  assert (Hy : - (x * x) / (2 * s * s) <= 0) by (unfold Rdiv; nra).
  destruct Hy as [Hy | Hy]; [| rewrite Hy, exp_0; lra].
  left. rewrite <- exp_0. apply exp_increasing, Hy.
Qed.

Lemma hanning_unit t : 0 <= 0.5 * (1 - cos (2 * PI * t)) <= 1.
Proof. pose proof (COS_bound (2 * PI * t)). lra. Qed.

Hypothesis volume_nonneg : 0 <= volume params.

Lemma peak_nonneg : 0 <= peak.
Proof. apply peakGainOf_nonneg, volume_nonneg. Qed.

Lemma scaled_unit u : 0 <= u <= 1 -> 0 <= peak * u <= peak.
Proof. pose proof peak_nonneg. intros Hu. nra. Qed.

Definition gainWithin (hi : R) (l : list AutomationEvent) : Prop :=
  Forall (fun e => 0 <= eventValue e <= hi) l.

Ltac listed_gains :=
  unfold gainWithin; repeat (apply Forall_cons; split; [cbn; fold peak; lra |]); apply Forall_nil_2.

Lemma sustainEvents_gain : gainWithin peak (sustainEvents startTime duration params).
Proof.
  pose proof peak_nonneg. unfold sustainEvents, gainWithin.
  destruct (Rltb _ _); listed_gains.
Qed.

Lemma sampled_gain steps value time :
  (0 < steps)%nat -> (forall t, 0 <= t <= 1 -> 0 <= value t <= peak) ->
  gainWithin peak (sampled steps value time).
Proof.
  intros Hn Hv. exact (sampled_values steps value time (fun v => 0 <= v <= peak) Hn Hv).
Qed.

Lemma three_gains l1 l3 :
  gainWithin peak l1 -> gainWithin peak l3 ->
  gainWithin peak (l1 ++ sustainEvents startTime duration params ++ l3).
Proof.
  intros H1 H3. unfold gainWithin. rewrite !Forall_app.
  split; [exact H1 | split; [apply sustainEvents_gain | exact H3]].
Qed.

Lemma shapeEvents_gain shape :
  shape <> 1%Z -> gainWithin peak (shapeEvents startTime duration params shape).
Proof.
  intros Hshape. pose proof peak_nonneg as Hp.
  assert (Hlin : gainWithin peak (linearEvents startTime duration params)).
  { unfold linearEvents. apply three_gains; listed_gains. }
  assert (Hsteps : (0 < ENVELOPE_STEPS.LOGARITHMIC /\ 0 < ENVELOPE_STEPS.SIGMOID /\
                    0 < ENVELOPE_STEPS.COSINE /\ 0 < ENVELOPE_STEPS.GAUSSIAN /\
                    0 < ENVELOPE_STEPS.HANNING)%nat) by (cbv; lia).
  destruct Hsteps as (S2 & S3 & S4 & S5 & S6).
  destruct shape as [|p|p]; [exact Hlin | | exact Hlin].
  do 3 (try destruct p as [p|p|]); cbn [shapeEvents]; try exact Hlin; try contradiction;
    fold peak.
  all: first
    [ apply sampled_gain; [assumption |]; intros t Ht; apply scaled_unit;
      first [apply bell_unit; lra | apply hanning_unit]
    | apply three_gains; (apply sampled_gain; [assumption |]); intros t Ht;
      first
        [ apply scaled_unit;
          first [apply sigmoid_unit | apply quarter_sine_unit, Ht | apply abs_sine_unit]
        | pose proof (log_curve_unit t Ht) as Hl; rewrite ln_exp; nra ] ].
Qed.

Lemma exponential_gain :
  gainWithin (Rmax peak 0.001) (shapeEvents startTime duration params 1).
Proof.
  pose proof peak_nonneg as Hp. pose proof (Rmax_l peak 0.001). pose proof (Rmax_r peak 0.001).
  cbn [shapeEvents]. fold peak. unfold gainWithin. rewrite !Forall_app.
  split; [listed_gains |].
  split; [| listed_gains].
  eapply Forall_impl; [apply sustainEvents_gain |]. cbn. intros e He. lra.
Qed.
End EnvelopeShape.

Section EnvelopeWindow.
Local Open Scope R_scope.

(** When no platform call fails, nothing is scheduled on the gain node yet,
    the start, attack and decay times are not negative and the duration is
    positive, no control point of the envelope is written for a time before
    startTime, for every shape. *)
Theorem applyOptimizedEnvelope_not_before_start w g a startTime duration params :
  NoFaults w -> paramAt (GainOf g) w = Some a -> timeline a = [] ->
  0 <= startTime -> 0 < duration -> 0 <= attackTime params -> 0 <= decayTime params ->
  exists a',
    paramAt (GainOf g) (snd (applyOptimizedEnvelope g startTime duration params w)) = Some a' /\
    (timeline a' <> []) /\
    Forall (fun e => startTime <= eventTime e) (timeline a').
Proof.
  intros Hw Ha Hnil Hs Hd Hat Hdt.
  eexists. split; [apply (applyOptimizedEnvelope_timeline w g a); assumption |].
  cbn [timeline]. rewrite Hnil, app_nil_l.
  pose proof (envelopeEvents_ascending startTime duration params Hd Hat Hdt) as H.
  split; [unfold envelopeEvents; discriminate |].
  eapply Forall_impl; [apply ascending_within, H |]. cbn. intros e He. lra.
Qed.

Lemma applyOptimizedEnvelope_not_before_start_witness :
  NoFaults (studio 1) /\ paramAt (GainOf 1) (studio 1) = Some (mkParam 1 []) /\
  exists a',
    paramAt (GainOf 1) (snd (applyOptimizedEnvelope 1 0 1 (knobs 3 3 200 0.7) (studio 1)))
    = Some a' /\
    Forall (fun e => 0 <= eventTime e) (timeline a').
Proof.
  split; [apply studio_NoFaults |]. split; [apply studio_1_gain |].
  destruct (applyOptimizedEnvelope_not_before_start (studio 1) 1 (mkParam 1 []) 0 1
              (knobs 3 3 200 0.7)) as (a' & E & _ & H).
  - apply studio_NoFaults.
  - apply studio_1_gain.
  - reflexivity.
  - lra.
  - lra.
  - cbn. lra.
  - cbn. lra.
  - exists a'. split; assumption.
Defined.

(** With a volume of [0, 1] no control point has a negative gain or a gain
    above the peak gain, which is at most BASE_GAIN; the one exception is the
    end of the exponential shape, the constant 0.001, which exceeds a peak
    gain below it. *)
Theorem applyOptimizedEnvelope_gain_range w g a startTime duration params :
  NoFaults w -> paramAt (GainOf g) w = Some a -> timeline a = [] ->
  0 <= startTime -> 0 < duration -> 0 <= attackTime params -> 0 <= decayTime params ->
  0 <= volume params <= 1 ->
  exists a',
    paramAt (GainOf g) (snd (applyOptimizedEnvelope g startTime duration params w)) = Some a' /\
    Forall (fun e => 0 <= eventValue e <= Rmax (peakGainOf params) 0.001) (timeline a') /\
    (envelopeShape params <> 1%Z ->
     Forall (fun e => 0 <= eventValue e <= peakGainOf params) (timeline a')) /\
    0 < peakGainOf params <= BASE_GAIN.
Proof.
  intros Hw Ha Hnil Hs Hd Hat Hdt [Hv0 Hv1].
  eexists. split; [apply (applyOptimizedEnvelope_timeline w g a); assumption |].
  cbn [timeline]. rewrite Hnil, app_nil_l. unfold envelopeEvents.
  pose proof (peakGainOf_nonneg params Hv0) as Hp.
  pose proof (Rmax_l (peakGainOf params) 0.001) as Hmax.
  assert (Hother : envelopeShape params <> 1%Z ->
            Forall (fun e => 0 <= eventValue e <= peakGainOf params)
                   (SetValueAtTime 0 startTime
                    :: shapeEvents startTime duration params (envelopeShape params))).
  { intros Hshape. apply Forall_cons. split; [cbn; lra |].
    apply (shapeEvents_gain startTime duration params Hd Hv0 _ Hshape). }
  split; [| split; [exact Hother |]].
  - destruct (Z.eq_dec (envelopeShape params) 1%Z) as [-> | Hshape].
    + apply Forall_cons. split; [cbn; lra |].
      apply (exponential_gain startTime duration params), Hv0.
    + eapply Forall_impl; [apply Hother, Hshape |]. cbn. intros e He. lra.
  - unfold peakGainOf, BASE_GAIN, orDefault. destruct (Req_dec_T _ _); lra.
Qed.

Lemma applyOptimizedEnvelope_gain_range_witness :
  NoFaults (studio 1) /\ paramAt (GainOf 1) (studio 1) = Some (mkParam 1 []) /\
  0 <= volume (knobs 5 3 200 0.7) <= 1 /\
  exists a',
    paramAt (GainOf 1) (snd (applyOptimizedEnvelope 1 0 1 (knobs 5 3 200 0.7) (studio 1)))
    = Some a' /\
    Forall (fun e => 0 <= eventValue e <= Rmax (peakGainOf (knobs 5 3 200 0.7)) 0.001)
           (timeline a').
Proof.
  assert (Hv : 0 <= volume (knobs 5 3 200 0.7) <= 1) by (cbn; lra).
  split; [apply studio_NoFaults |]. split; [apply studio_1_gain |]. split; [exact Hv |].
  destruct (applyOptimizedEnvelope_gain_range (studio 1) 1 (mkParam 1 []) 0 1
              (knobs 5 3 200 0.7)) as (a' & E & H & _).
  - apply studio_NoFaults.
  - apply studio_1_gain.
  - reflexivity.
  - lra.
  - lra.
  - cbn. lra.
  - cbn. lra.
  - exact Hv.
  - exists a'. split; assumption.
Defined.
End EnvelopeWindow.


(** ** The constructor *)

(** The platform calls of the constructor before the pool is filled: the
    master gain, the splitter, the two channel analysers, the three
    connections of the stereo chain and to the destination, the main
    analyser and its connection. *)
Definition PREFIX_CALLS : nat := 10.

(** None of the platform calls made so far has failed. *)
Definition noFaultSoFar (w : World) : Prop :=
  forall k, k < calls (audioContext w) -> faults (audioContext w) k = false.

(** One of the platform calls below [bound] fails. *)
Definition faultBelow (orc : nat -> bool) (bound : nat) : Prop :=
  exists k, k < bound /\ orc k = true.

Lemma faultBelow_le orc a b : a <= b -> faultBelow orc a -> faultBelow orc b.
Proof. intros H (k & Hk & E). exists k. split; [lia | exact E]. Qed.

(** [k] triples of fresh nodes are in the pool, beside the master gain node. *)
Definition preAllocated (k : nat) (w : World) : Prop :=
  nodePool (manager w) = mkPool (seq 1 k) (seq 0 k) (seq 0 k) /\
  length (gainHeap (audioContext w)) = S k /\
  length (filterHeap (audioContext w)) = k /\
  length (pannerHeap (audioContext w)) = k /\
  masterGain (manager w) = 0 /\
  paramAt (GainOf 0) w = Some (mkParam 1 []).

Lemma noFaultSoFar_next orc c :
  (forall k, k < c -> orc k = false) -> orc c = false -> forall k, k < S c -> orc k = false.
Proof.
  intros H Hc k Hk. destruct (decide (k = c)) as [-> | Hne]; [exact Hc | apply H; lia].
Qed.

Definition allocateTriple : JS unit :=
  g <- createGain ;; pushGainNode g ;;;
  f <- createBiquadFilter ;; pushFilterNode f ;;;
  p <- createStereoPanner ;; pushPannerNode p.

Ltac faulted c := unfold faultBelow, PREFIX_CALLS; exists c; cbn; split; [lia | assumption].

Lemma allocateTriple_wp k w :
  preAllocated k w -> noFaultSoFar w ->
  wp allocateTriple
     (fun _ w' => preAllocated (S k) w' /\ noFaultSoFar w' /\
                  calls (audioContext w') = calls (audioContext w) + 3 /\
                  registry w' = registry w /\
                  faults (audioContext w') = faults (audioContext w))
     (fun _ => faultBelow (faults (audioContext w)) (calls (audioContext w) + 3)) w.
Proof.
  destruct w as [[t orc c gh fh ph sh] rs rd grains [mv av cq lc mg [gs fs ps]]].
  unfold preAllocated, noFaultSoFar. cbn. intros (Hp & Hg & Hf & Hpn & Hmg & H0) Hq.
  injection Hp as -> -> ->.
  unfold wp, allocateTriple, createGain, createBiquadFilter, createStereoPanner, alloc,
    pushGainNode, pushFilterNode, pushPannerNode, modifyAudio, modifyManager, modify,
    native, get, ret, bind.
  cbn.
  destruct (orc c) eqn:E1; cbn; [faulted c |].
  destruct (orc (S c)) eqn:E2; cbn; [faulted (S c) |].
  destruct (orc (S (S c))) eqn:E3; cbn; [faulted (S (S c)) |].
  change (1 :: seq 2 k) with (seq 1 (S k)). change (0 :: seq 1 k) with (seq 0 (S k)).
  rewrite !seq_S, Hg, Hf, Hpn. cbn [Nat.add].
  split; [split; [reflexivity |] |].
  - rewrite !length_app. cbn. repeat split; try lia; try assumption.
    destruct gh as [|g0 gh]; [discriminate | exact H0].
  - split; [| split; [lia | split; reflexivity]].
    do 3 (apply noFaultSoFar_next; [| assumption]). exact Hq.
Qed.

Lemma preAllocate_loop n : forall i k w,
  preAllocated k w -> noFaultSoFar w ->
  wp (forUpTo n i (fun _ => allocateTriple))
     (fun _ w' => preAllocated (k + n) w' /\ noFaultSoFar w' /\
                  calls (audioContext w') = calls (audioContext w) + 3 * n /\
                  registry w' = registry w /\
                  faults (audioContext w') = faults (audioContext w))
     (fun _ => faultBelow (faults (audioContext w)) (calls (audioContext w) + 3 * n)) w.
Proof.
  induction n as [|n IH]; intros i k w Hk Hq; cbn [forUpTo].
  - apply wp_ret. rewrite Nat.add_0_r.
    split; [exact Hk |]. split; [exact Hq |]. split; [lia |]. split; reflexivity.
  - apply wp_bind. eapply wp_mono; [apply (allocateTriple_wp k w Hk Hq) | |];
      [| intros ?; apply faultBelow_le; lia].
    cbv beta. intros _ w1 (Hk1 & Hq1 & Hc1 & Hr1 & Hf1).
    eapply wp_mono; [apply (IH (S i) (S k) w1 Hk1 Hq1) | |];
      [| intros ?; rewrite Hf1, Hc1; apply faultBelow_le; lia].
    cbv beta. intros _ w2 (Hk2 & Hq2 & Hc2 & Hr2 & Hf2).
    replace (k + S n) with (S k + n) by lia.
    split; [exact Hk2 |]. split; [exact Hq2 |]. split; [lia |]. split; congruence.
Qed.

Lemma preAllocateNodes_wp w :
  preAllocated 0 w -> noFaultSoFar w ->
  wp preAllocateNodes
     (fun _ w' => preAllocated (Z.to_nat (maxVoices (manager w))) w' /\ noFaultSoFar w' /\
                  calls (audioContext w')
                  = calls (audioContext w) + 3 * Z.to_nat (maxVoices (manager w)) /\
                  registry w' = registry w /\
                  faults (audioContext w') = faults (audioContext w))
     (fun _ => faultBelow (faults (audioContext w))
                 (calls (audioContext w) + 3 * Z.to_nat (maxVoices (manager w)))) w.
Proof.
  intros Hk Hq. unfold preAllocateNodes. apply wp_tryCatch.
  apply (wp_mono _ (fun _ w' =>
           preAllocated (Z.to_nat (maxVoices (manager w))) w' /\ noFaultSoFar w' /\
           calls (audioContext w')
           = calls (audioContext w) + 3 * Z.to_nat (maxVoices (manager w)) /\
           registry w' = registry w /\
           faults (audioContext w') = faults (audioContext w)) _
           (fun _ => faultBelow (faults (audioContext w))
                       (calls (audioContext w) + 3 * Z.to_nat (maxVoices (manager w)))));
    [| trivial | intros w' H e; exact H].
  apply wp_bind, wp_get.
  exact (preAllocate_loop _ 0 0 w Hk Hq).
Qed.

(** What the constructor has built when it returns. *)
Definition constructed (orc : nat -> bool) (capacity : Z) (w : World) : Prop :=
  preAllocated (Z.to_nat capacity) w /\ noFaultSoFar w /\
  calls (audioContext w) = PREFIX_CALLS + 3 * Z.to_nat capacity /\
  faults (audioContext w) = orc.

(** The state between the platform calls that precede the pool. *)
Definition wired (orc : nat -> bool) (capacity : Z) (c : nat) (w : World) : Prop :=
  calls (audioContext w) = c /\ (forall k, k < c -> orc k = false) /\
  faults (audioContext w) = orc /\
  nodePool (manager w) = mkPool [] [] [] /\
  length (gainHeap (audioContext w)) = 1 /\
  filterHeap (audioContext w) = [] /\ pannerHeap (audioContext w) = [] /\
  masterGain (manager w) = 0 /\ maxVoices (manager w) = capacity /\
  paramAt (GainOf 0) w = Some (mkParam 1 []).

Lemma wp_then {B} (m : JS unit) (k : JS B) (P : World -> Prop) (E1 : World -> Prop) Q E w :
  wp m (fun _ => P) E1 w -> (forall w1, P w1 -> wp k Q E w1) -> (forall w1, E1 w1 -> E w1) ->
  wp (m ;;; k) Q E w.
Proof.
  intros Hm Hk He. apply wp_bind. eapply wp_mono; [exact Hm | | exact He].
  intros [] w1 H1. apply Hk, H1.
Qed.

Lemma native_wired orc capacity c w :
  wired orc capacity c w ->
  wp native (fun _ => wired orc capacity (S c)) (fun _ => faultBelow orc (S c)) w.
Proof.
  destruct w as [[t orc' c' gh fh ph sh] rs rd grains [mv av cq lc mg pool]].
  unfold wired. cbn. intros (-> & Hq & -> & Hp & Hg & Hf & Hpn & Hmg & Hmv & H0).
  unfold wp, native. cbn.
  destruct (orc c) eqn:E; [exists c; split; [lia | exact E] |].
  cbn. split; [reflexivity |]. split; [apply noFaultSoFar_next; assumption |].
  repeat (split; [assumption || reflexivity |]). exact H0.
Qed.

Lemma connectGain_wired orc capacity c dest w :
  wired orc capacity c w ->
  wp (connectGain 0 dest) (fun _ => wired orc capacity (S c))
     (fun _ => faultBelow orc (S c)) w.
Proof.
  destruct w as [[t orc' c' gh fh ph sh] rs rd grains [mv av cq lc mg pool]].
  unfold wired. cbn. intros (-> & Hq & -> & Hp & Hg & Hf & Hpn & Hmg & Hmv & H0).
  destruct gh as [|g0 [|g1 gh]]; try discriminate. cbn in H0.
  unfold wp, connectGain, getGainNode, putGainNode, deref, modifyAudio, modify, native, bind.
  cbn.
  destruct (orc c) eqn:E; [exists c; split; [lia | exact E] |].
  cbn. split; [reflexivity |]. split; [apply noFaultSoFar_next; assumption |].
  repeat (split; [assumption || reflexivity |]). exact H0.
Qed.

Lemma createGain_wired {B} t0 orc random capacity (K : nat -> JS B) Q (E : World -> Prop) :
  (forall w, faultBelow orc 1 -> E w) ->
  (forall w1, wired orc capacity 1 w1 -> wp (K 0) Q E w1) ->
  wp (modifyManager (fun _ => mkManager capacity [] [] 0 0 (mkPool [] [] [])) ;;;
      mg <- createGain ;; K mg) Q E
     (mkWorld (newAudioContext t0 orc) random 0 [] (mkManager 0 [] [] 0 0 (mkPool [] [] []))).
Proof.
  intros HE HK.
  unfold wp, createGain, alloc, modifyAudio, modifyManager, modify, native, get, ret, bind,
    newAudioContext.
  cbn.
  destruct (orc 0) eqn:E0; cbn; [apply HE; exists 0; split; [lia | exact E0] |].
  apply HK. unfold wired. cbn. split; [reflexivity |].
  split; [intros k Hk; assert (k = 0) as -> by lia; exact E0 |].
  repeat (split; [reflexivity |]). reflexivity.
Qed.

Lemma setMasterGain_wired orc capacity c w :
  wired orc capacity c w ->
  wp (modifyManager (setMasterGain 0)) (fun _ => wired orc capacity c) (fun _ => False) w.
Proof.
  destruct w as [[t orc' c' gh fh ph sh] rs rd grains [mv av cq lc mg pool]].
  unfold wired, wp. cbn. intros (Hc & Hq & Hf & Hp & Hg & Hfh & Hph & Hmg & Hmv & H0).
  repeat (split; [assumption || reflexivity |]). exact H0.
Qed.

Lemma setValue_wired orc capacity c w :
  wired orc capacity c w ->
  wp (setValue (GainOf 0) 1) (fun _ => wired orc capacity c) (fun _ => False) w.
Proof.
  destruct w as [[t orc' c' gh fh ph sh] rs rd grains [mv av cq lc mg pool]].
  unfold wired. cbn. intros (-> & Hq & -> & Hp & Hg & Hf & Hpn & Hmg & Hmv & H0).
  destruct gh as [|g0 [|g1 gh]]; try discriminate. cbn in H0.
  unfold wp, setValue, getParam, putParam, getGainNode, putGainNode, deref, modifyAudio,
    modify, ret, bind.
  cbn. injection H0 as H0. rewrite H0. cbn. split; [reflexivity |]. split; [exact Hq |].
  repeat (split; [assumption || reflexivity |]). reflexivity.
Qed.

Lemma wired_preAllocated orc capacity c w :
  wired orc capacity c w ->
  preAllocated 0 w /\ noFaultSoFar w /\ calls (audioContext w) = c /\
  faults (audioContext w) = orc /\ maxVoices (manager w) = capacity.
Proof.
  intros (Hc & Hq & Hf & Hp & Hg & Hfh & Hph & Hmg & Hmv & H0).
  split; [| split; [| auto]].
  - unfold preAllocated. rewrite Hp, Hg, Hfh, Hph. repeat split; assumption.
  - intros k Hk. rewrite Hf. apply Hq. lia.
Qed.

Lemma bind_assoc {A B C} (m : JS A) (k : A -> JS B) (h : B -> JS C) w :
  (y <- (x <- m ;; k x) ;; h y) w = (x <- m ;; y <- k x ;; h y) w.
Proof. unfold bind. destruct (m w) as [[a|e] w1]; reflexivity. Qed.

Ltac wired_step lemma Hle :=
  match goal with
  | H : wired ?orc ?capacity ?c ?w |- wp (_ ;;; _) _ _ ?w =>
      eapply wp_then; [apply lemma, H | clear w H; intros w H | first [solve [intros ? []] | apply Hle; lia]]
  end.

Lemma newManager_wp t0 orc random capacity :
  wp (newManager capacity) (fun _ => constructed orc capacity)
     (fun _ => faultBelow orc (PREFIX_CALLS + 3 * Z.to_nat capacity))
     (mkWorld (newAudioContext t0 orc) random 0 [] (mkManager 0 [] [] 0 0 (mkPool [] [] []))).
Proof.
  unfold newManager. apply wp_tryCatch.
  apply (wp_mono _ (fun _ => constructed orc capacity) _
           (fun _ => faultBelow orc (PREFIX_CALLS + 3 * Z.to_nat capacity)));
    [| trivial | intros w' H e; exact H].
  unfold PREFIX_CALLS.
  assert (Hle : forall c, c <= 10 -> forall w1 : World,
            faultBelow orc c -> faultBelow orc (10 + 3 * Z.to_nat capacity))
    by (intros c Hc _; apply faultBelow_le; lia).
  apply createGain_wired; [apply Hle; lia |]. intros w H.
  wired_step setMasterGain_wired Hle.
  wired_step setValue_wired Hle.
  do 3 wired_step native_wired Hle.
  wired_step connectGain_wired Hle.
  do 2 wired_step native_wired Hle.
  wired_step connectGain_wired Hle.
  wired_step native_wired Hle.
  wired_step connectGain_wired Hle.
  destruct (wired_preAllocated _ _ _ _ H) as (Hk & Hq & Hc & Hf & Hmv).
  eapply wp_mono; [apply (preAllocateNodes_wp w Hk Hq) | |].
  - cbv beta. intros _ w' (Hk' & Hq' & Hc' & _ & Hf').
    rewrite Hmv in Hk', Hc'. split; [exact Hk' |]. split; [exact Hq' |].
    split; [unfold PREFIX_CALLS; lia | congruence].
  - cbv beta. intros _. rewrite Hf, Hc, Hmv. trivial.
Qed.
Lemma construct_cases t0 orc random capacity :
  (exists w, construct (newAudioContext t0 orc) random capacity = (Ret tt, w) /\
             constructed orc capacity w) \/
  ((exists e w, construct (newAudioContext t0 orc) random capacity = (Throw e, w)) /\
   faultBelow orc (PREFIX_CALLS + 3 * Z.to_nat capacity)).
Proof.
  pose proof (newManager_wp t0 orc random capacity) as H. unfold wp in H. unfold construct.
  destruct (newManager capacity _) as [[[]|e] w].
  - left. exists w. split; [reflexivity | exact H].
  - right. split; [exists e, w; reflexivity | exact H].
Qed.

(** The constructor returns exactly when none of its 10 + 3 * maxVoices
    platform calls fails; otherwise it throws to its caller. *)
Theorem constructor_returns_iff_no_call_fails t0 orc random capacity :
  ((exists w, construct (newAudioContext t0 orc) random capacity = (Ret tt, w)) <->
   (forall k, k < PREFIX_CALLS + 3 * Z.to_nat capacity -> orc k = false)) /\
  ((exists e w, construct (newAudioContext t0 orc) random capacity = (Throw e, w)) <->
   (exists k, k < PREFIX_CALLS + 3 * Z.to_nat capacity /\ orc k = true)).
Proof.
  destruct (construct_cases t0 orc random capacity)
    as [(w & E & Hk & Hq & Hc & Hf) | [(e & w & E) (k & Hk & Hfault)]].
  - assert (Hquiet : forall k, k < PREFIX_CALLS + 3 * Z.to_nat capacity -> orc k = false).
    { intros k Hlt. rewrite <- Hf. apply Hq. lia. }
    split; split.
    + intros _. exact Hquiet.
    + intros _. exists w. exact E.
    + intros (e & w' & E'). congruence.
    + intros (k & Hlt & Hfault). rewrite (Hquiet k Hlt) in Hfault. discriminate.
  - split; split.
    + intros (w' & E'). congruence.
    + intros Hquiet. rewrite (Hquiet k Hk) in Hfault. discriminate.
    + intros _. exists k. split; assumption.
    + intros _. exists e, w. exact E.
Qed.

(** When the constructor returns, the pool holds maxVoices triples of
    distinct nodes of the audio context, none of them the master gain node;
    the master gain is 1 with nothing scheduled; there is no voice and no
    queued cleanup. *)
Theorem constructor_fills_the_pool t0 orc random capacity w :
  construct (newAudioContext t0 orc) random capacity = (Ret tt, w) ->
  let pool := nodePool (manager w) in
  length (gainNodes pool) = Z.to_nat capacity /\
  length (filterNodes pool) = Z.to_nat capacity /\
  length (pannerNodes pool) = Z.to_nat capacity /\
  NoDup (gainNodes pool) /\ NoDup (filterNodes pool) /\ NoDup (pannerNodes pool) /\
  (forall g, g ∈ gainNodes pool ->
     g < length (gainHeap (audioContext w)) /\ g <> masterGain (manager w)) /\
  (forall f, f ∈ filterNodes pool -> f < length (filterHeap (audioContext w))) /\
  (forall p, p ∈ pannerNodes pool -> p < length (pannerHeap (audioContext w))) /\
  paramAt (GainOf (masterGain (manager w))) w = Some (mkParam 1 []) /\
  registry w = ([], capacity, [], [], 0%Z).
Proof.
  intros E.
  destruct (construct_cases t0 orc random capacity)
    as [(w' & E' & Hk & _) | [(e & w' & E') _]]; [| congruence].
  assert (w' = w) by congruence. subst w'.
  destruct Hk as (Hp & Hg & Hf & Hpn & Hmg & H0).
  cbv zeta. rewrite Hp, Hmg, Hg, Hf, Hpn. cbn [gainNodes filterNodes pannerNodes].
  rewrite !length_seq.
  split; [reflexivity |]. split; [reflexivity |]. split; [reflexivity |].
  split; [apply NoDup_seq |]. split; [apply NoDup_seq |]. split; [apply NoDup_seq |].
  split; [intros g Hin; apply elem_of_seq in Hin; lia |].
  split; [intros f Hin; apply elem_of_seq in Hin; lia |].
  split; [intros p Hin; apply elem_of_seq in Hin; lia |].
  split; [exact H0 |]. exact (construct_registry _ _ _ _ _ E).
Qed.

Lemma constructor_fills_the_pool_witness :
  construct (newAudioContext 0 quiet) (fun _ => 0.5%R) 1 = (Ret tt, studio 1) /\
  length (gainNodes (nodePool (manager (studio 1)))) = Z.to_nat 1 /\
  registry (studio 1) = ([], 1%Z, [], [], 0%Z).
Proof.
  split; [exact studio_1_constructed |].
  destruct (constructor_fills_the_pool 0 quiet (fun _ => 0.5%R) 1 (studio 1)
              studio_1_constructed) as (Hg & _ & _ & _ & _ & _ & _ & _ & _ & _ & Hr).
  split; [exact Hg | exact Hr].
Defined.

(** ** destroy *)

(** What [destroy] does after [stopAll]. *)
Definition teardown : JS unit :=
  w <- get ;;
  disconnectGain (masterGain (manager w)) ;;;
  native ;;; native ;;; native ;;; native ;;;
  modifyManager (fun m =>
    setNodePool (mkPool [] (filterNodes (nodePool m)) (pannerNodes (nodePool m))) m) ;;;
  modifyManager (fun m =>
    setNodePool (mkPool (gainNodes (nodePool m)) [] (pannerNodes (nodePool m))) m) ;;;
  modifyManager (fun m =>
    setNodePool (mkPool (gainNodes (nodePool m)) (filterNodes (nodePool m)) []) m) ;;;
  modifyManager (setActiveVoices []) ;;;
  modifyManager (setCleanupQueue []) ;;;
  native.

Lemma destroy_teardown : destroy = tryCatch (stopAll ;;; teardown) (fun _ => ret tt).
Proof. reflexivity. Qed.

Definition Silent (w : World) : Prop :=
  activeVoices (manager w) = [] /\ cleanupQueue (manager w) = [].

Lemma teardown_keeps_silent : preserves Silent teardown.
Proof.
  unfold teardown.
  repeat first [preserves_step | unfold_head];
    (intros w [Ha Hq]; unfold wp, native, modifyAudio, modifyManager, modify, Silent;
     cbn; try destruct (faults _ _); cbn; split; first [assumption | reflexivity]).
Qed.

Lemma teardown_keeps_heap : keepsOn grainHeap teardown.
Proof. frame. Qed.

Lemma quiet_native : total NoFaults native.
Proof. apply total_native; [trivial | apply NoFaults_tick]. Qed.

Lemma quiet_disconnectGain r : total NoFaults (disconnectGain r).
Proof.
  unfold disconnectGain. apply total_bind; [apply total_deref | intros n].
  apply total_bind; [apply quiet_native | intros _].
  intros w H. exact H.
Qed.

Lemma teardown_empties_the_pool w :
  NoFaults w ->
  wp teardown (fun _ w' => nodePool (manager w') = mkPool [] [] []) (fun _ => False) w.
Proof.
  intros Hw. unfold teardown. apply wp_bind, wp_get.
  apply (wp_total NoFaults); [apply quiet_disconnectGain | exact Hw |]. clear w Hw.
  intros _ w Hw.
  do 4 (apply (wp_total NoFaults); [apply quiet_native | exact Hw |]; clear w Hw;
        intros _ w Hw).
  unfold wp, modifyManager. rewrite !modify_bind.
  rewrite native_returns by exact Hw. reflexivity.
Qed.

(** destroy never throws.  Whatever fails, it leaves no active voice, an
    empty cleanup queue, and every grain that was active switched off; on a
    platform without faults it also empties the three pools. *)
Theorem destroy_releases_everything capacity w :
  reachable capacity w ->
  exists w',
    destroy w = (Ret tt, w') /\
    activeVoices (manager w') = [] /\
    cleanupQueue (manager w') = [] /\
    (forall g, g ∈ activeVoices (manager w) -> isActive (grainHeap w' !!! g) = false) /\
    (NoFaults w -> nodePool (manager w') = mkPool [] [] []).
Proof.
  intros Hr.
  destruct (stopAll_returns_stopped capacity w Hr) as (w1 & E1 & Ha & Hq & Hoff & _).
  rewrite destroy_teardown, tryCatch_unit. eexists. split; [reflexivity |].
  rewrite (bind_returns _ _ _ _ _ E1).
  pose proof (preserves_snd Silent teardown w1 teardown_keeps_silent (conj Ha Hq)) as [Ha' Hq'].
  pose proof (keepsOn_snd grainHeap teardown w1 teardown_keeps_heap) as Hh.
  split; [exact Ha' |]. split; [exact Hq' |]. split.
  - intros g Hg. rewrite Hh. apply Hoff, Hg.
  - intros Hw.
    assert (Hw1 : NoFaults w1).
    { assert (Hk : keepsOn oracle stopAll) by frame.
      apply (NoFaults_oracle w); [| exact Hw]. exact (keepsOn_eq oracle _ _ _ _ Hk E1). }
    pose proof (teardown_empties_the_pool w1 Hw1) as H. unfold wp in H.
    destruct (teardown w1) as [[[]|e] w2]; [exact H | contradiction].
Qed.

Lemma destroy_releases_everything_witness :
  reachable 1 (runAll twoGrains (studio 1)) /\
  exists w', destroy (runAll twoGrains (studio 1)) = (Ret tt, w') /\
             activeVoices (manager w') = [] /\ isActive (grainHeap w' !!! 1) = false.
Proof.
  split; [exact twoGrains_reachable |].
  destruct (destroy_releases_everything 1 (runAll twoGrains (studio 1)) twoGrains_reachable)
    as (w' & E & Ha & _ & Hoff & _).
  exists w'. split; [exact E |]. split; [exact Ha |].
  apply Hoff. rewrite twoGrains_active. left.
Defined.


(** ** A grain that the platform refuses to start *)

Lemma total_keeps {A T} (I : World -> Prop) (proj : World -> T) (m : JS A) x :
  total I m -> keepsOn proj m -> total (fun w => I w /\ proj w = x) m.
Proof.
  intros Ht Hk w [Hi Hp]. pose proof (Ht w Hi) as H1. pose proof (Hk x w Hp) as H2.
  unfold wp in *. destruct (m w) as [[a|e] w']; [split; assumption | exact H1].
Qed.

(** The pool after one acquisition. *)
Definition popped (pool : NodePool) : NodePool :=
  mkPool (removelast (gainNodes pool)) (removelast (filterNodes pool))
         (removelast (pannerNodes pool)).

(** The node pool and the grains. *)
Definition stock (w : World) : NodePool * list Grain := (nodePool (manager w), grainHeap w).

Lemma orCreate_total src popped create :
  total (Ready src) create -> total (Ready src) (orCreate popped create).
Proof. intros H. destruct popped; [apply total_ret | exact H]. Qed.

Lemma createGain_ready src : total (Ready src) createGain.
Proof. total_auto. Qed.
Lemma createBiquadFilter_ready src : total (Ready src) createBiquadFilter.
Proof. total_auto. Qed.
Lemma createStereoPanner_ready src : total (Ready src) createStereoPanner.
Proof. total_auto. Qed.

Lemma orCreate_keeps_stock popped create :
  keepsOn stock create -> keepsOn stock (orCreate popped create).
Proof. intros H. destruct popped; [intros x; apply preserves_ret | exact H]. Qed.

Lemma create_keeps_stock :
  keepsOn stock createGain /\ keepsOn stock createBiquadFilter /\
  keepsOn stock createStereoPanner.
Proof. split; [| split]; frame. Qed.

Lemma getPooledNodes_pops src w :
  Ready src w ->
  wp getPooledNodes
     (fun _ w' => Ready src w' /\ stock w' = (popped (nodePool (manager w)), grainHeap w))
     (fun _ => False) w.
Proof.
  intros Hw. destruct create_keeps_stock as (KG & KF & KP).
  unfold getPooledNodes. apply wp_tryCatch.
  apply (wp_mono _ (fun _ w' => Ready src w' /\
                                stock w' = (popped (nodePool (manager w)), grainHeap w))
           _ (fun _ => False)); [| trivial | intros ? []].
  set (P := nodePool (manager w)). set (H := grainHeap w).
  (* gain *)
  apply wp_bind.
  apply (wp_mono _ (fun _ w' => Ready src w' /\
            stock w' = (mkPool (removelast (gainNodes P)) (filterNodes P) (pannerNodes P), H))
           _ (fun _ => False)); [| | intros ? []].
  { unfold wp, popGainNode, bind, get, modifyManager, modify, ret. cbn. split; [exact Hw |].
    reflexivity. }
  clearbody P H. clear w Hw. intros pg w Hw.
  apply (wp_total _ _ _ _ _ _
           (total_keeps _ stock _ _ (orCreate_total src pg _ (createGain_ready src))
              (orCreate_keeps_stock pg _ KG)) Hw).
  clear w Hw. intros g w Hw.
  (* filter *)
  apply wp_bind.
  apply (wp_mono _ (fun _ w' => Ready src w' /\
            stock w' = (mkPool (removelast (gainNodes P)) (removelast (filterNodes P))
                               (pannerNodes P), H))
           _ (fun _ => False)); [| | intros ? []].
  { destruct Hw as [Hw Hs]. unfold stock in Hs. injection Hs as Hp Hh.
    unfold wp, popFilterNode, bind, get, modifyManager, modify, ret. cbn.
    split; [exact Hw |]. unfold stock. cbn. rewrite Hp, Hh. reflexivity. }
  clear w Hw. intros pf w Hw.
  apply (wp_total _ _ _ _ _ _
           (total_keeps _ stock _ _ (orCreate_total src pf _ (createBiquadFilter_ready src))
              (orCreate_keeps_stock pf _ KF)) Hw).
  clear w Hw. intros f w Hw.
  (* panner *)
  apply wp_bind.
  apply (wp_mono _ (fun _ w' => Ready src w' /\ stock w' = (popped P, H))
           _ (fun _ => False)); [| | intros ? []].
  { destruct Hw as [Hw Hs]. unfold stock in Hs. injection Hs as Hp Hh.
    unfold wp, popPannerNode, bind, get, modifyManager, modify, ret. cbn.
    split; [exact Hw |]. unfold stock, popped. cbn. rewrite Hp, Hh. reflexivity. }
  clear w Hw. intros pp w Hw.
  apply (wp_total _ _ _ _ _ _
           (total_keeps _ stock _ _ (orCreate_total src pp _ (createStereoPanner_ready src))
              (orCreate_keeps_stock pp _ KP)) Hw).
  clear w Hw. intros p w Hw. apply wp_ret. exact Hw.
Qed.

Lemma wp_and {A} (m : JS A) (Q1 Q2 : A -> World -> Prop) (E : World -> Prop) w :
  wp m Q1 E w -> wp m Q2 (fun _ => True) w -> wp m (fun a w' => Q1 a w' /\ Q2 a w') E w.
Proof. unfold wp. destruct (m w) as [[a|e] w']; [split; assumption | trivial]. Qed.

Lemma keepsOn_wp {A T} (proj : World -> T) (m : JS A) w :
  keepsOn proj m -> wp m (fun _ w' => proj w' = proj w) (fun _ => True) w.
Proof.
  intros Hk. pose proof (Hk (proj w) w eq_refl) as H. unfold wp in *.
  destruct (m w) as [[a|e] w']; [exact H | exact I].
Qed.

Ltac kept tot :=
  match goal with
  | Hw : Ready ?src ?w /\ stock ?w = ?x |- wp (bind _ _) _ _ ?w =>
      apply (wp_total (fun w0 => Ready src w0 /\ stock w0 = x));
      [ apply total_keeps; [tot | frame] | exact Hw | clear w Hw; intros ? w Hw ]
  end.

Lemma start_refuses src startTime position duration w :
  (startTime < 0 \/ position < 0 \/ duration < 0)%R -> NoFaults w ->
  start src startTime position duration w = (Throw RangeError, tick w).
Proof.
  intros Hbad Hw. unfold start, getSourceNode.
  rewrite (bind_returns _ _ w (sourceHeap (audioContext w) !!! src) w) by reflexivity.
  rewrite (bind_returns _ _ _ _ _ (native_returns w Hw)).
  apply bind_throws.
  assert (Hb : Rltb startTime 0 || Rltb position 0 || Rltb duration 0 = true).
  { destruct Hbad as [H | [H | H]]; rewrite (Rltb_true _ _ H);
      rewrite ?orb_true_r; reflexivity. }
  rewrite Hb. reflexivity.
Qed.

(** When the platform refuses to start the source (a negative start time,
    position or duration), createOptimizedGrain returns null with no grain
    made, and the nodes it took from the pool are not put back. *)
Lemma createOptimizedGrain_refused buffer params startTime duration position w :
  NoFaults w -> (startTime < 0 \/ position < 0 \/ duration < 0)%R ->
  exists w',
    createOptimizedGrain buffer params startTime duration position w = (Ret None, w') /\
    nodePool (manager w') = popped (nodePool (manager w)) /\
    grainHeap w' = grainHeap w /\ NoFaults w'.
Proof.
  intros Hw0 Hbad.
  assert (H : wp (createOptimizedGrain buffer params startTime duration position)
                 (fun o w' => o = None /\ NoFaults w' /\
                              stock w' = (popped (nodePool (manager w)), grainHeap w))
                 (fun _ => False) w).
  { unfold createOptimizedGrain. apply wp_tryCatch.
    set (Goal := fun w' => NoFaults w' /\
                           stock w' = (popped (nodePool (manager w)), grainHeap w)).
    apply (wp_mono _ (fun _ _ => False) _ Goal);
      [| intros ? ? [] | intros w' H e; apply wp_ret; split; [reflexivity | exact H]].
    apply wp_bind.
    assert (Hk : keepsOn stock createBufferSource) by frame.
    eapply wp_mono;
      [apply (wp_and _ _ _ _ _ (createBufferSource_ready w Hw0) (keepsOn_wp stock _ w Hk))
      | | intros ? []].
    cbv beta. intros src w1 Hw. change (stock w) with (nodePool (manager w), grainHeap w) in Hw.
    unfold Goal. clearbody Goal. revert Hw.
    generalize (nodePool (manager w)) (grainHeap w). clear w Hw0 Hk. intros P H Hw.
    rename w1 into w.
    kept ltac:(apply setBuffer_total).
    kept ltac:(apply setRate_total).
    apply wp_bind.
    eapply wp_mono; [apply (getPooledNodes_pops src w), Hw | | intros ? []].
    cbv beta. destruct Hw as [_ Hs]. unfold stock in Hs. injection Hs as -> ->.
    clear w. intros nodes w Hw.
    kept ltac:(solve [total_auto]).
    kept ltac:(solve [total_auto]).
    cbv zeta.
    kept ltac:(solve [total_auto]).
    kept ltac:(solve [total_auto]).
    kept ltac:(solve [total_auto]).
    kept ltac:(apply connectSource_total).
    kept ltac:(solve [total_auto]).
    kept ltac:(solve [total_auto]).
    kept ltac:(solve [total_auto]).
    kept ltac:(solve [total_auto]).
    destruct Hw as [[Hw _] Hs].
    unfold wp. rewrite (bind_throws _ _ _ _ _ (start_refuses _ _ _ _ _ Hbad Hw)).
    split; [apply NoFaults_tick, Hw | exact Hs]. }
  unfold wp in H. destruct (createOptimizedGrain _ _ _ _ _ w) as [[o|e] w']; [| contradiction].
  destruct H as (-> & Hn & Hs). unfold stock in Hs. injection Hs as Hp Hh.
  exists w'. repeat split; assumption.
Qed.

Theorem createOptimizedGrain_keeps_the_nodes_it_took buffer params startTime duration position w :
  NoFaults w -> (startTime < 0 \/ position < 0 \/ duration < 0)%R ->
  exists w',
    createOptimizedGrain buffer params startTime duration position w = (Ret None, w') /\
    nodePool (manager w') = popped (nodePool (manager w)) /\
    grainHeap w' = grainHeap w /\ NoFaults w'.
Proof. exact (createOptimizedGrain_refused buffer params startTime duration position w). Qed.

Lemma createOptimizedGrain_keeps_the_nodes_it_took_witness :
  NoFaults (studio 1) /\ ((-1) < 0 \/ 0 < 0 \/ 1 < 0)%R /\
  exists w',
    createOptimizedGrain demoBuffer (knobs 0 3 200 0.7) (-1) 1 0 (studio 1) = (Ret None, w') /\
    nodePool (manager w') = popped (nodePool (manager (studio 1))).
Proof.
  assert (Hbad : ((-1) < 0 \/ 0 < 0 \/ 1 < 0)%R) by (left; lra).
  split; [apply studio_NoFaults |]. split; [exact Hbad |].
  destruct (createOptimizedGrain_keeps_the_nodes_it_took demoBuffer (knobs 0 3 200 0.7)
              (-1) 1 0 (studio 1) (studio_NoFaults 1) Hbad) as (w' & E & Hp & _).
  exists w'. split; assumption.
Defined.

Lemma prepareR_active_subset now x h :
  h ∈ activeOf (prepareR now x) -> h ∈ activeOf x.
Proof.
  revert h.
  apply (prepareR_keeps (fun y => forall h, h ∈ activeOf y -> h ∈ activeOf x));
    [| | trivial].
  - intros g y Hy h Hh. apply Hy.
    destruct y as [[[[heap mv] active] queue] lc]. cbn in Hh |- *.
    destruct (isActive _); cbn in Hh; [apply Set_delete_elem in Hh; tauto | exact Hh].
  - intros heap mv active q lc q' lc' Hy. exact Hy.
Qed.

(** On a platform without faults, createGrain with a negative start time,
    position or duration returns null: the call is counted and no voice is
    added. *)
Theorem createGrain_refuses_negative_times buffer params startTime duration position w :
  NoFaults w -> (startTime < 0 \/ position < 0 \/ duration < 0)%R ->
  exists w',
    createGrain buffer params startTime duration position w = (Ret None, w') /\
    (forall h, h ∈ activeVoices (manager w') -> h ∈ activeVoices (manager w)) /\
    lastCleanup (manager w') = (lastCleanup (manager w) + 1)%Z.
Proof.
  intros Hw Hbad.
  destruct (createGrain_steps buffer params startTime duration position w)
    as (o & w' & x & w2 & w3 & E & Hc & Hr & O2 & _ & E3).
  destruct (createOptimizedGrain_refused buffer params startTime duration position w2)
    as (w3' & E3' & _); [apply (NoFaults_oracle w); assumption | exact Hbad |].
  rewrite E3 in E3'. injection E3' as -> _.
  exists w'. split; [exact E |].
  pose proof (created_countOf _ _ _ _ (startTime + duration + CLEANUP_DELAY)%R Hc) as Hcount.
  rewrite <- Hr, prepareR_countOf in Hcount. split; [| exact Hcount].
  intros h Hh. apply (prepareR_active_subset (currentTime (audioContext w)) (registry w)).
  change (h ∈ activeOf (registry w')) in Hh. rewrite Hr in Hh. cbn [admitR] in Hh.
  destruct (prepareR _ _) as [[[[heap mv] active] queue] lc].
  cbn in Hc. destruct Hc as (tail & -> & _). exact Hh.
Qed.

Lemma createGrain_refuses_negative_times_witness :
  NoFaults (studio 1) /\ (0 < 0 \/ 0 < 0 \/ (-1) < 0)%R /\
  exists w', createGrain demoBuffer (knobs 0 3 200 0.7) 0 (-1) 0 (studio 1) = (Ret None, w').
Proof.
  assert (Hbad : (0 < 0 \/ 0 < 0 \/ (-1) < 0)%R) by (right; right; lra).
  split; [apply studio_NoFaults |]. split; [exact Hbad |].
  destruct (createGrain_refuses_negative_times demoBuffer (knobs 0 3 200 0.7)
              0 (-1) 0 (studio 1) (studio_NoFaults 1) Hbad) as (w' & E & _).
  exists w'. exact E.
Defined.

(** ** The sequencer *)

Module SequencerFacts.
Import Sequencer.

(** *** The random slot *)

(** Slot [i] holds a buffer and is active for playback. *)
Definition playable (st : PlaybackState) (i : nat) : Prop :=
  exists b, audioBuffers st !! i = Some (Some b) /\
            truthy (_isSlotActiveForPlayback st (Some (Z.of_nat i))) = true.

Lemma elem_of_availableSlots st i : i ∈ availableSlots st <-> playable st i.
Proof.
  unfold availableSlots, playable. rewrite list_elem_of_omap. split.
  - intros (o & Ho & Hi). apply elem_of_lookup_imap in Ho as (j & b & -> & Hb).
    destruct b as [b|]; cbn [loaded andb] in Hi; [| discriminate].
    destruct (truthy _) eqn:Ht; cbn in Hi; [| discriminate].
    injection Hi as ->. exists b. split; assumption.
  - intros (b & Hb & Ht). exists (Some i). split; [| reflexivity].
    apply elem_of_lookup_imap. exists i, (Some b). split; [| exact Hb].
    cbn [loaded andb]. rewrite Ht. reflexivity.
Qed.

Lemma floor_index (x : R) (n : nat) :
  (0 <= x < INR n)%R -> exists k, k < n /\ Int_part x = Z.of_nat k.
Proof.
  intros [H0 Hn]. destruct (base_Int_part x) as [H1 H2].
  assert (Hlo : (-1 < Int_part x)%Z) by (apply lt_IZR; lra).
  assert (Hhi : (Int_part x < Z.of_nat n)%Z).
  { apply lt_IZR. rewrite <- INR_IZR_INZ. lra. }
  exists (Z.to_nat (Int_part x)). split; lia.
Qed.

Lemma _pickRandomLoadedSlot_returns st w :
  UnitRandom w ->
  exists p w', _pickRandomLoadedSlot st w = (Ret p, w') /\
    match p with
    | PickedNull => forall i, ~ playable st i
    | PickedSlot i => playable st i
    | PickedUndefined => False
    end.
Proof.
  intros Hu. unfold _pickRandomLoadedSlot. cbv zeta.
  destruct (availableSlots st) as [|a l] eqn:Ea.
  - cbn. exists PickedNull, w. split; [reflexivity |].
    intros i Hi. apply elem_of_availableSlots in Hi. rewrite Ea in Hi. inversion Hi.
  - change (Nat.eqb (length (a :: l)) 0) with false. cbv iota.
    unfold bind, Math_random, ret. cbn -[INR Int_part length Array_at].
    set (r := randomSource w (randomDraws w)).
    destruct (floor_index (r * INR (length (a :: l))) (length (a :: l))) as (k & Hk & Ek).
    { pose proof (Hu (randomDraws w)) as Hr. fold r in Hr.
      assert (0 < INR (length (a :: l)))%R by (apply lt_0_INR; cbn; lia).
      split; nra. }
    rewrite Ek. unfold Array_at.
    destruct (Z.ltb_spec (Z.of_nat k) 0) as [Hneg | _]; [lia |].
    rewrite Nat2Z.id.
    destruct (lookup_lt_is_Some_2 (a :: l) k Hk) as [i Hi]. rewrite Hi.
    eexists _, _. split; [reflexivity |].
    apply elem_of_availableSlots. rewrite Ea. apply (list_elem_of_lookup_2 _ k), Hi.
Qed.

(** With random draws in [0, 1) the random slot is a slot that holds a
    buffer and is active for playback; the result is null exactly when there
    is no such slot, and never undefined. *)
Theorem _pickRandomLoadedSlot_picks_a_playable_slot st w :
  UnitRandom w ->
  exists p w', _pickRandomLoadedSlot st w = (Ret p, w') /\
    match p with
    | PickedNull => forall i, ~ playable st i
    | PickedSlot i => playable st i
    | PickedUndefined => False
    end.
Proof. exact (_pickRandomLoadedSlot_returns st w). Qed.

Lemma _pickRandomLoadedSlot_picks_a_playable_slot_witness :
  UnitRandom (studio 1) /\
  exists p w',
    _pickRandomLoadedSlot (mkPlayback [None; Some demoBuffer] [false; false] [false; false] 0 0)
                          (studio 1) = (Ret p, w') /\
    match p with
    | PickedNull =>
        forall i, ~ playable (mkPlayback [None; Some demoBuffer] [false; false]
                                         [false; false] 0 0) i
    | PickedSlot i =>
        playable (mkPlayback [None; Some demoBuffer] [false; false] [false; false] 0 0) i
    | PickedUndefined => False
    end.
Proof.
  assert (Hu : UnitRandom (studio 1)) by (intros n; rewrite studio_random; lra).
  split; [exact Hu |].
  exact (_pickRandomLoadedSlot_picks_a_playable_slot _ (studio 1) Hu).
Defined.

(** *** One tick *)

Section TickOutcome.
Variables (slotMode : Z) (getStep : option Z -> Z -> bool) (knobs : option Z -> Params).
Variable st : PlaybackState.

Let count (w : World) : Z := lastCleanup (manager w).

Definition triggerIfEligible (s : option Z) : JS unit :=
  if eligible getStep st s
  then _triggerGrainForSlot (bufferOf st s) (knobs s) (lfoStartTime st)
  else ret tt.

Lemma _triggerGrainForSlot_bounds buffer params lfoStart w :
  exists w', _triggerGrainForSlot buffer params lfoStart w = (Ret tt, w') /\
    (count w <= count w' <= count w + 20)%Z /\ oracle w' = oracle w.
Proof.
  assert (Hk : keepsOn oracle (_triggerGrainForSlot buffer params lfoStart)) by frame.
  destruct buffer as [buffer|].
  - destruct (_triggerGrainForSlot_counts buffer params lfoStart w) as (_ & w' & E & H1 & H2).
    exists w'. split; [exact E |]. unfold count.
    split; [lia | exact (keepsOn_eq oracle _ _ _ _ Hk E)].
  - exists w. split; [reflexivity |]. unfold count. split; [lia | reflexivity].
Qed.

Lemma triggerIfEligible_bounds s w :
  exists w', triggerIfEligible s w = (Ret tt, w') /\
    (count w <= count w' <= count w + 20)%Z /\ oracle w' = oracle w /\
    (eligible getStep st s = false -> w' = w).
Proof.
  unfold triggerIfEligible. destruct (eligible getStep st s).
  - destruct (_triggerGrainForSlot_bounds (bufferOf st s) (knobs s) (lfoStartTime st) w)
      as (w' & E & Hc & Ho).
    exists w'. split; [exact E |]. split; [exact Hc |]. split; [exact Ho | discriminate].
  - exists w. split; [reflexivity |]. split; [lia |]. split; reflexivity.
Qed.

Lemma forEach_trigger_bounds l : forall w,
  exists w', forEach l triggerIfEligible w = (Ret tt, w') /\
    (count w <= count w' <= count w + 20 * Z.of_nat (length l))%Z /\
    oracle w' = oracle w /\
    ((forall s, s ∈ l -> eligible getStep st s = false) -> w' = w).
Proof.
  induction l as [|s l IH]; intros w; cbn [forEach].
  - exists w. split; [reflexivity |]. split; [cbn; lia |]. split; reflexivity.
  - destruct (triggerIfEligible_bounds s w) as (w1 & E1 & Hc1 & Ho1 & Hs1).
    destruct (IH w1) as (w2 & E2 & Hc2 & Ho2 & Hs2).
    exists w2. rewrite (bind_returns _ _ _ _ _ E1). split; [exact E2 |].
    split; [cbn [length]; lia |]. split; [congruence |].
    intros Hall. rewrite Hs2, Hs1; [reflexivity | apply Hall; left |].
    intros s' Hs'. apply Hall. right. exact Hs'.
Qed.

Definition targetSlots : JS (list (option Z)) :=
  if (slotMode =? 4)%Z then ret (map (fun i => Some (Z.of_nat i)) (seq 0 SLOTS))
  else if (slotMode =? 5)%Z then
    randomSlot <- _pickRandomLoadedSlot st ;;
    ret (match randomSlot with
         | PickedNull => []
         | PickedUndefined => [None]
         | PickedSlot slot => [Some (Z.of_nat slot)]
         end)
  else ret [Some slotMode].

Lemma targetSlots_returns w :
  exists l w', targetSlots w = (Ret l, w') /\ length l <= SLOTS /\
    count w' = count w /\ oracle w' = oracle w /\ registry w' = registry w.
Proof.
  unfold targetSlots. destruct (slotMode =? 4)%Z.
  - eexists _, w. split; [reflexivity |]. rewrite length_map, length_seq. auto.
  - destruct (slotMode =? 5)%Z.
    + unfold _pickRandomLoadedSlot. cbv zeta. destruct (Nat.eqb _ 0).
      * eexists _, w. split; [reflexivity |]. cbn. unfold SLOTS. split; [lia | auto].
      * unfold bind, Math_random, ret. eexists _, _. split; [reflexivity |].
        split; [destruct (Array_at _ _); cbn; unfold SLOTS; lia |]. auto.
    + eexists _, w. split; [reflexivity |]. cbn. unfold SLOTS. split; [lia | auto].
Qed.

Definition advanced : PlaybackState :=
  setCurrentSequencerStep (Z.rem (currentSequencerStep st + 1) SEQUENCER_STEPS) st.

Lemma _sequencerTick_unfold :
  _sequencerTick slotMode getStep knobs st
  = tryCatch (l <- targetSlots ;; forEach l triggerIfEligible ;;; native ;;; ret advanced)
             (fun _ => ret st).
Proof. reflexivity. Qed.

(** A tick never throws.  It triggers at most 20 grains for each of at most
    four slots, and none at all when no slot is eligible (loaded, its step
    on, active for playback); then it moves the step counter to
    (step + 1) % 16, which stays in [0, 16), unless the update of the page
    threw, in which case the counter stays where it was. *)
Theorem _sequencerTick_outcome w :
  exists st' w',
    _sequencerTick slotMode getStep knobs st w = (Ret st', w') /\
    (st' = st \/ st' = advanced) /\
    (NoFaults w -> st' = advanced) /\
    ((0 <= currentSequencerStep st < SEQUENCER_STEPS)%Z ->
     (0 <= currentSequencerStep st' < SEQUENCER_STEPS)%Z) /\
    (lastCleanup (manager w) <= lastCleanup (manager w')
     <= lastCleanup (manager w) + 80)%Z /\
    ((forall s, eligible getStep st s = false) -> registry w' = registry w).
Proof.
  rewrite _sequencerTick_unfold.
  destruct (targetSlots_returns w) as (l & w1 & E1 & Hlen & Hc1 & Ho1 & Hr1).
  destruct (forEach_trigger_bounds l w1) as (w2 & E2 & Hc2 & Ho2 & Hs2).
  assert (Hrange : (0 <= currentSequencerStep st < SEQUENCER_STEPS)%Z ->
                   (0 <= currentSequencerStep advanced < SEQUENCER_STEPS)%Z).
  { intros Hst. unfold advanced, SEQUENCER_STEPS in *. cbn.
    pose proof (Z.rem_bound_pos (currentSequencerStep st + 1) 16). lia. }
  assert (Hcount : (count w <= count w2 <= count w + 80)%Z).
  { unfold SLOTS in Hlen. lia. }
  assert (Hsilent : (forall s, eligible getStep st s = false) -> registry (tick w2) = registry w).
  { intros Hall. rewrite Hs2 by (intros s _; apply Hall). exact Hr1. }
  unfold tryCatch.
  rewrite (bind_returns _ _ _ _ _ E1), (bind_returns _ _ _ _ _ E2).
  destruct (native_cases w2) as [En | [En (k & Hk)]].
  - rewrite (bind_returns _ _ _ _ _ En). cbn [ret].
    exists advanced, (tick w2). split; [reflexivity |]. split; [right; reflexivity |].
    split; [reflexivity |]. split; [exact Hrange |]. split; [exact Hcount | exact Hsilent].
  - rewrite (bind_throws _ _ _ _ _ En). cbn [ret].
    exists st, (tick w2). split; [reflexivity |]. split; [left; reflexivity |].
    split; [| split; [trivial | split; [exact Hcount | exact Hsilent]]].
    intros Hw. rewrite Ho2, Ho1 in Hk. unfold oracle in Hk. rewrite (Hw k) in Hk. discriminate.
Qed.
End TickOutcome.
End SequencerFacts.


(** ** Acquisition of a node triple *)

(** From pools that all hold a node, getPooledNodes takes the node pushed
    last on each, makes no platform call, cannot fail, and changes nothing
    but the pools. *)
Theorem getPooledNodes_takes_the_last_pushed w gs g fs f ps p :
  nodePool (manager w) = mkPool (gs ++ [g]) (fs ++ [f]) (ps ++ [p]) ->
  getPooledNodes w
  = (Ret (mkNodes g f p), setManager (setNodePool (mkPool gs fs ps) (manager w)) w).
Proof.
  destruct w as [ac rs rd gh [mv av cq lc mg pool]]. cbn. intros ->.
  unfold getPooledNodes, tryCatch, bind, popGainNode, popFilterNode, popPannerNode,
    modifyManager, modify, get, Array_pop. cbn.
  repeat (progress (rewrite ?last_snoc, ?removelast_last; cbn)).
  reflexivity.
Qed.

Lemma construct_quiet t0 orc random capacity :
  (forall k, orc k = false) ->
  constructed orc capacity (snd (construct (newAudioContext t0 orc) random capacity)).
Proof.
  intros Hq.
  destruct (construct_cases t0 orc random capacity)
    as [(w & E & Hk) | [(e & w & E) (k & _ & Hk)]].
  - rewrite E. exact Hk.
  - rewrite Hq in Hk. discriminate.
Qed.

Lemma studio_constructed_pool capacity : constructed quiet capacity (studio capacity).
Proof. unfold studio. apply construct_quiet. intros k. reflexivity. Qed.

Lemma studio_1_pool : nodePool (manager (studio 1)) = mkPool ([] ++ [1]) ([] ++ [0]) ([] ++ [0]).
Proof. destruct (studio_constructed_pool 1) as ((Hp & _) & _). exact Hp. Qed.

Lemma getPooledNodes_takes_the_last_pushed_witness :
  nodePool (manager (studio 1)) = mkPool ([] ++ [1]) ([] ++ [0]) ([] ++ [0]) /\
  getPooledNodes (studio 1)
  = (Ret (mkNodes 1 0 0),
     setManager (setNodePool (mkPool [] [] []) (manager (studio 1))) (studio 1)).
Proof.
  split; [exact studio_1_pool |].
  exact (getPooledNodes_takes_the_last_pushed (studio 1) [] 1 [] 0 [] 0 studio_1_pool).
Defined.

(** From empty pools, on a platform whose calls succeed, getPooledNodes
    creates three new nodes with the defaults of the platform (gain 1,
    a lowpass at 350 Hz, pan 0, nothing connected or scheduled) and leaves
    the pools empty. *)
Theorem getPooledNodes_creates_when_empty w :
  nodePool (manager w) = mkPool [] [] [] -> NoFaults w ->
  exists w',
    getPooledNodes w
    = (Ret (mkNodes (length (gainHeap (audioContext w)))
                    (length (filterHeap (audioContext w)))
                    (length (pannerHeap (audioContext w)))), w') /\
    gainHeap (audioContext w') = gainHeap (audioContext w) ++ [freshGain] /\
    filterHeap (audioContext w') = filterHeap (audioContext w) ++ [freshFilter] /\
    pannerHeap (audioContext w') = pannerHeap (audioContext w) ++ [freshPanner] /\
    nodePool (manager w') = mkPool [] [] [] /\
    calls (audioContext w') = calls (audioContext w) + 3.
Proof.
  destruct w as [[t orc c gh fh ph sh] rs rd grains [mv av cq lc mg pool]]. cbn.
  intros -> Hw. unfold NoFaults in Hw. cbn in Hw.
  unfold getPooledNodes, tryCatch, bind, popGainNode, popFilterNode, popPannerNode, orCreate,
    createGain, createBiquadFilter, createStereoPanner, alloc, modifyAudio,
    modifyManager, modify, native, get, ret, bind, Array_pop.
  cbn. repeat (progress (rewrite ?Hw; cbn)). eexists. split; [reflexivity |]. cbn.
  repeat split. lia.
Qed.

Lemma getPooledNodes_creates_when_empty_witness :
  nodePool (manager (studio 0)) = mkPool [] [] [] /\ NoFaults (studio 0) /\
  exists w',
    getPooledNodes (studio 0)
    = (Ret (mkNodes (length (gainHeap (audioContext (studio 0))))
                    (length (filterHeap (audioContext (studio 0))))
                    (length (pannerHeap (audioContext (studio 0))))), w') /\
    nodePool (manager w') = mkPool [] [] [].
Proof.
  assert (Hp : nodePool (manager (studio 0)) = mkPool [] [] [])
    by (destruct (studio_constructed_pool 0) as ((Hp & _) & _); exact Hp).
  split; [exact Hp |]. split; [apply studio_NoFaults |].
  destruct (getPooledNodes_creates_when_empty (studio 0) Hp (studio_NoFaults 0))
    as (w' & E & _ & _ & _ & Hp' & _).
  exists w'. split; assumption.
Defined.


(** ** Who holds a node *)

(** The nodes of one kind ([sel] picks the gain, the filter or the panner of
    a triple) that the active grains of a store hold. *)
Definition voiceNodes (sel : NodeTriple -> nat) (heap : list Grain) : list nat :=
  omap (fun gr => if isActive gr then Some (sel (nodes gr)) else None) heap.

(** References that are pairwise different and denote nodes of a store of
    [size] nodes. *)
Definition Distinct (l : list nat) (size : nat) : Prop :=
  NoDup l /\ Forall (fun r => r < size) l.

(** What the ownership of the nodes depends on. *)
Definition Holdings : Type := list Grain * NodePool * nat * (nat * nat * nat).

Definition holdings (w : World) : Holdings :=
  (grainHeap w, nodePool (manager w), masterGain (manager w),
   (length (gainHeap (audioContext w)), length (filterHeap (audioContext w)),
    length (pannerHeap (audioContext w)))).

(** Every node has one holder: the manager (its master gain), an active
    grain, a pool, or a call in progress ([xg], [xf], [xp]: the nodes it
    took and has not handed on yet). *)
Definition OwnedOn (xg xf xp : list nat) (h : Holdings) : Prop :=
  let '(heap, pool, master, (ng, nf, np)) := h in
  Distinct (master :: xg ++ voiceNodes gainNode heap ++ gainNodes pool) ng /\
  Distinct (xf ++ voiceNodes filterNode heap ++ filterNodes pool) nf /\
  Distinct (xp ++ voiceNodes pannerNode heap ++ pannerNodes pool) np.

Definition Owned (xg xf xp : list nat) (w : World) : Prop := OwnedOn xg xf xp (holdings w).

Lemma submseteq_keeps_NoDup (l k : list nat) : l ⊆+ k -> NoDup k -> NoDup l.
Proof.
  induction 1 as [| x l k Hs IH | x y l | x l k Hs IH | l k m H1 IH1 H2 IH2]; intros Hk.
  - exact Hk.
  - apply NoDup_cons in Hk as [Hx Hk]. apply NoDup_cons. split; [| apply IH, Hk].
    intros Hin. apply Hx. exact (elem_of_submseteq _ _ _ Hin Hs).
  - apply NoDup_cons in Hk as [Hx Hk]. apply NoDup_cons in Hk as [Hy Hk].
    rewrite !NoDup_cons. rewrite elem_of_cons in Hx |- *.
    split; [| split; [| exact Hk]]; intros Hin.
    + destruct Hin as [-> | Hin]; [apply Hx; left; reflexivity | exact (Hy Hin)].
    + apply Hx. right. exact Hin.
  - apply NoDup_cons in Hk as [_ Hk]. apply IH, Hk.
  - apply IH1, IH2, Hk.
Qed.

Lemma Distinct_sub l k s s' : l ⊆+ k -> s <= s' -> Distinct k s -> Distinct l s'.
Proof.
  intros Hs Hle [Hn Hf]. split; [exact (submseteq_keeps_NoDup _ _ Hs Hn) |].
  rewrite Forall_forall in Hf |- *. intros x Hx.
  specialize (Hf x (elem_of_submseteq _ _ _ Hx Hs)). lia.
Qed.

Lemma Distinct_fresh l k s : l ⊆+ s :: k -> Distinct k s -> Distinct l (S s).
Proof.
  intros Hs [Hn Hf]. apply (Distinct_sub l (s :: k) (S s)); [exact Hs | lia |].
  split.
  - apply NoDup_cons. split; [| exact Hn]. intros Hin.
    rewrite Forall_forall in Hf. specialize (Hf s Hin). lia.
  - apply Forall_cons. split; [lia |]. eapply Forall_impl; [exact Hf |]. cbn. intros; lia.
Qed.

Lemma voiceNodes_snoc sel heap gr :
  voiceNodes sel (heap ++ [gr])
  = voiceNodes sel heap ++ (if isActive gr then [sel (nodes gr)] else []).
Proof. unfold voiceNodes. rewrite omap_app. cbn. destruct (isActive gr); reflexivity. Qed.

(** Taking an active grain out of use frees its node. *)
Lemma voiceNodes_deactivate sel (heap : list Grain) g :
  isActive (heap !!! g) = true ->
  voiceNodes sel heap
  ≡ₚ sel (nodes (heap !!! g))
     :: voiceNodes sel
          (<[g := mkGrain (source (heap !!! g)) (nodes (heap !!! g))
                          (endTime (heap !!! g)) false]> heap).
Proof.
  intros Hact. pose proof (isActive_in_range heap g Hact) as Hlt.
  apply lookup_lt_is_Some in Hlt as [gr Hgr].
  rewrite (list_lookup_total_correct _ _ _ Hgr) in Hact |- *.
  rewrite insert_take_drop by (apply lookup_lt_Some in Hgr; exact Hgr).
  rewrite <- (take_drop_middle heap g gr Hgr) at 1.
  unfold voiceNodes. rewrite !omap_app. cbn. rewrite Hact.
  symmetry. apply Permutation_middle.
Qed.

Lemma keeps_owned {A} xg xf xp (m : JS A) :
  keepsOn holdings m -> preserves (Owned xg xf xp) m.
Proof. exact (keepsOn_preserves holdings m (OwnedOn xg xf xp)). Qed.

(** From one holder to another: the nodes held afterwards were held before,
    and no store has shrunk. *)
Lemma Owned_transfer xg xf xp xg' xf' xp' w w' :
  Owned xg xf xp w ->
  masterGain (manager w') = masterGain (manager w) ->
  xg' ++ voiceNodes gainNode (grainHeap w') ++ gainNodes (nodePool (manager w'))
    ⊆+ xg ++ voiceNodes gainNode (grainHeap w) ++ gainNodes (nodePool (manager w)) ->
  xf' ++ voiceNodes filterNode (grainHeap w') ++ filterNodes (nodePool (manager w'))
    ⊆+ xf ++ voiceNodes filterNode (grainHeap w) ++ filterNodes (nodePool (manager w)) ->
  xp' ++ voiceNodes pannerNode (grainHeap w') ++ pannerNodes (nodePool (manager w'))
    ⊆+ xp ++ voiceNodes pannerNode (grainHeap w) ++ pannerNodes (nodePool (manager w)) ->
  length (gainHeap (audioContext w)) <= length (gainHeap (audioContext w')) ->
  length (filterHeap (audioContext w)) <= length (filterHeap (audioContext w')) ->
  length (pannerHeap (audioContext w)) <= length (pannerHeap (audioContext w')) ->
  Owned xg' xf' xp' w'.
Proof.
  unfold Owned, holdings, OwnedOn. intros (Hg & Hf & Hp) Hm Sg Sf Sp Lg Lf Lp. rewrite Hm.
  split; [| split].
  - eapply Distinct_sub; [| exact Lg | exact Hg]. apply submseteq_skip, Sg.
  - eapply Distinct_sub; [exact Sf | exact Lf | exact Hf].
  - eapply Distinct_sub; [exact Sp | exact Lp | exact Hp].
Qed.

(** A call in progress may drop what it took. *)
Lemma Owned_drop xg xf xp w : Owned xg xf xp w -> Owned [] [] [] w.
Proof.
  intros H. apply (Owned_transfer xg xf xp [] [] [] w w H); try reflexivity;
    apply submseteq_inserts_l; reflexivity.
Qed.

(** ** The steps that move a node *)

Ltac transfer H :=
  eapply Owned_transfer; [exact H | ..]; cbn;
  rewrite ?voiceNodes_snoc, ?length_app, ?app_nil_r; cbn;
  first [reflexivity | lia | solve_submseteq | idtac].

(** A new node belongs to the call that created it. *)
Lemma createGain_owned xg xf xp w :
  Owned xg xf xp w ->
  wp createGain (fun g w' => Owned (g :: xg) xf xp w') (Owned xg xf xp) w.
Proof.
  intros H. unfold wp, createGain, alloc, native, bind. cbn.
  destruct (faults (audioContext w) (calls (audioContext w))); cbn; [exact H |].
  destruct H as (Hg & Hf & Hp). unfold Owned, holdings, OwnedOn. cbn.
  rewrite length_app. cbn. rewrite Nat.add_1_r.
  split; [| split; assumption].
  eapply Distinct_fresh; [| exact Hg]. solve_submseteq.
Qed.

Lemma createBiquadFilter_owned xg xf xp w :
  Owned xg xf xp w ->
  wp createBiquadFilter (fun f w' => Owned xg (f :: xf) xp w') (Owned xg xf xp) w.
Proof.
  intros H. unfold wp, createBiquadFilter, alloc, native, bind. cbn.
  destruct (faults (audioContext w) (calls (audioContext w))); cbn; [exact H |].
  destruct H as (Hg & Hf & Hp). unfold Owned, holdings, OwnedOn. cbn.
  rewrite length_app. cbn. rewrite Nat.add_1_r.
  split; [assumption | split; [| assumption]].
  eapply Distinct_fresh; [| exact Hf]. solve_submseteq.
Qed.

Lemma createStereoPanner_owned xg xf xp w :
  Owned xg xf xp w ->
  wp createStereoPanner (fun p w' => Owned xg xf (p :: xp) w') (Owned xg xf xp) w.
Proof.
  intros H. unfold wp, createStereoPanner, alloc, native, bind. cbn.
  destruct (faults (audioContext w) (calls (audioContext w))); cbn; [exact H |].
  destruct H as (Hg & Hf & Hp). unfold Owned, holdings, OwnedOn. cbn.
  rewrite length_app. cbn. rewrite Nat.add_1_r.
  split; [assumption | split; [assumption |]].
  eapply Distinct_fresh; [| exact Hp]. solve_submseteq.
Qed.

Lemma Array_pop_cases {A} (l : list A) :
  match fst (Array_pop l) with
  | Some x => l = snd (Array_pop l) ++ [x]
  | None => l = [] /\ snd (Array_pop l) = []
  end.
Proof.
  unfold Array_pop. cbn. destruct (last l) as [x|] eqn:E.
  - apply last_Some in E as [l' ->]. rewrite removelast_last. reflexivity.
  - apply last_None in E. subst l. split; reflexivity.
Qed.

Definition taken (popped : option nat) : list nat :=
  match popped with
  | Some r => [r]
  | None => []
  end.

(** A node popped from a pool belongs to the call that popped it. *)
Lemma popGainNode_owned xg xf xp w :
  Owned xg xf xp w ->
  wp popGainNode (fun pg w' => Owned (taken pg ++ xg) xf xp w') (fun _ => False) w.
Proof.
  intros H. unfold wp, popGainNode, bind, get, modifyManager, modify, ret. cbn [fst snd].
  pose proof (Array_pop_cases (gainNodes (nodePool (manager w)))) as Hc.
  set (rest := snd (Array_pop (gainNodes (nodePool (manager w))))) in *. clearbody rest.
  destruct (fst (Array_pop (gainNodes (nodePool (manager w))))) as [g|].
  - eapply Owned_transfer; [exact H | ..]; cbn -[voiceNodes]; try reflexivity.
    rewrite Hc. solve_submseteq.
  - destruct Hc as [Hc1 Hc2].
    eapply Owned_transfer; [exact H | ..]; cbn -[voiceNodes]; try reflexivity.
    rewrite Hc1, Hc2. reflexivity.
Qed.

Lemma popFilterNode_owned xg xf xp w :
  Owned xg xf xp w ->
  wp popFilterNode (fun pf w' => Owned xg (taken pf ++ xf) xp w') (fun _ => False) w.
Proof.
  intros H. unfold wp, popFilterNode, bind, get, modifyManager, modify, ret. cbn [fst snd].
  pose proof (Array_pop_cases (filterNodes (nodePool (manager w)))) as Hc.
  set (rest := snd (Array_pop (filterNodes (nodePool (manager w))))) in *. clearbody rest.
  destruct (fst (Array_pop (filterNodes (nodePool (manager w))))) as [f|].
  - eapply Owned_transfer; [exact H | ..]; cbn -[voiceNodes]; try reflexivity.
    rewrite Hc. solve_submseteq.
  - destruct Hc as [Hc1 Hc2].
    eapply Owned_transfer; [exact H | ..]; cbn -[voiceNodes]; try reflexivity.
    rewrite Hc1, Hc2. reflexivity.
Qed.

Lemma popPannerNode_owned xg xf xp w :
  Owned xg xf xp w ->
  wp popPannerNode (fun pp w' => Owned xg xf (taken pp ++ xp) w') (fun _ => False) w.
Proof.
  intros H. unfold wp, popPannerNode, bind, get, modifyManager, modify, ret. cbn [fst snd].
  pose proof (Array_pop_cases (pannerNodes (nodePool (manager w)))) as Hc.
  set (rest := snd (Array_pop (pannerNodes (nodePool (manager w))))) in *. clearbody rest.
  destruct (fst (Array_pop (pannerNodes (nodePool (manager w))))) as [p|].
  - eapply Owned_transfer; [exact H | ..]; cbn -[voiceNodes]; try reflexivity.
    rewrite Hc. solve_submseteq.
  - destruct Hc as [Hc1 Hc2].
    eapply Owned_transfer; [exact H | ..]; cbn -[voiceNodes]; try reflexivity.
    rewrite Hc1, Hc2. reflexivity.
Qed.

Lemma orCreateGain_owned xg xf xp pg w :
  Owned (taken pg ++ xg) xf xp w ->
  wp (orCreate pg createGain) (fun g w' => Owned (g :: xg) xf xp w') (Owned [] [] []) w.
Proof.
  intros H. destruct pg as [r|]; cbn in H |- *; [exact H |].
  eapply wp_mono; [apply createGain_owned, H | trivial | intros w'; apply Owned_drop].
Qed.

Lemma orCreateFilter_owned xg xf xp pf w :
  Owned xg (taken pf ++ xf) xp w ->
  wp (orCreate pf createBiquadFilter) (fun f w' => Owned xg (f :: xf) xp w')
     (Owned [] [] []) w.
Proof.
  intros H. destruct pf as [r|]; cbn in H |- *; [exact H |].
  eapply wp_mono; [apply createBiquadFilter_owned, H | trivial | intros w'; apply Owned_drop].
Qed.

Lemma orCreatePanner_owned xg xf xp pp w :
  Owned xg xf (taken pp ++ xp) w ->
  wp (orCreate pp createStereoPanner) (fun p w' => Owned xg xf (p :: xp) w')
     (Owned [] [] []) w.
Proof.
  intros H. destruct pp as [r|]; cbn in H |- *; [exact H |].
  eapply wp_mono; [apply createStereoPanner_owned, H | trivial | intros w'; apply Owned_drop].
Qed.

(** The triple that [getPooledNodes] returns belongs to its caller alone;
    when it throws, no node has two holders either. *)
Lemma getPooledNodes_owned w :
  Owned [] [] [] w ->
  wp getPooledNodes
     (fun n w' => Owned [gainNode n] [filterNode n] [pannerNode n] w') (Owned [] [] []) w.
Proof.
  intros H. unfold getPooledNodes. apply wp_tryCatch.
  apply (wp_mono _ (fun n w' => Owned [gainNode n] [filterNode n] [pannerNode n] w') _
                 (Owned [] [] [])).
  - apply wp_bind. eapply wp_mono; [apply popGainNode_owned, H | | intros ? []].
    clear w H. intros pg w H. cbv beta.
    apply wp_bind. eapply wp_mono; [apply orCreateGain_owned, H | | trivial].
    clear w H. intros g w H. cbv beta.
    apply wp_bind. eapply wp_mono; [apply popFilterNode_owned, H | | intros ? []].
    clear w H. intros pf w H. cbv beta.
    apply wp_bind. eapply wp_mono; [apply orCreateFilter_owned, H | | trivial].
    clear w H. intros f w H. cbv beta.
    apply wp_bind. eapply wp_mono; [apply popPannerNode_owned, H | | intros ? []].
    clear w H. intros pp w H. cbv beta.
    apply wp_bind. eapply wp_mono; [apply orCreatePanner_owned, H | | trivial].
    clear w H. intros p w H. cbv beta.
    apply wp_ret. exact H.
  - trivial.
  - clear w H. intros w H e.
    apply wp_bind.
    eapply wp_mono; [apply createGain_owned, H | | intros w'; apply Owned_drop].
    clear w H. intros g w H. cbv beta.
    apply wp_bind.
    eapply wp_mono; [apply createBiquadFilter_owned, H | | intros w'; apply Owned_drop].
    clear w H. intros f w H. cbv beta.
    apply wp_bind.
    eapply wp_mono; [apply createStereoPanner_owned, H | | intros w'; apply Owned_drop].
    clear w H. intros p w H. cbv beta.
    apply wp_ret. exact H.
Qed.

(** Calls that move no node. *)
Ltac owned_leaf :=
  apply keeps_owned; intros ?;
  let w := fresh "w" in
  let H := fresh "H" in
  intros w H;
  unfold wp, holdings, native, Math_random, modifyAudio, modifyManager, modify in *;
  cbn; try destruct (faults _ _); cbn; rewrite ?length_insert; exact H.

Ltac owned_still := repeat first [preserves_step | unfold_head]; try owned_leaf.

(** A triple in progress goes back to the pools, or is dropped when a
    platform call of the reset fails. *)
Lemma returnNodesToPool_owned n w :
  Owned [gainNode n] [filterNode n] [pannerNode n] w ->
  wp (returnNodesToPool n) (fun _ => Owned [] [] []) (fun _ => False) w.
Proof.
  intros H. unfold returnNodesToPool. apply wp_tryCatch.
  apply (wp_mono _ (fun _ => Owned [] [] []) _ (Owned [] [] []));
    [| trivial | intros w' H' e; exact H'].
  do 9 (apply (wp_keeps (Owned [gainNode n] [filterNode n] [pannerNode n]));
        [solve [owned_still] | exact H | | intros w'; apply Owned_drop];
        clear w H; intros _ w H).
  unfold wp, pushGainNode, pushFilterNode, pushPannerNode, modifyManager, modify, bind.
  cbn -[Owned].
  eapply Owned_transfer; [exact H | ..]; cbn -[voiceNodes]; try reflexivity; solve_submseteq.
Qed.

Lemma cleanupGrain_owned g : preserves (Owned [] [] []) (cleanupGrain g).
Proof.
  intros w H. unfold cleanupGrain, getGrain. apply wp_bind. unfold deref at 1, wp at 1.
  destruct (isActive (grainHeap w !!! g)) eqn:Hact; cbn [negb]; [| exact H].
  set (n := nodes (grainHeap w !!! g)).
  apply wp_tryCatch.
  apply (wp_mono _ (fun _ => Owned [] [] []) _ (Owned [] [] []));
    [| trivial | intros w' H' e; exact H'].
  apply wp_bind. unfold putGrain at 1. apply wp_modify.
  match goal with |- wp _ _ _ ?w1 =>
    assert (H1 : Owned [gainNode n] [filterNode n] [pannerNode n] w1) end.
  { eapply Owned_transfer; [exact H | ..]; cbn -[voiceNodes]; try reflexivity;
      rewrite (voiceNodes_deactivate _ (grainHeap w) g Hact); fold n; solve_submseteq. }
  apply (wp_keeps (Owned [gainNode n] [filterNode n] [pannerNode n]));
    [solve [owned_still] | exact H1 | | intros w'; apply Owned_drop].
  intros _ w1 Hw1.
  apply (wp_keeps (Owned [gainNode n] [filterNode n] [pannerNode n]));
    [solve [owned_still] | exact Hw1 | | intros w'; apply Owned_drop].
  intros _ w2 Hw2.
  eapply wp_mono; [apply returnNodesToPool_owned, Hw2 | trivial | intros ? []].
Qed.

(** The triple of a new grain was taken for it alone. *)
Lemma createOptimizedGrain_owned buffer params startTime duration position :
  preserves (Owned [] [] []) (createOptimizedGrain buffer params startTime duration position).
Proof.
  intros w H. unfold createOptimizedGrain. apply wp_tryCatch.
  apply (wp_mono _ (fun _ => Owned [] [] []) _ (Owned [] [] []));
    [| trivial | intros w' H' e; exact H'].
  do 3 (apply (wp_keeps (Owned [] [] [])); [solve [owned_still] | exact H | | trivial];
        clear w H; intros ? w H).
  apply wp_bind.
  eapply wp_mono; [apply getPooledNodes_owned, H | | trivial].
  clear w H. intros n w H. cbv beta.
  repeat (cbv zeta;
          apply (wp_keeps (Owned [gainNode n] [filterNode n] [pannerNode n]));
          [solve [owned_still] | exact H | | intros w'; apply Owned_drop];
          clear w H; intros ? w H).
  apply wp_bind. unfold wp at 1.
  match goal with |- context [newGrain ?g w] => set (gr := g) end.
  change (newGrain gr w)
    with (Ret (length (grainHeap w)), setGrainHeap (grainHeap w ++ [gr]) w).
  cbv beta iota.
  assert (H1 : Owned [] [] [] (setGrainHeap (grainHeap w ++ [gr]) w)).
  { eapply Owned_transfer; [exact H | ..]; cbn -[voiceNodes]; try reflexivity;
      rewrite voiceNodes_snoc; cbn -[voiceNodes]; solve_submseteq. }
  apply (wp_keeps (Owned [] [] [])); [solve [owned_still] | exact H1 | | trivial].
  intros _ w1 Hw1. apply wp_ret. exact Hw1.
Qed.

Ltac owned_lemma :=
  lazymatch goal with
  | |- preserves _ ?m =>
      let h := head_of m in
      lazymatch h with
      | @cleanupGrain => apply cleanupGrain_owned
      | @createOptimizedGrain => apply createOptimizedGrain_owned
      end
  end.

Ltac owned_ok := repeat first [preserves_step | owned_lemma | unfold_head]; try owned_leaf.

Lemma run_keeps_owned c : preserves (Owned [] [] []) (run c).
Proof. destruct c; owned_ok. Qed.

Lemma constructed_owned orc capacity w :
  constructed orc capacity w -> grainHeap w = [] -> Owned [] [] [] w.
Proof.
  intros ((Hp & Hg & Hf & Hpn & Hmg & _) & _) Hh.
  unfold Owned, holdings, OwnedOn. rewrite Hh, Hp, Hmg, Hg, Hf, Hpn. cbn.
  split; [| split]; (split; [| apply Forall_forall; intros x Hx]).
  - exact (NoDup_seq 0 (S (Z.to_nat capacity))).
  - change (x ∈ seq 0 (S (Z.to_nat capacity))) in Hx. apply elem_of_seq in Hx. lia.
  - apply NoDup_seq.
  - apply elem_of_seq in Hx. lia.
  - apply NoDup_seq.
  - apply elem_of_seq in Hx. lia.
Qed.

Lemma reachable_owned capacity w : reachable capacity w -> Owned [] [] [] w.
Proof.
  induction 1 as [t0 orc random w Hc | w c _ IH].
  - destruct (construct_cases t0 orc random capacity)
      as [(w' & E' & Hk) | [(e & w' & E') _]]; [| congruence].
    assert (w' = w) by congruence. subst w'.
    apply (constructed_owned orc capacity w Hk).
    pose proof (construct_registry _ _ _ _ _ Hc) as Hr.
    apply registry_eq in Hr as (Hh & _). exact Hh.
  - apply (preserves_snd (Owned [] [] [])); [apply run_keeps_owned | exact IH].
Qed.

Lemma voiceNodes_elem sel (heap : list Grain) g :
  isActive (heap !!! g) = true -> sel (nodes (heap !!! g)) ∈ voiceNodes sel heap.
Proof. intros H. rewrite (voiceNodes_deactivate sel heap g H). left. Qed.

Lemma voiceNodes_apart sel (heap : list Grain) g h :
  NoDup (voiceNodes sel heap) ->
  isActive (heap !!! g) = true -> isActive (heap !!! h) = true -> h <> g ->
  sel (nodes (heap !!! h)) <> sel (nodes (heap !!! g)).
Proof.
  intros Hn Hg Hh Hne. rewrite (voiceNodes_deactivate sel heap g Hg) in Hn.
  apply NoDup_cons in Hn as [Hout _]. intros E. apply Hout. rewrite <- E.
  set (off := mkGrain _ _ _ false).
  assert (Hk : <[g := off]> heap !!! h = heap !!! h)
    by (apply list_lookup_total_insert_ne; congruence).
  rewrite <- Hk. apply voiceNodes_elem. rewrite Hk. exact Hh.
Qed.

Lemma Distinct_app_r l k s : Distinct (l ++ k) s -> Distinct k s.
Proof. apply Distinct_sub; [apply submseteq_inserts_l; reflexivity | lia]. Qed.

(** What the invariant says of the pools. *)
Lemma pools_distinct capacity w :
  reachable capacity w ->
  let pool := nodePool (manager w) in
  Distinct (masterGain (manager w) :: gainNodes pool) (length (gainHeap (audioContext w))) /\
  Distinct (filterNodes pool) (length (filterHeap (audioContext w))) /\
  Distinct (pannerNodes pool) (length (pannerHeap (audioContext w))).
Proof.
  intros Hr. destruct (reachable_owned capacity w Hr) as (Hg & Hf & Hp). cbv zeta.
  split; [| split].
  - eapply Distinct_sub; [| | exact Hg]; [solve_submseteq | lia].
  - eapply Distinct_sub; [| | exact Hf]; [solve_submseteq | lia].
  - eapply Distinct_sub; [| | exact Hp]; [solve_submseteq | lia].
Qed.

(** In every reachable state the pools hold no node twice, every pooled node
    is a node of the audio context, and the master gain node is not in the
    pool of gain nodes. *)
Theorem pooled_nodes_are_distinct capacity w :
  reachable capacity w ->
  let pool := nodePool (manager w) in
  NoDup (gainNodes pool) /\ NoDup (filterNodes pool) /\ NoDup (pannerNodes pool) /\
  (masterGain (manager w) ∉ gainNodes pool) /\
  masterGain (manager w) < length (gainHeap (audioContext w)) /\
  (forall g, g ∈ gainNodes pool -> g < length (gainHeap (audioContext w))) /\
  (forall f, f ∈ filterNodes pool -> f < length (filterHeap (audioContext w))) /\
  (forall p, p ∈ pannerNodes pool -> p < length (pannerHeap (audioContext w))).
Proof.
  intros Hr. destruct (pools_distinct capacity w Hr) as ([Ng Fg] & [Nf Ff] & [Np Fp]).
  cbv zeta. apply NoDup_cons in Ng as [Hm Ng]. apply Forall_cons in Fg as [Lm Fg].
  rewrite Forall_forall in Fg, Ff, Fp.
  repeat (split; [assumption |]). assumption.
Qed.

Lemma pooled_nodes_are_distinct_witness :
  reachable 1 (studio 1) /\
  NoDup (gainNodes (nodePool (manager (studio 1)))) /\
  masterGain (manager (studio 1)) ∉ gainNodes (nodePool (manager (studio 1))).
Proof.
  assert (Hr : reachable 1 (studio 1)) by (apply studio_reachable; lia).
  split; [exact Hr |].
  destruct (pooled_nodes_are_distinct 1 (studio 1) Hr) as (Hg & _ & _ & Hm & _).
  split; [exact Hg | exact Hm].
Defined.

Lemma active_grain_nodes capacity w g :
  reachable capacity w -> isActive (grainHeap w !!! g) = true ->
  let n := nodes (grainHeap w !!! g) in
  allocated n w /\
  gainNode n <> masterGain (manager w) /\
  (gainNode n ∉ gainNodes (nodePool (manager w))) /\
  (filterNode n ∉ filterNodes (nodePool (manager w))) /\
  (pannerNode n ∉ pannerNodes (nodePool (manager w))) /\
  forall h, h <> g -> isActive (grainHeap w !!! h) = true ->
    gainNode (nodes (grainHeap w !!! h)) <> gainNode n /\
    filterNode (nodes (grainHeap w !!! h)) <> filterNode n /\
    pannerNode (nodes (grainHeap w !!! h)) <> pannerNode n.
Proof.
  intros Hr Hact.
  destruct (reachable_owned capacity w Hr) as ([Ng Fg] & [Nf Ff] & [Np Fp]). cbv zeta.
  cbn [app] in Ng, Fg, Nf, Ff, Np, Fp.
  pose proof (voiceNodes_elem gainNode _ g Hact) as Eg.
  pose proof (voiceNodes_elem filterNode _ g Hact) as Ef.
  pose proof (voiceNodes_elem pannerNode _ g Hact) as Ep.
  apply NoDup_cons in Ng as [Hm Ng]. apply Forall_cons in Fg as [_ Fg].
  rewrite Forall_forall in Fg, Ff, Fp.
  apply NoDup_app in Ng as (Ng & Xg & _). apply NoDup_app in Nf as (Nf & Xf & _).
  apply NoDup_app in Np as (Np & Xp & _).
  split; [| split; [| split; [| split; [| split]]]].
  - split; [| split]; [apply Fg | apply Ff | apply Fp]; apply elem_of_app; left; assumption.
  - intros E. apply Hm. rewrite <- E. apply elem_of_app. left. exact Eg.
  - apply Xg, Eg.
  - apply Xf, Ef.
  - apply Xp, Ep.
  - intros h Hne Hh.
    split; [| split]; apply voiceNodes_apart; assumption.
Qed.

(** In every reachable state an active grain holds its three nodes alone:
    they are nodes of the audio context, its gain node is not the master
    gain, none of the three is in a pool, and no other active grain uses
    any of them. *)
Theorem active_grain_holds_its_nodes_alone capacity w g :
  reachable capacity w -> isActive (grainHeap w !!! g) = true ->
  let n := nodes (grainHeap w !!! g) in
  allocated n w /\
  gainNode n <> masterGain (manager w) /\
  (gainNode n ∉ gainNodes (nodePool (manager w))) /\
  (filterNode n ∉ filterNodes (nodePool (manager w))) /\
  (pannerNode n ∉ pannerNodes (nodePool (manager w))) /\
  forall h, h <> g -> isActive (grainHeap w !!! h) = true ->
    gainNode (nodes (grainHeap w !!! h)) <> gainNode n /\
    filterNode (nodes (grainHeap w !!! h)) <> filterNode n /\
    pannerNode (nodes (grainHeap w !!! h)) <> pannerNode n.
Proof. exact (active_grain_nodes capacity w g). Qed.

Lemma twoGrains_second_active :
  isActive (grainHeap (runAll twoGrains (studio 1)) !!! 1) = true.
Proof.
  destruct twoGrains_registry as (a & b & Hr & _ & Hb).
  apply registry_eq in Hr as (Hh & _). rewrite Hh. exact Hb.
Qed.

Lemma active_grain_holds_its_nodes_alone_witness :
  reachable 1 (runAll twoGrains (studio 1)) /\
  isActive (grainHeap (runAll twoGrains (studio 1)) !!! 1) = true /\
  allocated (nodes (grainHeap (runAll twoGrains (studio 1)) !!! 1))
            (runAll twoGrains (studio 1)).
Proof.
  split; [exact twoGrains_reachable |]. split; [exact twoGrains_second_active |].
  exact (proj1 (active_grain_holds_its_nodes_alone 1 (runAll twoGrains (studio 1)) 1
                  twoGrains_reachable twoGrains_second_active)).
Defined.

(** ** A cleaned grain gives its nodes back *)

(** What the first steps of [cleanupGrain] leave alone: the pools, the
    stores of the pooled kinds of node and the fault oracle. *)
Definition besideSource (w : World) :=
  (nodePool (manager w), gainHeap (audioContext w), filterHeap (audioContext w),
   pannerHeap (audioContext w), oracle w).

Lemma wp_returning {T B} (proj : World -> T) (m : JS unit) (k : JS B) Q E w :
  (forall w0, exists w1, m w0 = (Ret tt, w1)) -> keepsOn proj m ->
  (forall w1, proj w1 = proj w -> wp k Q E w1) ->
  wp (m ;;; k) Q E w.
Proof.
  intros Hm Hk Hq. destruct (Hm w) as [w1 E1]. unfold wp.
  rewrite (bind_returns _ _ _ _ _ E1). apply Hq.
  exact (keepsOn_eq proj m w _ _ Hk E1).
Qed.

Lemma besideSource_params n w w' :
  besideSource w' = besideSource w ->
  nodePool (manager w') = nodePool (manager w) /\ oracle w' = oracle w /\
  paramAt (GainOf (gainNode n)) w' = paramAt (GainOf (gainNode n)) w /\
  paramAt (FrequencyOf (filterNode n)) w' = paramAt (FrequencyOf (filterNode n)) w /\
  paramAt (PanOf (pannerNode n)) w' = paramAt (PanOf (pannerNode n)) w.
Proof.
  unfold besideSource. intros H. injection H as Hp Hg Hf Hpn Ho.
  cbn [paramAt]. rewrite Hg, Hf, Hpn. repeat split; assumption.
Qed.

Lemma cleanupGrain_releases capacity w g :
  reachable capacity w -> NoFaults w -> isActive (grainHeap w !!! g) = true ->
  let n := nodes (grainHeap w !!! g) in
  exists w1 w2,
    cleanupGrain g w = (Ret tt, w1) /\
    nodePool (manager w1) = pushed n (nodePool (manager w)) /\ neutral n w1 /\
    getPooledNodes w1 = (Ret n, w2) /\
    nodePool (manager w2) = nodePool (manager w) /\ neutral n w2.
Proof.
  intros Hr Hq Hact. cbv zeta. set (n := nodes (grainHeap w !!! g)).
  destruct (active_grain_nodes capacity w g Hr Hact) as (Halloc & _). fold n in Halloc.
  destruct (paramAt_allocated n w Halloc) as (PG & PF & PP).
  pose proof (reachable_timelines capacity w Hr) as Htl.
  assert (H : wp (cleanupGrain g)
                 (fun _ w1 => released n (nodePool (manager w)) w1) (fun _ => False) w).
  { unfold cleanupGrain, getGrain. apply wp_bind. unfold deref at 1, wp at 1.
    rewrite Hact. cbn [negb]. fold n. apply wp_tryCatch.
    apply (wp_mono _ (fun _ w1 => released n (nodePool (manager w)) w1) _ (fun _ => False));
      [| trivial | intros ? []].
    apply (wp_returning besideSource);
      [intros w0; eexists; reflexivity | frame |]. intros w1 H1.
    apply (wp_returning besideSource);
      [intros w0; eexists; reflexivity | frame |]. intros w2 H2. rewrite H1 in H2. clear w1 H1.
    apply (wp_returning besideSource);
      [intros w0; eexists; apply tryCatch_unit | frame |].
    intros w3 H3. rewrite H2 in H3. clear w2 H2.
    destruct (besideSource_params n w w3 H3) as (Ep & Eo & EG & EF & EP).
    rewrite returnNodesToPool_body. apply wp_tryCatch.
    rewrite <- Ep.
    eapply wp_mono;
      [apply (resetAndPush_wp n w3 _ _ _ (eq_trans EG PG) (eq_trans EF PF) (eq_trans EP PP));
       apply paramOf_ok, Htl
      | trivial |].
    intros w4 (_ & k & Hk). unfold oracle in Eo, Hk. rewrite Eo in Hk.
    rewrite (Hq k) in Hk. discriminate. }
  unfold wp in H. destruct (cleanupGrain g w) as [[[]|e] w1]; [| contradiction].
  destruct (getPooledNodes_after_release n _ w1 H) as (w2 & E2 & P2 & N2).
  destruct H as [P1 N1].
  exists w1, w2. repeat (split; [first [reflexivity | assumption] |]). assumption.
Qed.

(** In a reachable state where no platform call fails, cleaning an active
    grain puts its three nodes back on the pools, reset to gain 1, the
    default filter frequency and pan 0 with nothing scheduled, and the
    acquisition that follows hands out these same nodes and leaves the
    pools as they were before the cleanup. *)
Theorem cleanupGrain_recycles_the_nodes capacity w g :
  reachable capacity w -> NoFaults w -> isActive (grainHeap w !!! g) = true ->
  let n := nodes (grainHeap w !!! g) in
  exists w1 w2,
    cleanupGrain g w = (Ret tt, w1) /\
    nodePool (manager w1) = pushed n (nodePool (manager w)) /\ neutral n w1 /\
    getPooledNodes w1 = (Ret n, w2) /\
    nodePool (manager w2) = nodePool (manager w) /\ neutral n w2.
Proof. exact (cleanupGrain_releases capacity w g). Qed.

Lemma twoGrains_NoFaults : NoFaults (runAll twoGrains (studio 1)).
Proof.
  unfold twoGrains, runAll. cbn [fold_left].
  do 2 (apply NoFaults_keeps; [apply run_keeps_oracle |]). apply studio_NoFaults.
Qed.

Lemma cleanupGrain_recycles_the_nodes_witness :
  reachable 1 (runAll twoGrains (studio 1)) /\ NoFaults (runAll twoGrains (studio 1)) /\
  isActive (grainHeap (runAll twoGrains (studio 1)) !!! 1) = true /\
  exists w1 w2,
    cleanupGrain 1 (runAll twoGrains (studio 1)) = (Ret tt, w1) /\
    getPooledNodes w1 = (Ret (nodes (grainHeap (runAll twoGrains (studio 1)) !!! 1)), w2).
Proof.
  split; [exact twoGrains_reachable |]. split; [exact twoGrains_NoFaults |].
  split; [exact twoGrains_second_active |].
  destruct (cleanupGrain_recycles_the_nodes 1 (runAll twoGrains (studio 1)) 1
              twoGrains_reachable twoGrains_NoFaults twoGrains_second_active)
    as (w1 & w2 & E1 & _ & _ & E2 & _).
  exists w1, w2. split; [exact E1 | exact E2].
Defined.


(** ** The end of a grain's playback *)

(** The source of every grain, and the grain that the [onended] callback of
    every source cleans. *)
Definition links (w : World) : list nat * list (option nat) :=
  (source <$> grainHeap w, onended <$> sourceHeap (audioContext w)).

(** The callback of the source of a grain cleans this grain; [fresh] is a
    source that a call has created and that no grain has yet. *)
Definition LinkedOn (fresh : option nat) (l : list nat * list (option nat)) : Prop :=
  let '(srcs, ends) := l in
  (forall g s, srcs !! g = Some s -> ends !! s = Some (Some g)) /\
  match fresh with
  | Some s => s < length ends /\ s ∉ srcs
  | None => True
  end.

Definition Linked (fresh : option nat) (w : World) : Prop := LinkedOn fresh (links w).

Lemma keeps_linked {A} fresh (m : JS A) : keepsOn links m -> preserves (Linked fresh) m.
Proof. exact (keepsOn_preserves links m (LinkedOn fresh)). Qed.

Lemma Linked_drop s w : Linked (Some s) w -> Linked None w.
Proof. unfold Linked. destruct (links w) as [srcs ends]. intros [H _]. split; [exact H | exact I]. Qed.

Lemma onended_insert (h : list AudioBufferSourceNode) r n :
  onended n = onended (h !!! r) -> onended <$> <[r := n]> h = onended <$> h.
Proof.
  intros Hn. destruct (decide (r < length h)) as [Hlt | Hge].
  - rewrite list_fmap_insert. apply list_insert_id.
    rewrite list_lookup_fmap, (list_lookup_lookup_total_lt h r Hlt). cbn. rewrite Hn.
    reflexivity.
  - rewrite list_insert_ge by lia. reflexivity.
Qed.

Lemma source_insert (h : list Grain) g gr :
  source gr = source (h !!! g) -> source <$> <[g := gr]> h = source <$> h.
Proof.
  intros Hn. destruct (decide (g < length h)) as [Hlt | Hge].
  - rewrite list_fmap_insert. apply list_insert_id.
    rewrite list_lookup_fmap, (list_lookup_lookup_total_lt h g Hlt). cbn. rewrite Hn.
    reflexivity.
  - rewrite list_insert_ge by lia. reflexivity.
Qed.

(** The calls on a source that leave its callback alone. *)
Ltac source_call :=
  let x := fresh "x" in
  let w := fresh "w" in
  let H := fresh "H" in
  intros x w H;
  unfold wp, setBuffer, setRate, connectSource, disconnectSource, start, stop,
    getSourceNode, deref, putSourceNode, native, raiseIf, modifyAudio, modify, bind, throw, ret;
  cbn;
  repeat match goal with
         | |- context [if ?b then _ else _] => destruct b; cbn
         end;
  try exact H;
  unfold links in *; cbn; rewrite onended_insert by reflexivity; exact H.

Lemma setBuffer_links r b : keepsOn links (setBuffer r b).
Proof. source_call. Qed.
Lemma setRate_links r v : keepsOn links (setRate r v).
Proof. source_call. Qed.
Lemma connectSource_links r dest : keepsOn links (connectSource r dest).
Proof. source_call. Qed.
Lemma disconnectSource_links r : keepsOn links (disconnectSource r).
Proof. source_call. Qed.
Lemma start_links r s o d : keepsOn links (start r s o d).
Proof. source_call. Qed.
Lemma stop_links r : keepsOn links (stop r).
Proof. source_call. Qed.

Ltac links_lemma :=
  lazymatch goal with
  | |- preserves _ ?m =>
      let h := head_of m in
      lazymatch h with
      | @setBuffer => apply setBuffer_links
      | @setRate => apply setRate_links
      | @connectSource => apply connectSource_links
      | @disconnectSource => apply disconnectSource_links
      | @start => apply start_links
      | @stop => apply stop_links
      end
  end.

Ltac links_frame := repeat first [preserves_step | links_lemma | unfold_head]; try frame_leaf.

Lemma cleanupGrain_links g : keepsOn links (cleanupGrain g).
Proof.
  intros x w H. unfold cleanupGrain, getGrain. apply wp_bind. unfold deref at 1, wp at 1.
  destruct (isActive (grainHeap w !!! g)); cbn [negb]; [| exact H].
  apply wp_tryCatch.
  apply (wp_mono _ (fun _ w' => links w' = x) _ (fun w' => links w' = x));
    [| trivial | intros w' H' e; exact H'].
  apply wp_bind. unfold putGrain at 1. apply wp_modify.
  match goal with |- wp _ _ _ ?w1 => assert (H1 : links w1 = x) end.
  { unfold links in *. cbn. rewrite source_insert by reflexivity. exact H. }
  apply (wp_keeps (fun w' => links w' = x)); [solve [links_frame] | exact H1 | | trivial].
  intros _ w2 H2.
  apply (wp_keeps (fun w' => links w' = x)); [solve [links_frame] | exact H2 | | trivial].
  intros _ w3 H3.
  assert (Hp : preserves (fun w' => links w' = x)
                 (returnNodesToPool (nodes (grainHeap w !!! g)))) by links_frame.
  exact (Hp w3 H3).
Qed.

(** A new source has no grain yet. *)
Lemma createBufferSource_linked w :
  Linked None w ->
  wp createBufferSource (fun s w' => Linked (Some s) w') (Linked None) w.
Proof.
  intros H. unfold wp, createBufferSource, alloc, native, bind. cbn.
  destruct (faults (audioContext w) (calls (audioContext w))); cbn; [exact H |].
  unfold Linked, links in *. cbn. rewrite fmap_app. cbn. destruct H as [H _].
  set (srcs := source <$> grainHeap w) in *.
  set (ends := onended <$> sourceHeap (audioContext w)) in *.
  assert (Hlen : length (sourceHeap (audioContext w)) = length ends)
    by (unfold ends; rewrite length_fmap; reflexivity).
  rewrite Hlen. split; [| split].
  - intros g s Hs. apply lookup_app_l_Some, H, Hs.
  - rewrite length_app. cbn. lia.
  - intros Hin. apply list_elem_of_lookup in Hin as [g Hg].
    apply H, lookup_lt_Some in Hg. lia.
Qed.

Ltac linked_lemma :=
  lazymatch goal with
  | |- preserves _ ?m =>
      let h := head_of m in
      lazymatch h with
      | @setBuffer => apply keeps_linked, setBuffer_links
      | @setRate => apply keeps_linked, setRate_links
      | @connectSource => apply keeps_linked, connectSource_links
      | @disconnectSource => apply keeps_linked, disconnectSource_links
      | @start => apply keeps_linked, start_links
      | @stop => apply keeps_linked, stop_links
      | @cleanupGrain => apply keeps_linked, cleanupGrain_links
      end
  end.

Ltac linked_leaf := apply keeps_linked; intros ?; frame_leaf.

Ltac linked_still := repeat first [preserves_step | linked_lemma | unfold_head]; try linked_leaf.

(** The callback that [createOptimizedGrain] sets on the source of a new
    grain cleans this grain. *)
Lemma createOptimizedGrain_linked buffer params startTime duration position :
  preserves (Linked None) (createOptimizedGrain buffer params startTime duration position).
Proof.
  intros w H. unfold createOptimizedGrain. apply wp_tryCatch.
  apply (wp_mono _ (fun _ => Linked None) _ (Linked None));
    [| trivial | intros w' H' e; exact H'].
  apply wp_bind. eapply wp_mono; [apply createBufferSource_linked, H | | trivial].
  clear w H. intros s w H. cbv beta.
  repeat (cbv zeta;
          apply (wp_keeps (Linked (Some s)));
          [solve [linked_still] | exact H | | intros w'; apply Linked_drop];
          clear w H; intros ? w H).
  apply wp_bind. unfold wp at 1.
  match goal with |- context [newGrain ?g w] => set (gr := g) end.
  change (newGrain gr w)
    with (Ret (length (grainHeap w)), setGrainHeap (grainHeap w ++ [gr]) w).
  cbv beta iota.
  unfold wp, setOnended, getSourceNode, deref, putSourceNode, modifyAudio, modify, bind, ret.
  cbn -[Linked].
  unfold Linked, links in *. cbn. rewrite fmap_app, list_fmap_insert. cbn.
  set (srcs := source <$> grainHeap w) in *.
  set (ends := onended <$> sourceHeap (audioContext w)) in *.
  assert (Hlen : length (grainHeap w) = length srcs)
    by (unfold srcs; rewrite length_fmap; reflexivity).
  rewrite Hlen. destruct H as (H & Hs & Hfresh).
  split; [| exact I]. intros g s' Hg.
  destruct (decide (g < length srcs)) as [Hlt | Hge].
  - rewrite lookup_app_l in Hg by exact Hlt.
    rewrite list_lookup_insert_ne; [apply H, Hg |].
    intros ->. apply Hfresh. eapply list_elem_of_lookup_2, Hg.
  - rewrite lookup_app_r in Hg by lia.
    destruct (g - length srcs) as [|k] eqn:Ek; [| destruct k; discriminate].
    cbn in Hg. injection Hg as <-.
    assert (g = length srcs) by lia. subst g.
    rewrite list_lookup_insert_eq by exact Hs. reflexivity.
Qed.

Ltac linked_ok :=
  repeat first
    [ preserves_step
    | lazymatch goal with
      | |- preserves _ (createOptimizedGrain _ _ _ _ _) => apply createOptimizedGrain_linked
      end
    | linked_lemma
    | unfold_head ];
  try linked_leaf.

Lemma run_keeps_linked c : preserves (Linked None) (run c).
Proof. destruct c; linked_ok. Qed.

Lemma reachable_linked capacity w : reachable capacity w -> Linked None w.
Proof.
  induction 1 as [t0 orc random w Hc | w c _ IH].
  - pose proof (construct_registry _ _ _ _ _ Hc) as Hr.
    apply registry_eq in Hr as (Hh & _).
    unfold Linked, links. rewrite Hh. cbn. split; [| exact I].
    intros g s Hs. rewrite lookup_nil in Hs. discriminate.
  - apply (preserves_snd (Linked None)); [apply run_keeps_linked | exact IH].
Qed.

Lemma onended_cleans capacity w g :
  reachable capacity w -> g < length (grainHeap w) ->
  fireOnended (source (grainHeap w !!! g)) w = cleanupGrain g w.
Proof.
  intros Hr Hlt. destruct (reachable_linked capacity w Hr) as [H _].
  specialize (H g (source (grainHeap w !!! g))).
  rewrite list_lookup_fmap, (list_lookup_lookup_total_lt _ g Hlt) in H.
  specialize (H eq_refl). rewrite list_lookup_fmap in H.
  destruct (sourceHeap (audioContext w) !! source (grainHeap w !!! g)) as [n|] eqn:En;
    [| discriminate].
  cbn in H. injection H as Hn.
  unfold fireOnended, getSourceNode.
  rewrite (bind_returns _ _ w n w)
    by (unfold deref; rewrite (list_lookup_total_correct _ _ _ En); reflexivity).
  rewrite Hn. reflexivity.
Qed.

Lemma onended_releases capacity w g :
  reachable capacity w -> g < length (grainHeap w) ->
  exists w',
    fireOnended (source (grainHeap w !!! g)) w = (Ret tt, w') /\
    cleanupGrain g w = (Ret tt, w') /\
    isActive (grainHeap w' !!! g) = false /\
    (g ∉ activeVoices (manager w')) /\
    (forall h, h <> g -> grainHeap w' !!! h = grainHeap w !!! h) /\
    cleanupQueue (manager w') = cleanupQueue (manager w).
Proof.
  intros Hr Hlt. rewrite (onended_cleans capacity w g Hr Hlt).
  destruct (cleanupGrain_registry g w) as (w' & E & Hreg).
  exists w'. split; [exact E |]. split; [exact E |].
  pose proof (reachable_RegistryOK capacity w Hr) as Hok.
  pose proof (cleanupGrainR_off g (registry w)) as Hoff.
  pose proof (cleanupGrainR_active g (registry w) g Hok) as Hact.
  pose proof (cleanupGrainR_queue g (registry w)) as Hq.
  rewrite <- Hreg in Hoff, Hact, Hq.
  split; [exact Hoff |]. split; [intros Hin; apply Hact in Hin as [_ Hne]; congruence |].
  split; [| rewrite !queueOf_registry in Hq; exact Hq].
  intros h Hne. unfold registry, cleanupGrainR in Hreg.
  destruct (isActive (grainHeap w !!! g)); injection Hreg as -> _ _ _ _; [| reflexivity].
  apply list_lookup_total_insert_ne. congruence.
Qed.

(** In every reachable state the end of a grain's source (its onended
    event) cleans exactly this grain: the event does what cleanupGrain on
    the grain does and never throws; afterwards the grain is inactive and
    out of the active set, every other grain is as it was, and the cleanup
    queue keeps its entries. *)
Theorem onended_releases_the_voice capacity w g :
  reachable capacity w -> g < length (grainHeap w) ->
  exists w',
    fireOnended (source (grainHeap w !!! g)) w = (Ret tt, w') /\
    cleanupGrain g w = (Ret tt, w') /\
    isActive (grainHeap w' !!! g) = false /\
    (g ∉ activeVoices (manager w')) /\
    (forall h, h <> g -> grainHeap w' !!! h = grainHeap w !!! h) /\
    cleanupQueue (manager w') = cleanupQueue (manager w).
Proof. exact (onended_releases capacity w g). Qed.

Lemma onended_releases_the_voice_witness :
  reachable 1 (runAll twoGrains (studio 1)) /\
  1 < length (grainHeap (runAll twoGrains (studio 1))) /\
  exists w',
    fireOnended (source (grainHeap (runAll twoGrains (studio 1)) !!! 1))
                (runAll twoGrains (studio 1)) = (Ret tt, w') /\
    isActive (grainHeap w' !!! 1) = false.
Proof.
  assert (Hlt : 1 < length (grainHeap (runAll twoGrains (studio 1))))
    by (apply isActive_in_range, twoGrains_second_active).
  split; [exact twoGrains_reachable |]. split; [exact Hlt |].
  destruct (onended_releases_the_voice 1 (runAll twoGrains (studio 1)) 1
              twoGrains_reachable Hlt) as (w' & E & _ & Hoff & _).
  exists w'. split; [exact E | exact Hoff].
Defined.

(** ** Release of the triple of a playing grain *)

Lemma twoGrains_second_allocated :
  allocated (nodes (grainHeap (runAll twoGrains (studio 1)) !!! 1))
            (runAll twoGrains (studio 1)).
Proof.
  exact (proj1 (active_grain_nodes 1 (runAll twoGrains (studio 1)) 1
                  twoGrains_reachable twoGrains_second_active)).
Qed.

Lemma twoGrains_second_held :
  gainNode (nodes (grainHeap (runAll twoGrains (studio 1)) !!! 1))
    ∉ gainNodes (nodePool (manager (runAll twoGrains (studio 1)))).
Proof.
  exact (proj1 (proj2 (proj2 (active_grain_nodes 1 (runAll twoGrains (studio 1)) 1
                                twoGrains_reachable twoGrains_second_active)))).
Qed.

(** On a platform without faults the first case of a release is excluded. *)
Lemma release_without_faults w nodes w' :
  NoFaults w ->
  ((nodePool (manager w') = nodePool (manager w) /\ faulty w) \/
   (released nodes (nodePool (manager w)) w' /\
    exists w'', getPooledNodes w' = (Ret nodes, w'') /\
                nodePool (manager w'') = nodePool (manager w) /\ neutral nodes w'')) ->
  released nodes (nodePool (manager w)) w' /\
  exists w'', getPooledNodes w' = (Ret nodes, w'') /\
              nodePool (manager w'') = nodePool (manager w) /\ neutral nodes w''.
Proof.
  intros Hq [[_ (k & Hk)] | H]; [| exact H].
  unfold oracle in Hk. rewrite (Hq k) in Hk. discriminate.
Qed.

Lemma C7_released_triple_is_neutral_witness :
  reachable 1 (runAll twoGrains (studio 1)) /\
  isActive (grainHeap (runAll twoGrains (studio 1)) !!! 1) = true /\
  allocated (nodes (grainHeap (runAll twoGrains (studio 1)) !!! 1))
            (runAll twoGrains (studio 1)) /\
  (gainNode (nodes (grainHeap (runAll twoGrains (studio 1)) !!! 1))
     ∉ gainNodes (nodePool (manager (runAll twoGrains (studio 1))))) /\
  exists w',
    returnNodesToPool (nodes (grainHeap (runAll twoGrains (studio 1)) !!! 1))
                      (runAll twoGrains (studio 1)) = (Ret tt, w') /\
    released (nodes (grainHeap (runAll twoGrains (studio 1)) !!! 1))
             (nodePool (manager (runAll twoGrains (studio 1)))) w' /\
    exists w'',
      getPooledNodes w'
      = (Ret (nodes (grainHeap (runAll twoGrains (studio 1)) !!! 1)), w'') /\
      nodePool (manager w'') = nodePool (manager (runAll twoGrains (studio 1))) /\
      neutral (nodes (grainHeap (runAll twoGrains (studio 1)) !!! 1)) w''.
Proof.
  split; [exact twoGrains_reachable |]. split; [exact twoGrains_second_active |].
  split; [exact twoGrains_second_allocated |]. split; [exact twoGrains_second_held |].
  destruct (C7_released_triple_is_neutral 1 (runAll twoGrains (studio 1))
              (nodes (grainHeap (runAll twoGrains (studio 1)) !!! 1))
              twoGrains_reachable twoGrains_second_allocated)
    as (w' & E & Hcases & _).
  exists w'. split; [exact E |].
  exact (release_without_faults _ _ _ twoGrains_NoFaults Hcases).
Defined.


(** ** A failure inside the envelope *)



Section GateSteps.
Variables (P : (nat -> bool) -> nat -> Prop) (src : nat).



(** The next platform call succeeds. *)
Hypothesis P_pass : forall o c, P o c -> o c = false /\ P o (S c).




End GateSteps.








Lemma withOracle_registry orc w : registry (withOracle orc w) = registry w.
Proof. reflexivity. Qed.











